(** * Projecte-Xarxes: the spectrogram data-preparation pipeline of
    [utils/utils.py], embedded in Rocq.

    Python values are modelled as follows.
    - floating-point samples and spectrogram cells are rationals ([Q]);
    - a 2-D [numpy] array is its [shape] together with its rows;
    - Python exceptions are the [Raises] outcome of a [result];
    - the file system, the array heap and the two random generators are
      explicit states threaded through the functions that touch them;
    - [librosa], [torch] and Python's [int] are parameters of the sections
      that call them; [librosa.load] called with its defaults is its decoder
      followed by the mix to one channel and the resampling. *)

From Stdlib Require Import ZArith QArith Lia Ascii.
From stdpp Require Import base option list gmap strings sorting.

Local Open Scope nat_scope.

#[local] Set Warnings "-abstract-large-number".

(** ** Exceptions and results *)

Inductive exn : Type :=
  | IndexError
  | KeyError
  | ValueError
  | FileNotFoundError
  | OSError.

Inductive result (A : Type) : Type :=
  | Returns (a : A)
  | Raises (e : exn).
Arguments Returns {A} a.
Arguments Raises {A} e.

#[global] Instance result_ret : MRet result := fun A a => Returns a.
#[global] Instance result_bind : MBind result := fun A B f r =>
  match r with
  | Returns a => f a
  | Raises e => Raises e
  end.

(** Code that also reads or writes a state [S]; the state survives a raise. *)
Definition M (S A : Type) : Type := S -> result A * S.

Definition ret {S A : Type} (a : A) : M S A := fun s => (Returns a, s).

Definition bind {S A B : Type} (m : M S A) (k : A -> M S B) : M S B :=
  fun s =>
    match m s with
    | (Returns a, s') => k a s'
    | (Raises e, s') => (Raises e, s')
    end.

(** A pure computation run inside stateful code. *)
Definition lift {S A : Type} (r : result A) : M S A := fun s => (r, s).

Declare Scope py_scope.
Delimit Scope py_scope with py.
Notation "'let*' x ':=' m 'in' k" := (bind m (fun x => k))
  (at level 10, x pattern, m at level 100, k at level 200) : py_scope.
Notation "m ';;;' k" := (bind m (fun _ => k))
  (at level 100, k at level 200, right associativity) : py_scope.

(** [l[i]] for a non-negative index. *)
Definition getitem {A : Type} (l : list A) (i : nat) : result A :=
  match l !! i with
  | Some x => Returns x
  | None => Raises IndexError
  end.

(** ** Two-dimensional arrays *)

Record ndarray : Type := NdArray {
  shape0 : nat;
  shape1 : nat;
  rows : list (list Q)
}.

Definition shape (a : ndarray) : nat * nat := (shape0 a, shape1 a).

(** The rows agree with the declared shape. *)
Definition wf_ndarray (a : ndarray) : Prop :=
  length (rows a) = shape0 a ∧ Forall (fun r => length r = shape1 a) (rows a).

#[global] Instance Q_eq_dec : EqDecision Q.
Proof. solve_decision. Defined.

#[global] Instance ndarray_eq_dec : EqDecision ndarray.
Proof. solve_decision. Defined.

(** [a[0:n, 0:m]] for non-negative [n] and [m]: the bounds are clamped to the
    shape, as Python slices are. *)
Definition slice_prefix (a : ndarray) (n m : nat) : ndarray :=
  {| shape0 := Nat.min n (shape0 a);
     shape1 := Nat.min m (shape1 a);
     rows := take m <$> take n (rows a) |}.

(** [a[r, c]] *)
Definition cell (a : ndarray) (r c : nat) : option Q :=
  rows a !! r ≫= fun row => row !! c.

(** ** Shape normalisation: [FixSizeSpectrogram] *)

Module Normalizer.

(** One iteration of the loop body, for the element [spec] at index [i]. *)
Definition fix_one {L : Type} (genres : list L) (shapes : list nat)
    (i : nat) (spec : ndarray) : result (ndarray * L) :=
  s0 ← getitem shapes 0;
  s1 ← getitem shapes 1;
  if decide (shape spec ≠ (s0, s1)) then
    g ← getitem genres i;
    mret (slice_prefix spec s0 s1, g)
  else
    g ← getitem genres i;
    mret (spec, g).

(** The loop [for i, spec in enumerate(spectrograms)], from index [i]. *)
Fixpoint fix_from {L : Type} (genres : list L) (shapes : list nat)
    (i : nat) (spectrograms : list ndarray) : result (list ndarray * list L) :=
  match spectrograms with
  | [] => mret ([], [])
  | spec :: rest =>
      '(s, g) ← fix_one genres shapes i spec;
      '(ss, gs) ← fix_from genres shapes (S i) rest;
      mret (s :: ss, g :: gs)
  end.

Definition FixSizeSpectrogram {L : Type} (spectrograms : list ndarray)
    (genres : list L) (shapes : list nat) : result (list ndarray * list L) :=
  fix_from genres shapes 0 spectrograms.

(** What the loop body leaves in the output list for one array. *)
Definition normalized (s0 s1 : nat) (a : ndarray) : ndarray :=
  if decide (shape a ≠ (s0, s1)) then slice_prefix a s0 s1 else a.

End Normalizer.

(** ** Python slices *)

(** The position a slice bound [k] denotes in a sequence of length [len]:
    a negative bound counts from the end, and every bound is clamped. *)
Definition slice_index (len : nat) (k : Z) : nat :=
  if (k <? 0)%Z then Z.to_nat (Z.max 0 (k + Z.of_nat len))
  else Nat.min (Z.to_nat k) len.

(** [l[i:j]] *)
Definition py_slice {A : Type} (l : list A) (i j : Z) : list A :=
  drop (slice_index (length l) i) (take (slice_index (length l) j) l).

(** [s[i:j]] on a string. *)
Definition str_slice (s : string) (i j : Z) : string :=
  String.string_of_list_ascii (py_slice (String.list_ascii_of_string s) i j).

(** [int(q)]: truncation towards zero. *)
Definition int_of_Q (q : Q) : Z := Z.quot (Qnum q) (Zpos (Qden q)).

(** ** Augmentation: [spec_augment] and [DataSpecAugmentation] *)

Module Augmenter.

(** A random generator: the stream of the values in [0, 1] that its successive
    basic draws return, and the number of draws consumed so far. *)
Record rng : Type := Rng {
  draws : nat -> Q;
  pos : nat
}.

Definition next_draw (g : rng) : Q * rng :=
  (draws g (pos g), {| draws := draws g; pos := S (pos g) |}).

(** [uniform(low, high)] computes [low + (high - low) * u] from the basic draw
    [u], in [random] and in [numpy.random] alike. *)
Definition scale (low high u : Q) : Q := (low + (high - low) * u)%Q.

(** Arrays live in a heap and are named by their address; the list objects of
    the program hold addresses. *)
Abbreviation loc := nat.

Record state : Type := State {
  heap : list ndarray;
  py_random : rng;
  np_random : rng
}.

Definition empty_array : ndarray := {| shape0 := 0; shape1 := 0; rows := [] |}.

#[global] Instance ndarray_inhabited : Inhabited ndarray := populate empty_array.

(** The array an address names. *)
Definition deref (s : state) (l : loc) : ndarray := heap s !!! l.

(** [spec.copy()]: a fresh array with the same contents. *)
Definition copy (l : loc) (s : state) : loc * state :=
  (length (heap s),
   {| heap := heap s ++ [deref s l];
      py_random := py_random s;
      np_random := np_random s |}).

Definition store (l : loc) (a : ndarray) (s : state) : state :=
  {| heap := <[l := a]> (heap s);
     py_random := py_random s;
     np_random := np_random s |}.

(** [random.uniform(low, high)] *)
Definition random_uniform (low high : Q) (s : state) : Q * state :=
  let '(u, g) := next_draw (py_random s) in
  (scale low high u,
   {| heap := heap s; py_random := g; np_random := np_random s |}).

(** [np.random.uniform(low=low, high=high)] *)
Definition np_random_uniform (low high : Q) (s : state) : Q * state :=
  let '(u, g) := next_draw (np_random s) in
  (scale low high u,
   {| heap := heap s; py_random := py_random s; np_random := g |}).

(** [row[lo:hi] = 0] on one row. *)
Definition zero_range (lo hi : nat) (row : list Q) : list Q :=
  imap (fun j x => if decide (lo <= j < hi) then 0%Q else x) row.

(** [spec[:, lo:hi] = 0] *)
Definition zero_columns (lo hi : Z) (a : ndarray) : ndarray :=
  {| shape0 := shape0 a;
     shape1 := shape1 a;
     rows := zero_range (slice_index (shape1 a) lo) (slice_index (shape1 a) hi)
               <$> rows a |}.

(** [spec[lo:hi, :] = 0] *)
Definition zero_rows (lo hi : Z) (a : ndarray) : ndarray :=
  {| shape0 := shape0 a;
     shape1 := shape1 a;
     rows := imap (fun i row =>
                     if decide (slice_index (shape0 a) lo <= i
                                < slice_index (shape0 a) hi)
                     then (fun _ => 0%Q) <$> row else row) (rows a) |}.

(** The four numbers one masking round derives from its draws. *)
Record band : Type := Band {
  num_freqs_to_mask : Z;
  f0 : Z;
  num_frames_to_mask : Z;
  t0 : Z
}.

(** One iteration of [for i in range(num_mask)] on the array at [l]; it
    returns the bands it has zeroed together with the new state. The widths
    and the starting points are computed in exact arithmetic; where a
    product of doubles rounds across an integer, the band of the program
    differs from the band here by one cell. *)
Definition mask_round (freq_masking_max_percentage
    time_masking_max_percentage : Q) (l : loc) (s : state) : band * state :=
  let all_frames_num := shape0 (deref s l) in
  let all_freqs_num := shape1 (deref s l) in
  let '(freq_percentage, s) :=
    random_uniform 0 freq_masking_max_percentage s in
  let num_freqs_to_mask :=
    int_of_Q (freq_percentage * inject_Z (Z.of_nat all_freqs_num)) in
  let '(f0, s) :=
    np_random_uniform 0
      (inject_Z (Z.of_nat all_freqs_num - num_freqs_to_mask)) s in
  let f0 := int_of_Q f0 in
  let s := store l (zero_columns f0 (f0 + num_freqs_to_mask) (deref s l)) s in
  let '(time_percentage, s) :=
    random_uniform 0 time_masking_max_percentage s in
  let num_frames_to_mask :=
    int_of_Q (time_percentage * inject_Z (Z.of_nat all_frames_num)) in
  let '(t0, s) :=
    np_random_uniform 0
      (inject_Z (Z.of_nat all_frames_num - num_frames_to_mask)) s in
  let t0 := int_of_Q t0 in
  let s := store l (zero_rows t0 (t0 + num_frames_to_mask) (deref s l)) s in
  (Band num_freqs_to_mask f0 num_frames_to_mask t0, s).

(** The loop over [range(num_mask)]. *)
Fixpoint mask_rounds (num_mask : nat) (fmax tmax : Q) (l : loc) (s : state)
    : list band * state :=
  match num_mask with
  | O => ([], s)
  | S n =>
      let '(b, s) := mask_round fmax tmax l s in
      let '(bs, s) := mask_rounds n fmax tmax l s in
      (b :: bs, s)
  end.

(** [spec_augment(spec, num_mask, freq_masking_max_percentage,
    time_masking_max_percentage)]: the address of the masked copy. The bands
    are returned along with it for the statements below; the Python function
    returns the array only. *)
Definition spec_augment_bands (spec : loc) (num_mask : nat) (fmax tmax : Q)
    (s : state) : (loc * list band) * state :=
  let '(spec, s) := copy spec s in
  let '(bs, s) := mask_rounds num_mask fmax tmax spec s in
  ((spec, bs), s).

Definition spec_augment (spec : loc) (num_mask : nat) (fmax tmax : Q)
    (s : state) : loc * state :=
  let '((l, _), s) := spec_augment_bands spec num_mask fmax tmax s in (l, s).

(** The default arguments of [spec_augment]. *)
Definition default_num_mask : nat := 2.
Definition default_freq_masking_max_percentage : Q := 15 # 100.
Definition default_time_masking_max_percentage : Q := 25 # 100.

(** The loop of [DataSpecAugmentation], from index [i]: the lists [new_spec]
    and [genre_augment] it builds. *)
Fixpoint augment_from {L : Type} (genres_list : list L) (i : nat)
    (spec_list : list loc) : M state (list loc * list L) :=
  match spec_list with
  | [] => ret ([], [])
  | spec :: rest =>
      (let* spec := (fun s =>
           let '(l, s) := spec_augment spec default_num_mask
                            default_freq_masking_max_percentage
                            default_time_masking_max_percentage s in
           (Returns l, s)) in
       let* g := lift (getitem genres_list i) in
       let* (new_spec, genre_augment) := augment_from genres_list (S i) rest in
       ret (spec :: new_spec, g :: genre_augment))%py
  end.

(** [DataSpecAugmentation(spec_list, genres_list)] extends both list objects
    in place; the result is their final contents. *)
Definition DataSpecAugmentation {L : Type} (spec_list : list loc)
    (genres_list : list L) : M state (list loc * list L) :=
  (let* (new_spec, genre_augment) := augment_from genres_list 0 spec_list in
   ret (spec_list ++ new_spec, genres_list ++ genre_augment))%py.

(** *** Vocabulary for the statements about augmentation *)

(** The bands of one round, from the array's shape and the four basic draws
    in the order the round consumes them. *)
Definition band_of (fmax tmax : Q) (a : ndarray) (uf vf ut vt : Q) : band :=
  let nf := int_of_Q (scale 0 fmax uf * inject_Z (Z.of_nat (shape1 a))) in
  let f0 := int_of_Q (scale 0 (inject_Z (Z.of_nat (shape1 a) - nf)) vf) in
  let nt := int_of_Q (scale 0 tmax ut * inject_Z (Z.of_nat (shape0 a))) in
  let t0 := int_of_Q (scale 0 (inject_Z (Z.of_nat (shape0 a) - nt)) vt) in
  Band nf f0 nt t0.

(** The two assignments of one round. *)
Definition apply_band (b : band) (a : ndarray) : ndarray :=
  zero_rows (t0 b) (t0 b + num_frames_to_mask b)
    (zero_columns (f0 b) (f0 b + num_freqs_to_mask b) a).

(** A generator after [n] more draws. *)
Definition advance (n : nat) (g : rng) : rng :=
  {| draws := draws g; pos := n + pos g |}.

(** Every basic draw lies in [0, 1]. *)
Definition valid_rng (g : rng) : Prop :=
  forall n, (0 <= draws g n)%Q ∧ (draws g n <= 1)%Q.

(** Cell [(r, c)] lies in a band of [bs], for an array of the given shape:
    in the columns [f0 .. f0 + num_freqs_to_mask - 1] or in the rows
    [t0 .. t0 + num_frames_to_mask - 1] of one of them. *)
Definition in_columns (b : band) (ncols c : nat) : Prop :=
  slice_index ncols (f0 b) <= c
  < slice_index ncols (f0 b + num_freqs_to_mask b).

Definition in_rows (b : band) (nrows r : nat) : Prop :=
  slice_index nrows (t0 b) <= r
  < slice_index nrows (t0 b + num_frames_to_mask b).

Definition masked (bs : list band) (nrows ncols r c : nat) : Prop :=
  Exists (fun b => in_columns b ncols c ∨ in_rows b nrows r) bs.

(** The bounds a band obeys: a run of columns no wider than [fmax] of the
    column count and a run of rows no wider than [tmax] of the row count,
    both inside the array. *)
Definition band_within (fmax tmax : Q) (nrows ncols : nat) (b : band) : Prop :=
  (0 <= num_freqs_to_mask b)%Z
  ∧ (inject_Z (num_freqs_to_mask b) <= fmax * inject_Z (Z.of_nat ncols))%Q
  ∧ (0 <= f0 b)%Z
  ∧ (f0 b + num_freqs_to_mask b <= Z.of_nat ncols)%Z
  ∧ (0 <= num_frames_to_mask b)%Z
  ∧ (inject_Z (num_frames_to_mask b) <= tmax * inject_Z (Z.of_nat nrows))%Q
  ∧ (0 <= t0 b)%Z
  ∧ (t0 b + num_frames_to_mask b <= Z.of_nat nrows)%Z.

(** The augmented copies of a list of arrays, made one after the other. *)
Fixpoint augmented (spec_list : list loc) (s : state) : list loc * state :=
  match spec_list with
  | [] => ([], s)
  | spec :: rest =>
      let '(l, s) := spec_augment spec default_num_mask
                       default_freq_masking_max_percentage
                       default_time_masking_max_percentage s in
      let '(ls, s) := augmented rest s in
      (l :: ls, s)
  end.

End Augmenter.

(** ** The file system and the console *)

Inductive event : Type :=
  | Printed (line : string)
  | Entered_CreateSpectrograms (load_path save_path : string).

(** [dirs] gives, for every directory, the names of its entries in the order
    [iterdir] yields them; [tensors] gives the array held by every file that
    [torch.save] has written; [trace] records what has been printed and each
    entry into [CreateSpectrograms]. *)
Record world : Type := World {
  dirs : gmap string (list string);
  tensors : gmap string ndarray;
  trace : list event
}.

Definition emit (e : event) : M world unit :=
  fun w => (Returns tt,
            {| dirs := dirs w; tensors := tensors w; trace := trace w ++ [e] |}).

Definition print (line : string) : M world unit := emit (Printed line).

(** The entries into [CreateSpectrograms] that a trace records, as pairs of
    its arguments. *)
Definition calls (t : list event) : list (string * string) :=
  omap (fun e => match e with
                 | Entered_CreateSpectrograms l s => Some (l, s)
                 | Printed _ => None
                 end) t.

Definition join_path (dir name : string) : string := dir +:+ "/" +:+ name.

(** Two worlds with the same files and the same recorded calls. *)
Definition same_files_and_calls (w w' : world) : Prop :=
  dirs w' = dirs w ∧ tensors w' = tensors w
  ∧ calls (trace w') = calls (trace w).

(** A computation that leaves the files and the recorded calls as they are. *)
Definition quiet {A : Type} (m : M world A) : Prop :=
  forall w, same_files_and_calls w (m w).2.

(** [list(path.iterdir())], each entry as [str] shows it. *)
Definition iterdir (path : string) : M world (list string) :=
  fun w =>
    match dirs w !! path with
    | Some names => (Returns (join_path path <$> names), w)
    | None => (Raises FileNotFoundError, w)
    end.

(** [p.is_file()] for an entry [p] that [iterdir] has yielded. *)
Definition is_file (p : string) (w : world) : bool :=
  bool_decide (dirs w !! p = None).

(** A path split at its last slash. *)
Fixpoint split_last_slash (l : list ascii) : option (list ascii * list ascii) :=
  match l with
  | [] => None
  | c :: l' =>
      match split_last_slash l' with
      | Some (d, n) => Some (c :: d, n)
      | None => if decide (c = "/"%char) then Some ([], l') else None
      end
  end.

Definition split_path (p : string) : string * string :=
  match split_last_slash (String.list_ascii_of_string p) with
  | Some (d, n) =>
      (String.string_of_list_ascii d, String.string_of_list_ascii n)
  | None => (".", p)
  end.

(** [torch.save(spec, p)]: the file is written when its directory exists, [p]
    is not itself a directory and the write is permitted. A new name is put
    at the end of the listing; where the operating system lists it is not
    fixed, and the statements about listings speak of their names only. *)
Definition torch_save (writable : string -> bool) (spec : ndarray) (p : string)
    : M world unit :=
  fun w =>
    let '(d, n) := split_path p in
    match dirs w !! d with
    | None => (Raises FileNotFoundError, w)
    | Some names =>
        if is_file p w && writable p then
          (Returns tt,
           {| dirs := <[d := if decide (n ∈ names) then names
                             else names ++ [n]]> (dirs w);
              tensors := <[p := spec]> (tensors w);
              trace := trace w |})
        else (Raises OSError, w)
    end.

(** [torch.load(p)] *)
Definition torch_load (p : string) : M world ndarray :=
  fun w =>
    match tensors w !! p with
    | Some t => (Returns t, w)
    | None => (Raises FileNotFoundError, w)
    end.

(** ** Genre resolution: [GetGenres] *)

Module Resolver.

(** A cell of the [genre_top] column: a string, or NaN where it is missing. *)
Inductive cellval : Type :=
  | Str (s : string)
  | NaN.

(** The tracks table, reduced to the two columns that are read. *)
Record track : Type := Track {
  track_id : Z;
  genre_top : cellval
}.

(** [tracks.loc[tracks.track_id == k, 'genre_top'].values[0]] *)
Definition genre_top_of (tracks : list track) (k : Z) : result cellval :=
  getitem (genre_top <$> filter (fun t => track_id t = k) tracks) 0.

(** [dict_genre[key]] *)
Definition dict_getitem (dict_genre : gmap string Z) (key : cellval) : result Z :=
  match key with
  | Str s =>
      match dict_genre !! s with
      | Some v => Returns v
      | None => Raises KeyError
      end
  | NaN => Raises KeyError
  end.

Section GetGenres.

(** Python's [int] on a string. *)
Variable py_int : string -> result Z.

(** The body of the loop for one directory entry, which extends both lists. *)
Definition resolve_one (dict_genre : gmap string Z) (tracks : list track)
    (direc : string) (w : world) : result (list string * list Z) :=
  if is_file direc w then
    let id_track := str_slice direc (-10) (-4) in
    k ← py_int id_track;
    top ← genre_top_of tracks k;
    g ← dict_getitem dict_genre top;
    mret ([id_track], [g])
  else mret ([], []).

Fixpoint resolve_all (dict_genre : gmap string Z) (tracks : list track)
    (entries : list string) (w : world) : result (list string * list Z) :=
  match entries with
  | [] => mret ([], [])
  | direc :: rest =>
      '(ids, gs) ← resolve_one dict_genre tracks direc w;
      '(id_list, genre_list) ← resolve_all dict_genre tracks rest w;
      mret (ids ++ id_list, gs ++ genre_list)
  end.

Definition GetGenres (path : string) (dict_genre : gmap string Z)
    (tracks : list track) : M world (list string * list Z) :=
  (let* entries := iterdir path in
   fun w => (resolve_all dict_genre tracks entries w, w))%py.

End GetGenres.

End Resolver.

(** ** Spectrogram extraction: [CreateSpectrograms] *)

Module Extractor.

(** A waveform: a 1-D array of samples, which is what [librosa.load] hands
    back when it mixes to one channel, or a 2-D array of channels; indexing
    either lowers the rank by one. *)
Inductive audio : Type :=
  | Audio0 (v : Q)
  | Audio1 (samples : list Q)
  | Audio2 (channels : list (list Q)).

(** [waveform.shape[0]] *)
Definition audio_shape0 (waveform : audio) : result nat :=
  match waveform with
  | Audio0 _ => Raises IndexError
  | Audio1 samples => Returns (length samples)
  | Audio2 channels => Returns (length channels)
  end.

(** [(waveform[0] + waveform[1]) / 2] *)
Definition downmix (waveform : audio) : result audio :=
  match waveform with
  | Audio0 _ => Raises IndexError
  | Audio1 samples =>
      a ← getitem samples 0;
      b ← getitem samples 1;
      mret (Audio0 ((a + b) / 2)%Q)
  | Audio2 channels =>
      a ← getitem channels 0;
      b ← getitem channels 1;
      mret (Audio1 (zip_with (fun x y => ((x + y) / 2)%Q) a b))
  end.

(** [waveform.ndim] *)
Definition ndim (waveform : audio) : nat :=
  match waveform with
  | Audio0 _ => 0
  | Audio1 _ => 1
  | Audio2 _ => 2
  end.

(** *** [librosa.load] with its defaults

    Line 61 calls [librosa.load(file)] with no keyword, hence with
    [sr=22050] and [mono=True]: the decoded signal is mixed to one channel
    by [librosa.to_mono] and then resampled to 22050 Hz, so the waveform
    handed back is 1-D whatever the file holds. *)

(** The sample-by-sample sum of the channels. *)
Fixpoint sum_channels (channels : list (list Q)) : list Q :=
  match channels with
  | [] => []
  | [c] => c
  | c :: rest => zip_with Qplus c (sum_channels rest)
  end.

(** [librosa.to_mono]: a signal with one channel is left as it is, several
    channels are replaced by their mean. *)
Definition to_mono (channels : list (list Q)) : list Q :=
  match channels with
  | [c] => c
  | _ => (fun x => (x / inject_Z (Z.of_nat (length channels)))%Q)
         <$> sum_channels channels
  end.

Section LibrosaLoad.

(** The decoder behind [librosa.load]: the channels of the file and its
    native sampling rate, or a failure. *)
Variable decode : string -> result (list (list Q) * Z).

(** [librosa.resample(y, orig_sr=..., target_sr=...)] on a 1-D signal. *)
Variable resample : list Q -> Z -> Z -> list Q.

(** [librosa.load(file)] *)
Definition librosa_load_default (file : string) : result (audio * Z) :=
  '(channels, sr_native) ← decode file;
  mret (Audio1 (resample (to_mono channels) sr_native 22050), 22050%Z).

End LibrosaLoad.

Section CreateSpectrograms.

(** [librosa.load]: the waveform and the sample rate, or a failure. *)
Variable librosa_load : string -> result (audio * Z).

(** [librosa.feature.melspectrogram(y, sr, n_fft, hop_length)] *)
Variable melspectrogram : audio -> Z -> nat -> nat -> result ndarray.

(** Whether the operating system lets a file be written at a path. *)
Variable writable : string -> bool.

(** The statements of the [try] block up to the save: the array that is to be
    saved. The waveform rebound by the [if] is not read afterwards. *)
Definition compute_spec (file : string) : result ndarray :=
  '(waveform, sample_rate) ← librosa_load file;
  spec ← melspectrogram waveform sample_rate 2048 512;
  n ← audio_shape0 waveform;
  waveform ← (if decide (1 < n) then downmix waveform else mret waveform);
  mret spec.

(** The whole [try] block for one file. *)
Definition try_block (save_path file : string) : M world unit :=
  let id_track := str_slice file (-10) (-4) in
  (let* spec := lift (compute_spec file) in
   torch_save writable spec (save_path +:+ "/" +:+ id_track +:+ ".pt"))%py.

(** [try: ... except: pass] over the listed files. *)
Fixpoint extract_all (save_path : string) (files : list string) : M world unit :=
  match files with
  | [] => ret tt
  | file :: rest =>
      fun w =>
        match try_block save_path file w with
        | (Returns _, w') => extract_all save_path rest w'
        | (Raises _, w') => extract_all save_path rest w'
        end
  end.

Definition CreateSpectrograms (load_path save_path : string) : M world unit :=
  (emit (Entered_CreateSpectrograms load_path save_path);;;
   let* files := iterdir load_path in
   extract_all save_path files)%py.

(** *** Vocabulary for the statements about extraction *)

(** The path under which the artifact of [file] is saved. *)
Definition target (save_path file : string) : string :=
  save_path +:+ "/" +:+ str_slice file (-10) (-4) +:+ ".pt".

(** [torch.save] to [p] goes through in [w]. *)
Definition savable (w : world) (p : string) : bool :=
  bool_decide (is_Some (dirs w !! (split_path p).1))
  && is_file p w && writable p.

(** The world after a save to [p] that went through. *)
Definition saved (w : world) (p : string) (spec : ndarray) : world :=
  let '(d, n) := split_path p in
  {| dirs := <[d := if decide (n ∈ default [] (dirs w !! d))
                    then default [] (dirs w !! d)
                    else default [] (dirs w !! d) ++ [n]]> (dirs w);
     tensors := <[p := spec]> (tensors w);
     trace := trace w |}.

(** One iteration of the loop, whatever happens inside the [try]. *)
Definition step (save_path : string) (w : world) (file : string) : world :=
  match compute_spec file with
  | Returns spec =>
      if savable w (target save_path file)
      then saved w (target save_path file) spec else w
  | Raises _ => w
  end.

(** A file succeeds in [w]: decoding and computation return, and the save goes
    through. *)
Definition succeeds (save_path : string) (w : world) (file : string)
    (spec : ndarray) : Prop :=
  compute_spec file = Returns spec ∧ savable w (target save_path file) = true.

End CreateSpectrograms.

End Extractor.

(** ** Loading the artifacts back: [ChargeDataset] *)

Module Loader.

(** [np.argwhere(id_list == id_track)]: the matching positions, from [i]. *)
Fixpoint argwhere_from (i : nat) (id_list : list string) (id_track : string)
    : list nat :=
  match id_list with
  | [] => []
  | x :: rest =>
      if decide (x = id_track) then i :: argwhere_from (S i) rest id_track
      else argwhere_from (S i) rest id_track
  end.

Definition argwhere (id_list : list string) (id_track : string) : list nat :=
  argwhere_from 0 id_list id_track.

(** [genre_list[np.argwhere(id_list == id_track)][0][0]]: indexing by the
    column of positions gives a column of genres, whose first row is read. *)
Definition genre_of (id_list : list string) (genre_list : list Z)
    (id_track : string) : result Z :=
  column ← mapM (fun i => g ← getitem genre_list i; mret [g])
                (argwhere id_list id_track);
  row ← getitem column 0;
  getitem row 0.

Section ChargeDataset.

(** [np.asarray(librosa.power_to_db(spec))] *)
Variable power_to_db : ndarray -> ndarray.

Fixpoint charge_all (id_list : list string) (genre_list : list Z)
    (entries : list string) : M world (list ndarray * list Z) :=
  match entries with
  | [] => ret ([], [])
  | spec :: rest =>
      let id_track := str_slice spec 18 (-3) in
      (let* g := lift (genre_of id_list genre_list id_track) in
       let* spec := torch_load spec in
       let spec := power_to_db spec in
       let* (images, labels) := charge_all id_list genre_list rest in
       ret (spec :: images, g :: labels))%py
  end.

Definition ChargeDataset (path : string) (id_list : list string)
    (genre_list : list Z) : M world (list ndarray * list Z) :=
  (let* entries := iterdir path in
   charge_all id_list genre_list entries)%py.

End ChargeDataset.

End Loader.

(** ** The pipeline: [LoadDataPipeline] *)

Module Pipeline.

(** The dictionary literal of [LoadDataPipeline]. *)
Definition genre_dict : gmap string Z :=
  list_to_map
    [("Electronic", 0%Z); ("Experimental", 1%Z); ("Folk", 2%Z);
     ("Hip-Hop", 3%Z); ("Instrumental", 4%Z); ("International", 5%Z);
     ("Pop", 6%Z); ("Rock", 7%Z)].

(** The eight keys, in the order of the literal. *)
Definition vocabulary : list string :=
  ["Electronic"; "Experimental"; "Folk"; "Hip-Hop"; "Instrumental";
   "International"; "Pop"; "Rock"].

(** [np.unique]: the distinct values, ascending. *)
Fixpoint insert_unique (x : nat) (l : list nat) : list nat :=
  match l with
  | [] => [x]
  | y :: l' =>
      if decide (x < y) then x :: l
      else if decide (x = y) then l
      else y :: insert_unique x l'
  end.

Definition np_unique (l : list nat) : list nat := foldr insert_unique [] l.

(** The number of artifacts after which extraction is not run again. *)
Definition expected_artifacts : nat := 7994.

Section LoadDataPipeline.

Variable py_int : string -> result Z.
Variable librosa_load : string -> result (Extractor.audio * Z).
Variable melspectrogram : Extractor.audio -> Z -> nat -> nat -> result ndarray.
Variable writable : string -> bool.
Variable power_to_db : ndarray -> ndarray.

(** The guarded call of [CreateSpectrograms]. *)
Definition extraction_stage (path save_path : string) : M world unit :=
  (let* entries := iterdir save_path in
   if decide (length entries ≠ expected_artifacts) then
     Extractor.CreateSpectrograms librosa_load melspectrogram writable
       path save_path
   else ret tt)%py.

(** [LoadDataPipeline()], given the tracks table that [LoadFixCSV] has read. *)
Definition LoadDataPipeline (tracks : list Resolver.track)
    : M world (list ndarray * list Z) :=
  (print "Tracks and Genres loaded";;;
   let path := "data/audio" in
   let* (id_list, genre_list) :=
     Resolver.GetGenres py_int path genre_dict tracks in
   let save_path := "data/Spectrograms" in
   extraction_stage path save_path;;;
   print "Spectrograms created";;;
   let* (spectrograms, genres) :=
     Loader.ChargeDataset power_to_db save_path id_list genre_list in
   print "Spectrograms loaded";;;
   let shape := mjoin ((fun i => [shape0 i; shape1 i]) <$> spectrograms) in
   let shapes := np_unique shape in
   let* (spectrograms_list, genres_list) :=
     lift (Normalizer.FixSizeSpectrogram spectrograms genres shapes) in
   print "Size fixed for Spectrograms";;;
   ret (spectrograms_list, genres_list))%py.

End LoadDataPipeline.

End Pipeline.

(** ** The dataset class and the loaders: [CustomSpectrogramDataset],
    [CreateTrainTestLoaders] *)

Module Dataset.

(** [l[idx]] on a Python list: a negative index counts from the end. *)
Definition py_index {A : Type} (l : list A) (idx : Z) : result A :=
  if (idx <? 0)%Z then
    if (idx + Z.of_nat (length l) <? 0)%Z then Raises IndexError
    else getitem l (Z.to_nat (idx + Z.of_nat (length l)))
  else getitem l (Z.to_nat idx).

(** The three attributes that [__init__] stores. *)
Record CustomSpectrogramDataset (A L : Type) : Type := Build {
  x : list A;
  target : list L;
  transform : option (A -> result A)
}.
Arguments Build {A L} x target transform.
Arguments x {A L} _.
Arguments target {A L} _.
Arguments transform {A L} _.

(** [__len__] *)
Definition len {A L : Type} (self : CustomSpectrogramDataset A L) : nat :=
  length (target self).

(** [__getitem__] *)
Definition getitem_ {A L : Type} (self : CustomSpectrogramDataset A L)
    (idx : Z) : result (A * L) :=
  image ← py_index (x self) idx;
  label ← py_index (target self) idx;
  match transform self with
  | Some f => image ← f image; mret (image, label)
  | None => mret (image, label)
  end.

(** A [DataLoader]: the dataset it wraps and the keyword arguments it was
    given.  The constructor is taken to accept the keyword arguments; it
    reads nothing from the dataset. *)
Record DataLoader (A L K : Type) : Type := Loader {
  dataset : CustomSpectrogramDataset A L;
  kwargs : K
}.
Arguments Loader {A L K} dataset kwargs.
Arguments dataset {A L K} _.
Arguments kwargs {A L K} _.

Section CreateTrainTestLoaders.

Context {L K : Type}.

(** [np.mean] and [np.std] of a list of arrays. *)
Variable np_mean np_std : list ndarray -> result Q.

(** [train_test_split(spectrograms_list, genres_list, train_size=...,
    stratify=genres_list)]: the four lists [X_train, X_val, y_train, y_val],
    or the error it raises. *)
Variable train_test_split :
  list Augmenter.loc -> list L -> Q ->
  result (list Augmenter.loc * list Augmenter.loc * list L * list L).

Definition CreateTrainTestLoaders (spectrograms_list : list Augmenter.loc)
    (genres_list : list L) (train_size : Q) (train_kwargs test_kwargs : K)
    (dataaugment : bool)
    : M Augmenter.state
        (DataLoader Augmenter.loc L K * DataLoader Augmenter.loc L K * list L) :=
  (let* train_mean :=
     (fun s => (np_mean (Augmenter.deref s <$> spectrograms_list), s)) in
   let* train_std :=
     (fun s => (np_std (Augmenter.deref s <$> spectrograms_list), s)) in
   let* split := lift (train_test_split spectrograms_list genres_list
                         train_size) in
   let '(X_train, X_val, y_train, y_val) := split in
   let* (X_train, y_train) :=
     (if dataaugment then Augmenter.DataSpecAugmentation X_train y_train
      else ret (X_train, y_train)) in
   let train_ds := Build X_train y_train None in
   let test_ds := Build X_val y_val None in
   let train_dataloader := Loader train_ds train_kwargs in
   let test_dataloader := Loader test_ds test_kwargs in
   ret (train_dataloader, test_dataloader, y_val))%py.

End CreateTrainTestLoaders.

End Dataset.

(** ** Sample data for the closed examples

    The statements below hold for every decoder and every spectrogram
    routine; these instances only serve to evaluate them on a small input. *)

Module Sample.

Import Extractor.

(** A decoder that reads one stereo file and one mono file and fails on
    anything else. *)
Definition decode (file : string) : result (list (list Q) * Z) :=
  if decide (file = "audio/000002.mp3") then
    Returns ([[1; 1]; [3; 3]]%Q, 44100%Z)
  else if decide (file = "audio/000005.mp3") then
    Returns ([[1; 3; 5]]%Q, 22050%Z)
  else Raises OSError.

(** A resampler that keeps the samples. *)
Definition resample (y : list Q) (orig_sr target_sr : Z) : list Q := y.

(** [librosa.load] over this decoder: the stereo file comes back as the mean
    of its channels. *)
Definition load : string -> result (audio * Z) :=
  librosa_load_default decode resample.

(** A spectrogram routine that keeps one row per channel. *)
Definition mel (y : audio) (sr : Z) (n_fft hop_length : nat) : result ndarray :=
  match y with
  | Audio0 _ => Raises ValueError
  | Audio1 samples => Returns (NdArray 1 (length samples) [samples])
  | Audio2 channels =>
      Returns (NdArray (length channels)
                 (length (default [] (head channels))) channels)
  end.

Definition always_writable (p : string) : bool := true.

(** An audio directory with three entries and an empty destination. *)
Definition disk : world :=
  {| dirs := {[ "audio" := ["000002.mp3"; "000005.mp3"; "broken.mp3"];
                "out" := [] ]};
     tensors := ∅;
     trace := [] |}.

(** A destination directory with two artifacts, and the identifier and
    genre sequences of their tracks in another order. *)
Definition library : world :=
  {| dirs := {[ "data/Spectrograms" := ["000002.pt"; "000005.pt"] ]};
     tensors := {[ "data/Spectrograms/000002.pt" :=
                     NdArray 2 2 [[1; 1]; [3; 3]]%Q;
                   "data/Spectrograms/000005.pt" :=
                     NdArray 1 3 [[1; 3; 5]]%Q ]};
     trace := [] |}.

Definition id_list : list string := ["000005"; "000002"].
Definition genre_list : list Z := [6%Z; 7%Z].

(** A conversion that leaves the array as it is. *)
Definition to_db (spec : ndarray) : ndarray := spec.

(** An integer parser that rejects everything, and a disk on which both the
    audio directory and the destination are empty. *)
Definition no_int (s : string) : result Z := Raises ValueError.

Definition empty_disk : world :=
  {| dirs := {[ "data/audio" := []; "data/Spectrograms" := [] ]};
     tensors := ∅;
     trace := [] |}.

(** Generators whose every basic draw is one half. *)
Definition half : Augmenter.rng :=
  {| Augmenter.draws := fun _ => (1 # 2)%Q; Augmenter.pos := 0 |}.

Definition one_array : Augmenter.state :=
  {| Augmenter.heap := [NdArray 2 2 [[1; 2]; [3; 4]]%Q];
     Augmenter.py_random := half;
     Augmenter.np_random := half |}.

(** A spectrogram in the layout of the pipeline, 10 frequency bins (rows) by
    2 time frames (columns), and generators whose draws are all 0 except the
    second draw of [random], which is 9/10. *)
Definition tall : ndarray := NdArray 10 2 (replicate 10 [1; 1]%Q).

Definition tall_state : Augmenter.state :=
  {| Augmenter.heap := [tall];
     Augmenter.py_random :=
       {| Augmenter.draws := fun n => if decide (n = 1) then (9 # 10)%Q
                                      else 0%Q;
          Augmenter.pos := 0 |};
     Augmenter.np_random :=
       {| Augmenter.draws := fun _ => 0%Q; Augmenter.pos := 0 |} |}.

End Sample.

(** ** More sample data *)

Module Demo.

(** An integer parser for the two identifiers of the sample tracks. *)
Definition parse_id (s : string) : result Z :=
  if decide (s = "000002") then Returns 2%Z
  else if decide (s = "000005") then Returns 5%Z
  else if decide (s = "000009") then Returns 9%Z
  else Raises ValueError.

Definition tracks : list Resolver.track :=
  [Resolver.Track 2 (Resolver.Str "Pop");
   Resolver.Track 5 (Resolver.Str "Rock")].

(** An audio directory with two tracks and a sub-directory, and an empty
    destination. *)
Definition disk : world :=
  {| dirs := {[ "data/audio" := ["000002.mp3"; "000005.mp3"; "sub"];
                "data/audio/sub" := [];
                "data/Spectrograms" := [] ]};
     tensors := ∅;
     trace := [] |}.

(** The same with a file that has no row in the tracks table. *)
Definition disk_with_stranger : world :=
  {| dirs := {[ "data/audio" := ["000002.mp3"; "000009.mp3"] ]};
     tensors := ∅;
     trace := [] |}.

(** A decoder for the two sample tracks. *)
Definition load (file : string) : result (Extractor.audio * Z) :=
  if decide (file = "data/audio/000002.mp3") then
    Returns (Extractor.Audio1 [1; 3]%Q, 22050%Z)
  else if decide (file = "data/audio/000005.mp3") then
    Returns (Extractor.Audio1 [1; 3; 5]%Q, 22050%Z)
  else Raises OSError.

(** A split that keeps the first array for training and the second for
    validation. *)
Definition split (X : list Augmenter.loc) (y : list Z) (train_size : Q)
    : result (list Augmenter.loc * list Augmenter.loc * list Z * list Z) :=
  Returns (take 1 X, drop 1 X, take 1 y, drop 1 y).

Definition mean_zero (l : list ndarray) : result Q := Returns 0%Q.

Definition two_arrays : Augmenter.state :=
  {| Augmenter.heap := [NdArray 2 2 [[1; 2]; [3; 4]]%Q;
                        NdArray 2 2 [[5; 6]; [7; 8]]%Q];
     Augmenter.py_random := Sample.half;
     Augmenter.np_random := Sample.half |}.

End Demo.

(** * Properties *)

(** ** Shape normalisation *)

Section NormalizerFacts.

Context {L : Type}.
Implicit Types (genres : list L) (spectrograms : list ndarray).

Abbreviation normalized := Normalizer.normalized.

Lemma getitem_Some {A : Type} (l : list A) (i : nat) (x : A) :
  l !! i = Some x -> getitem l i = Returns x.
Proof. intros H. unfold getitem. by rewrite H. Qed.

Lemma getitem_None {A : Type} (l : list A) (i : nat) :
  l !! i = None -> getitem l i = Raises IndexError.
Proof. intros H. unfold getitem. by rewrite H. Qed.

Lemma fix_one_returns genres shapes s0 s1 i a g :
  shapes !! 0 = Some s0 -> shapes !! 1 = Some s1 -> genres !! i = Some g ->
  Normalizer.fix_one genres shapes i a = Returns (normalized s0 s1 a, g).
Proof.
  intros H0 H1 Hg. unfold Normalizer.fix_one, Normalizer.normalized.
  rewrite (getitem_Some _ _ _ H0), (getitem_Some _ _ _ H1). simpl.
  destruct (decide (shape a ≠ (s0, s1))); simpl;
    by rewrite (getitem_Some _ _ _ Hg).
Qed.

Lemma fix_from_returns genres shapes s0 s1 spectrograms : forall i,
  shapes !! 0 = Some s0 -> shapes !! 1 = Some s1 ->
  i + length spectrograms <= length genres ->
  Normalizer.fix_from genres shapes i spectrograms
  = Returns (normalized s0 s1 <$> spectrograms,
             take (length spectrograms) (drop i genres)).
Proof.
  induction spectrograms as [|a rest IH]; intros i H0 H1 Hlen; simpl.
  - reflexivity.
  - simpl in Hlen.
    destruct (lookup_lt_is_Some_2 genres i) as [g Hg]; [lia|].
    rewrite (fix_one_returns _ _ _ _ _ _ _ H0 H1 Hg). simpl.
    rewrite (IH (S i)) by (auto; lia). simpl.
    rewrite (drop_S _ _ _ Hg). reflexivity.
Qed.

Lemma slice_prefix_wf a n m : wf_ndarray a -> wf_ndarray (slice_prefix a n m).
Proof.
  intros [Hr Hc]. split; simpl.
  - rewrite length_fmap, length_take. lia.
  - apply Forall_fmap, Forall_take.
    eapply Forall_impl; [exact Hc|]. intros r Hlen. simpl in *.
    rewrite length_take. lia.
Qed.

Lemma slice_prefix_same_shape a :
  wf_ndarray a -> slice_prefix a (shape0 a) (shape1 a) = a.
Proof.
  destruct a as [n m rs]. intros [Hr Hc]. simpl in *.
  unfold slice_prefix. simpl. rewrite !Nat.min_id. f_equal.
  rewrite take_ge by lia.
  clear Hr. induction Hc as [|r rs' Hlen _ IH]; [done|].
  rewrite fmap_cons, IH. by rewrite take_ge by lia.
Qed.

Lemma normalized_is_slice s0 s1 a :
  wf_ndarray a -> normalized s0 s1 a = slice_prefix a s0 s1.
Proof.
  intros Hwf. unfold Normalizer.normalized.
  destruct (decide (shape a ≠ (s0, s1))) as [|Heq]; [done|].
  apply dec_stable in Heq. unfold shape in Heq.
  injection Heq as <- <-. symmetry. by apply slice_prefix_same_shape.
Qed.

(** A cell of the crop is the cell of the original at the same position. *)
Lemma cell_slice_prefix a n m r c :
  r < n -> c < m -> cell (slice_prefix a n m) r c = cell a r c.
Proof.
  intros Hr Hc. unfold cell, slice_prefix. simpl.
  rewrite list_lookup_fmap, lookup_take_lt by done.
  destruct (rows a !! r) as [row|]; simpl; [|done].
  by rewrite lookup_take_lt.
Qed.

(** C3: when every input array is a 2-D array with at least [shapes[0]] rows
    and at least [shapes[1]] columns (and there is a label for each of them),
    [FixSizeSpectrogram] returns, and every array of its output has shape
    exactly [(shapes[0], shapes[1])], rows and cells included. *)
Theorem FixSizeSpectrogram_uniform_shape spectrograms genres shapes s0 s1 :
  shapes !! 0 = Some s0 -> shapes !! 1 = Some s1 ->
  length spectrograms <= length genres ->
  Forall (fun a => wf_ndarray a ∧ s0 <= shape0 a ∧ s1 <= shape1 a)
    spectrograms ->
  exists out labels,
    Normalizer.FixSizeSpectrogram spectrograms genres shapes
    = Returns (out, labels)
    ∧ Forall (fun a => shape a = (s0, s1) ∧ wf_ndarray a) out.
Proof.
  intros H0 H1 Hlen Hall. unfold Normalizer.FixSizeSpectrogram.
  rewrite (fix_from_returns _ _ s0 s1) by (auto; simpl; lia).
  eexists _, _. split; [reflexivity|].
  apply Forall_fmap. eapply Forall_impl; [exact Hall|].
  intros a (Hwf & Hr & Hc). simpl.
  rewrite normalized_is_slice by done. split.
  - unfold shape, slice_prefix. simpl. f_equal; lia.
  - by apply slice_prefix_wf.
Qed.

(** C4: for matching lists of 2-D arrays and labels, [FixSizeSpectrogram]
    returns lists of the same lengths; the labels are the input labels; the
    i-th output array is the i-th input array cut down to its first
    [shapes[0]] rows and first [shapes[1]] columns, cell for cell, and is the
    input array itself when its shape already is the target. *)
Theorem FixSizeSpectrogram_prefix_and_order spectrograms genres shapes s0 s1 :
  shapes !! 0 = Some s0 -> shapes !! 1 = Some s1 ->
  length genres = length spectrograms ->
  Forall wf_ndarray spectrograms ->
  exists out labels,
    Normalizer.FixSizeSpectrogram spectrograms genres shapes
    = Returns (out, labels)
    ∧ length out = length spectrograms
    ∧ labels = genres
    ∧ (forall i a, spectrograms !! i = Some a ->
         out !! i = Some (slice_prefix a s0 s1)
         ∧ (shape a = (s0, s1) -> out !! i = Some a)
         ∧ (forall r c, r < s0 -> c < s1 ->
              cell (slice_prefix a s0 s1) r c = cell a r c)).
Proof.
  intros H0 H1 Hlen Hall. unfold Normalizer.FixSizeSpectrogram.
  rewrite (fix_from_returns _ _ s0 s1) by (auto; simpl; lia).
  eexists _, _. split; [reflexivity|]. split; [by rewrite length_fmap|].
  split; [rewrite drop_0, take_ge; [done | lia] |].
  intros i a Hi.
  assert (Hwf : wf_ndarray a).
  { rewrite Forall_forall in Hall. apply Hall.
    apply list_elem_of_lookup. eauto. }
  rewrite list_lookup_fmap, Hi. simpl. split; [|split].
  - by rewrite normalized_is_slice.
  - intros Hs. unfold Normalizer.normalized. by rewrite decide_False by auto.
  - intros r c. apply cell_slice_prefix.
Qed.

End NormalizerFacts.

Lemma FixSizeSpectrogram_uniform_shape_witness :
  exists out labels,
    Normalizer.FixSizeSpectrogram
      [NdArray 2 3 [[1; 2; 3]; [4; 5; 6]]%Q; NdArray 2 2 [[7; 8]; [9; 10]]%Q]
      [6%Z; 7%Z] [2; 2]
    = Returns (out, labels)
    ∧ Forall (fun a => shape a = (2, 2) ∧ wf_ndarray a) out.
Proof.
  apply (FixSizeSpectrogram_uniform_shape _ _ [2; 2] 2 2);
    [reflexivity | reflexivity | simpl; lia |].
  repeat constructor; simpl; lia.
Defined.

Lemma FixSizeSpectrogram_prefix_and_order_witness :
  exists out labels,
    Normalizer.FixSizeSpectrogram
      [NdArray 2 3 [[1; 2; 3]; [4; 5; 6]]%Q; NdArray 1 2 [[7; 8]]%Q]
      [6%Z; 7%Z] [1; 2]
    = Returns (out, labels)
    ∧ length out = 2
    ∧ labels = [6%Z; 7%Z]
    ∧ (forall i a,
         [NdArray 2 3 [[1; 2; 3]; [4; 5; 6]]%Q; NdArray 1 2 [[7; 8]]%Q] !! i
         = Some a ->
         out !! i = Some (slice_prefix a 1 2)
         ∧ (shape a = (1, 2) -> out !! i = Some a)
         ∧ (forall r c, r < 1 -> c < 2 ->
              cell (slice_prefix a 1 2) r c = cell a r c)).
Proof.
  exact (FixSizeSpectrogram_prefix_and_order
           [NdArray 2 3 [[1; 2; 3]; [4; 5; 6]]%Q; NdArray 1 2 [[7; 8]]%Q]
           [6%Z; 7%Z] [1; 2] 1 2 eq_refl eq_refl eq_refl
           ltac:(repeat constructor)).
Defined.

(** ** Genre encoding *)

Section ResolverFacts.

Variable py_int : string -> result Z.

Lemma genre_dict_pairs s v :
  Pipeline.genre_dict !! s = Some v <->
  (s, v) ∈ [("Electronic", 0%Z); ("Experimental", 1%Z); ("Folk", 2%Z);
            ("Hip-Hop", 3%Z); ("Instrumental", 4%Z); ("International", 5%Z);
            ("Pop", 6%Z); ("Rock", 7%Z)].
Proof.
  unfold Pipeline.genre_dict. symmetry. apply elem_of_list_to_map.
  apply (bool_decide_unpack _). by vm_compute.
Qed.

Ltac dict_cases H :=
  apply genre_dict_pairs in H;
  repeat (apply elem_of_cons in H as [H|H]);
  [.. | by apply elem_of_nil in H]; simplify_eq.

Lemma genre_dict_key_in_vocabulary s v :
  Pipeline.genre_dict !! s = Some v -> s ∈ Pipeline.vocabulary.
Proof.
  intros H. unfold Pipeline.vocabulary.
  dict_cases H; repeat first [apply list_elem_of_here | apply list_elem_of_further].
Qed.

Lemma dict_getitem_unknown s :
  s ∉ Pipeline.vocabulary ->
  Resolver.dict_getitem Pipeline.genre_dict (Resolver.Str s) = Raises KeyError.
Proof.
  intros Hs. unfold Resolver.dict_getitem.
  destruct (Pipeline.genre_dict !! s) as [v|] eqn:Hv; [|done].
  exfalso. apply Hs. by apply genre_dict_key_in_vocabulary in Hv.
Qed.

Lemma resolve_all_raises dict_genre tracks w entries direc e :
  direc ∈ entries ->
  Resolver.resolve_one py_int dict_genre tracks direc w = Raises e ->
  exists e', Resolver.resolve_all py_int dict_genre tracks entries w = Raises e'.
Proof.
  induction entries as [|d rest IH]; intros Hin Hraise.
  - by apply elem_of_nil in Hin.
  - simpl. apply elem_of_cons in Hin as [->|Hin].
    + rewrite Hraise. simpl. eauto.
    + destruct (Resolver.resolve_one py_int dict_genre tracks d w)
        as [[ids gs]|e0]; simpl; [|eauto].
      destruct (IH Hin Hraise) as [e' ->]. simpl. eauto.
Qed.

(** C6: the dictionary sends the eight genre names, in the order Electronic,
    Experimental, Folk, Hip-Hop, Instrumental, International, Pop, Rock, to
    0..7; no two names share a code; looking up any other string raises
    [KeyError]; and [GetGenres] raises as soon as the directory holds a file
    whose track has such a genre. *)
Theorem genre_encoding_total_and_strict :
  (forall i s, Pipeline.vocabulary !! i = Some s ->
     Pipeline.genre_dict !! s = Some (Z.of_nat i))
  ∧ length Pipeline.vocabulary = 8
  ∧ (forall s1 s2 v, Pipeline.genre_dict !! s1 = Some v ->
       Pipeline.genre_dict !! s2 = Some v -> s1 = s2)
  ∧ (forall s, s ∉ Pipeline.vocabulary ->
       Resolver.dict_getitem Pipeline.genre_dict (Resolver.Str s)
       = Raises KeyError)
  ∧ (forall tracks path names name w k s,
       dirs w !! path = Some names -> name ∈ names ->
       is_file (join_path path name) w = true ->
       py_int (str_slice (join_path path name) (-10) (-4)) = Returns k ->
       Resolver.genre_top_of tracks k = Returns (Resolver.Str s) ->
       s ∉ Pipeline.vocabulary ->
       exists e,
         Resolver.GetGenres py_int path Pipeline.genre_dict tracks w
         = (Raises e, w)).
Proof.
  split; [|split; [|split; [|split]]].
  - intros i s Hi.
    do 8 (destruct i as [|i]; [injection Hi as <-; by vm_compute|]).
    discriminate.
  - reflexivity.
  - intros s1 s2 v H1 H2.
    dict_cases H1; dict_cases H2; reflexivity.
  - apply dict_getitem_unknown.
  - intros tracks path names name w k s Hdir Hin Hfile Hint Htop Hs.
    unfold Resolver.GetGenres, bind, iterdir. rewrite Hdir.
    destruct (resolve_all_raises Pipeline.genre_dict tracks w
                (join_path path <$> names) (join_path path name) KeyError)
      as [e He].
    + apply list_elem_of_fmap. eauto.
    + unfold Resolver.resolve_one. rewrite Hfile, Hint. simpl.
      rewrite Htop. simpl.
      change (Resolver.dict_getitem Pipeline.genre_dict (Resolver.Str s)
              ≫= (fun g => mret ([str_slice (join_path path name) (-10) (-4)],
                               [g])) = Raises KeyError).
      by rewrite dict_getitem_unknown.
    + exists e. by rewrite He.
Qed.

End ResolverFacts.

(** ** Spectrogram extraction *)

Section ExtractorFacts.

Variable librosa_load : string -> result (Extractor.audio * Z).
Variable melspectrogram : Extractor.audio -> Z -> nat -> nat -> result ndarray.
Variable writable : string -> bool.

Abbreviation compute_spec :=
  (Extractor.compute_spec librosa_load melspectrogram).
Abbreviation try_block :=
  (Extractor.try_block librosa_load melspectrogram writable).
Abbreviation extract_all :=
  (Extractor.extract_all librosa_load melspectrogram writable).
Abbreviation CreateSpectrograms :=
  (Extractor.CreateSpectrograms librosa_load melspectrogram writable).
Abbreviation target := Extractor.target.
Abbreviation savable := (Extractor.savable writable).
Abbreviation saved := Extractor.saved.
Abbreviation step := (Extractor.step librosa_load melspectrogram writable).
Abbreviation succeeds :=
  (Extractor.succeeds librosa_load melspectrogram writable).

Lemma torch_save_savable w p spec :
  savable w p = true ->
  torch_save writable spec p w = (Returns tt, saved w p spec).
Proof.
  unfold Extractor.savable, torch_save, Extractor.saved. destruct (split_path p) as [d n]. simpl.
  intros H. apply andb_prop in H as [H Hw]. apply andb_prop in H as [Hd Hf].
  apply bool_decide_eq_true_1 in Hd as [names Hd].
  rewrite Hd, Hf, Hw. reflexivity.
Qed.

Lemma torch_save_not_savable w p spec :
  savable w p = false ->
  exists e, torch_save writable spec p w = (Raises e, w).
Proof.
  unfold Extractor.savable, torch_save. destruct (split_path p) as [d n]. simpl.
  intros H. destruct (dirs w !! d) as [names|] eqn:Hd; [|eauto].
  rewrite bool_decide_eq_true_2 in H by eauto. simpl in H.
  rewrite H. eauto.
Qed.

Lemma saved_dirs_lookup w p spec q :
  savable w p = true ->
  is_Some (dirs (saved w p spec) !! q) <-> is_Some (dirs w !! q).
Proof.
  unfold Extractor.savable, Extractor.saved. destruct (split_path p) as [d n]. simpl.
  intros H. apply andb_prop in H as [H _]. apply andb_prop in H as [Hd _].
  apply bool_decide_eq_true_1 in Hd.
  destruct (decide (d = q)) as [->|Hne].
  - rewrite lookup_insert_eq. split; eauto.
  - by rewrite lookup_insert_ne.
Qed.

Lemma saved_savable w p spec q :
  savable w p = true -> savable (saved w p spec) q = savable w q.
Proof.
  intros H. pose proof (saved_dirs_lookup w p spec q H) as Hq.
  pose proof (saved_dirs_lookup w p spec (split_path q).1 H) as Hd.
  unfold Extractor.savable, is_file.
  rewrite (bool_decide_ext _ _ Hd). f_equal. f_equal.
  apply bool_decide_ext. rewrite !eq_None_not_Some. tauto.
Qed.

Lemma try_block_step save_path file w :
  exists r, try_block save_path file w = (r, step save_path w file).
Proof.
  unfold Extractor.try_block, Extractor.step, bind, lift.
  fold (Extractor.target save_path file).
  destruct (compute_spec file) as [spec|e]; [|eauto].
  destruct (savable w (target save_path file)) eqn:Hs.
  - rewrite torch_save_savable by done. eauto.
  - destruct (torch_save_not_savable w _ spec Hs) as [e ->]. eauto.
Qed.

Lemma extract_all_foldl save_path files : forall w,
  extract_all save_path files w = (Returns tt, foldl (step save_path) w files).
Proof.
  induction files as [|file rest IH]; intros w; simpl; [done|].
  destruct (try_block_step save_path file w) as [r ->].
  destruct r; apply IH.
Qed.

Lemma step_savable save_path w file q :
  savable (step save_path w file) q = savable w q.
Proof.
  unfold Extractor.step. destruct (compute_spec file); [|done].
  destruct (savable w (target save_path file)) eqn:Hs; [|done].
  by apply saved_savable.
Qed.

Lemma foldl_step_savable save_path files : forall w q,
  savable (foldl (step save_path) w files) q = savable w q.
Proof.
  induction files as [|file rest IH]; intros w q; simpl; [done|].
  by rewrite IH, step_savable.
Qed.

Lemma saved_tensors w p spec :
  tensors (saved w p spec) = <[p := spec]> (tensors w).
Proof. unfold Extractor.saved. by destruct (split_path p). Qed.

Lemma saved_trace w p spec : trace (saved w p spec) = trace w.
Proof. unfold Extractor.saved. by destruct (split_path p). Qed.

Lemma step_tensors_succeeds save_path w file spec :
  succeeds save_path w file spec ->
  tensors (step save_path w file) = <[target save_path file := spec]> (tensors w).
Proof.
  intros [Hc Hs]. unfold Extractor.step. rewrite Hc, Hs. apply saved_tensors.
Qed.

Lemma step_fails save_path w file :
  (forall spec, ¬ succeeds save_path w file spec) -> step save_path w file = w.
Proof.
  intros Hf. unfold Extractor.step.
  destruct (compute_spec file) as [spec|] eqn:Hc; [|done].
  destruct (savable w (target save_path file)) eqn:Hs; [|done].
  destruct (Hf spec). by split.
Qed.

Lemma step_keeps_artifacts save_path w file p :
  is_Some (tensors w !! p) -> is_Some (tensors (step save_path w file) !! p).
Proof.
  intros Hp. unfold Extractor.step. destruct (compute_spec file) as [spec|]; [|done].
  destruct (savable w (target save_path file)); [|done].
  rewrite saved_tensors.
  destruct (decide (target save_path file = p)) as [->|Hne].
  - rewrite lookup_insert_eq. eauto.
  - by rewrite lookup_insert_ne.
Qed.

Lemma foldl_step_keeps_artifacts save_path files : forall w p,
  is_Some (tensors w !! p) ->
  is_Some (tensors (foldl (step save_path) w files) !! p).
Proof.
  induction files as [|file rest IH]; intros w p Hp; simpl; [done|].
  by apply IH, step_keeps_artifacts.
Qed.

Lemma foldl_step_writes save_path files : forall w file spec,
  file ∈ files -> succeeds save_path w file spec ->
  is_Some (tensors (foldl (step save_path) w files) !! target save_path file).
Proof.
  induction files as [|f rest IH]; intros w file spec Hin Hs.
  - by apply elem_of_nil in Hin.
  - simpl. apply elem_of_cons in Hin as [<-|Hin].
    + apply foldl_step_keeps_artifacts.
      rewrite (step_tensors_succeeds _ _ _ _ Hs), lookup_insert_eq. eauto.
    + apply (IH _ _ spec Hin). destruct Hs as [Hc Hs]. split; [done|].
      by rewrite step_savable.
Qed.

Lemma foldl_step_only_successes save_path files : forall w p spec,
  tensors (foldl (step save_path) w files) !! p = Some spec ->
  tensors w !! p = Some spec
  ∨ exists file, file ∈ files ∧ p = target save_path file
                 ∧ succeeds save_path w file spec.
Proof.
  induction files as [|f rest IH]; intros w p spec Hp; simpl in Hp; [by left|].
  destruct (IH _ _ _ Hp) as [Hw|(file & Hin & -> & Hc & Hs)].
  - unfold Extractor.step in Hw.
    destruct (compute_spec f) as [sf|] eqn:Hcf; [|by left].
    destruct (savable w (target save_path f)) eqn:Hsf; [|by left].
    rewrite saved_tensors in Hw.
    destruct (decide (target save_path f = p)) as [<-|Hne].
    + rewrite lookup_insert_eq in Hw. injection Hw as ->.
      right. exists f. split; [apply list_elem_of_here|]. by repeat split.
    + rewrite lookup_insert_ne in Hw by done. by left.
  - right. exists file. split; [by apply list_elem_of_further|].
    split; [done|]. split; [done|]. by rewrite step_savable in Hs.
Qed.

Lemma foldl_step_trace save_path files : forall w,
  trace (foldl (step save_path) w files) = trace w.
Proof.
  induction files as [|f rest IH]; intros w; simpl; [done|].
  rewrite IH. unfold Extractor.step. destruct (compute_spec f); [|done].
  destruct (savable w (target save_path f)); [|done]. apply saved_trace.
Qed.

(** Files whose path is no target keep their contents. *)
Lemma foldl_step_other save_path files : forall w p,
  (forall file spec, file ∈ files -> succeeds save_path w file spec ->
     target save_path file ≠ p) ->
  tensors (foldl (step save_path) w files) !! p = tensors w !! p.
Proof.
  induction files as [|f rest IH]; intros w p Hno; simpl; [done|].
  rewrite IH.
  - unfold Extractor.step.
    destruct (compute_spec f) as [spec|] eqn:Hc; [|done].
    destruct (savable w (target save_path f)) eqn:Hs; [|done].
    rewrite saved_tensors, lookup_insert_ne; [done|].
    apply (Hno f spec); [apply list_elem_of_here | by split].
  - intros file spec Hin [Hc Hs]. apply (Hno file spec).
    + by apply list_elem_of_further.
    + split; [done|]. by rewrite step_savable in Hs.
Qed.

(** The averaging after the transform goes through for every waveform with
    an axis, so the statements up to the save return exactly when the
    decoder hands back such a waveform and the transform returns. *)
Lemma compute_spec_returns_iff file spec :
  compute_spec file = Returns spec
  <-> exists waveform sample_rate,
        librosa_load file = Returns (waveform, sample_rate)
        ∧ 0 < Extractor.ndim waveform
        ∧ melspectrogram waveform sample_rate 2048 512 = Returns spec.
Proof.
  unfold Extractor.compute_spec. split.
  - destruct (librosa_load file) as [[waveform sample_rate]|e] eqn:Hload;
      [|done].
    simpl.
    destruct (melspectrogram waveform sample_rate 2048 512) as [sp|e] eqn:Hmel;
      [|done].
    simpl. intros H. exists waveform, sample_rate.
    destruct waveform as [v|samples|channels]; simpl in H; [done| |].
    + split; [done|]. split; [simpl; lia|].
      destruct (decide (1 < length samples)) as [Hn|Hn].
      * destruct samples as [|a [|b l]]; simpl in Hn; [lia | lia |].
        change (Returns sp = Returns spec) in H. congruence.
      * change (Returns sp = Returns spec) in H. congruence.
    + split; [done|]. split; [simpl; lia|].
      destruct (decide (1 < length channels)) as [Hn|Hn].
      * destruct channels as [|a [|b l]]; simpl in Hn; [lia | lia |].
        change (Returns sp = Returns spec) in H. congruence.
      * change (Returns sp = Returns spec) in H. congruence.
  - intros (waveform & sample_rate & -> & Hdim & Hmel). simpl.
    rewrite Hmel. simpl.
    destruct waveform as [v|samples|channels]; simpl in *; [lia| |].
    + destruct (decide (1 < length samples)) as [Hn|Hn]; [|done].
      destruct samples as [|a [|b l]]; simpl in Hn; [lia | lia | done].
    + destruct (decide (1 < length channels)) as [Hn|Hn]; [|done].
      destruct channels as [|a [|b l]]; simpl in Hn; [lia | lia | done].
Qed.

End ExtractorFacts.

Section ExtractorTheorems.

Variable librosa_load : string -> result (Extractor.audio * Z).
Variable melspectrogram : Extractor.audio -> Z -> nat -> nat -> result ndarray.
Variable writable : string -> bool.

(** The array handed to [torch.save] is the spectrogram of the waveform as
    [librosa.load] returned it: the averaging of the first two channels runs
    after the spectrogram has been computed and nothing reads its result. *)
Lemma compute_spec_of_loaded_waveform file waveform sample_rate n :
  librosa_load file = Returns (waveform, sample_rate) ->
  Extractor.audio_shape0 waveform = Returns n ->
  Extractor.compute_spec librosa_load melspectrogram file
  = melspectrogram waveform sample_rate 2048 512.
Proof.
  intros Hload Hshape. unfold Extractor.compute_spec. rewrite Hload. simpl.
  destruct (melspectrogram waveform sample_rate 2048 512) as [spec|e];
    [|done].
  simpl. rewrite Hshape. simpl.
  destruct (decide (1 < n)) as [Hn|Hn]; [|done].
  destruct waveform as [v|samples|channels]; simpl in Hshape;
    [done | |]; injection Hshape as <-.
  - destruct samples as [|a [|b l]]; simpl in Hn; [lia | lia | done].
  - destruct channels as [|a [|b l]]; simpl in Hn; [lia | lia | done].
Qed.

(** C7: whatever fails inside the [try] block for a file, [CreateSpectrograms]
    returns normally on every existing directory; afterwards every file that
    [librosa.load] decodes (to a waveform with an axis), that
    [melspectrogram] transforms and whose artifact [torch.save] can write has
    an artifact under its identifier, and every artifact present afterwards
    was either there before or is the spectrogram of such a file: a failing
    file leaves nothing behind and does not stop the files after it. *)
Theorem CreateSpectrograms_best_effort load_path save_path names w :
  dirs w !! load_path = Some names ->
  exists w',
    Extractor.CreateSpectrograms librosa_load melspectrogram writable
      load_path save_path w = (Returns tt, w')
    ∧ (forall name waveform sample_rate spec, name ∈ names ->
         librosa_load (join_path load_path name)
         = Returns (waveform, sample_rate) ->
         0 < Extractor.ndim waveform ->
         melspectrogram waveform sample_rate 2048 512 = Returns spec ->
         Extractor.savable writable w
           (Extractor.target save_path (join_path load_path name)) = true ->
         is_Some (tensors w'
                    !! Extractor.target save_path (join_path load_path name)))
    ∧ (forall p spec, tensors w' !! p = Some spec ->
         tensors w !! p = Some spec
         ∨ exists name waveform sample_rate, name ∈ names
             ∧ p = Extractor.target save_path (join_path load_path name)
             ∧ librosa_load (join_path load_path name)
               = Returns (waveform, sample_rate)
             ∧ melspectrogram waveform sample_rate 2048 512 = Returns spec
             ∧ Extractor.savable writable w p = true).
Proof.
  intros Hdir.
  set (w1 := {| dirs := dirs w; tensors := tensors w;
                trace := trace w ++ [Entered_CreateSpectrograms load_path
                                       save_path] |}).
  exists (foldl (Extractor.step librosa_load melspectrogram writable save_path)
            w1 (join_path load_path <$> names)).
  split; [|split].
  - unfold Extractor.CreateSpectrograms, bind, emit, iterdir. simpl.
    rewrite Hdir. apply extract_all_foldl.
  - intros name waveform sample_rate spec Hin Hload Hdim Hmel Hsave.
    apply (foldl_step_writes _ _ _ _ _ _ _ spec).
    + apply list_elem_of_fmap. eauto.
    + split; [|exact Hsave].
      apply compute_spec_returns_iff. eauto.
  - intros p spec Hp.
    apply foldl_step_only_successes in Hp
      as [Hold|(file & Hin & -> & Hc & Hs)]; [by left|].
    right. apply list_elem_of_fmap in Hin as (name & -> & Hin).
    apply compute_spec_returns_iff in Hc
      as (waveform & sample_rate & Hload & _ & Hmel).
    exists name, waveform, sample_rate. by repeat split.
Qed.

End ExtractorTheorems.

Lemma CreateSpectrograms_best_effort_witness :
  exists w',
    Extractor.CreateSpectrograms Sample.load Sample.mel Sample.always_writable
      "audio" "out" Sample.disk = (Returns tt, w')
    ∧ is_Some (tensors w' !! "out/000002.pt")
    ∧ is_Some (tensors w' !! "out/000005.pt")
    ∧ tensors w' !! "out/broken.pt" = None.
Proof.
  destruct (CreateSpectrograms_best_effort Sample.load Sample.mel
              Sample.always_writable "audio" "out"
              ["000002.mp3"; "000005.mp3"; "broken.mp3"] Sample.disk eq_refl)
    as (w' & Hrun & Hsome & Honly).
  exists w'. split; [exact Hrun|]. split; [|split].
  - refine (Hsome "000002.mp3" (Extractor.Audio1 [4 # 2; 4 # 2]%Q) 22050%Z
              (NdArray 1 2 [[4 # 2; 4 # 2]]%Q) _ _ _ _ _).
    + apply list_elem_of_here.
    + reflexivity.
    + simpl. lia.
    + reflexivity.
    + reflexivity.
  - refine (Hsome "000005.mp3" (Extractor.Audio1 [1; 3; 5]%Q) 22050%Z
              (NdArray 1 3 [[1; 3; 5]]%Q) _ _ _ _ _).
    + apply list_elem_of_further, list_elem_of_here.
    + reflexivity.
    + simpl. lia.
    + reflexivity.
    + reflexivity.
  - destruct (tensors w' !! "out/broken.pt") as [t|] eqn:Ht; [|reflexivity].
    exfalso.
    destruct (Honly _ _ Ht)
      as [Hold|(name & waveform & sample_rate & Hin & Hp & Hload & _)].
    + vm_compute in Hold. discriminate.
    + repeat (apply elem_of_cons in Hin as [->|Hin]);
        [| | |by apply elem_of_nil in Hin].
      * vm_compute in Hp. discriminate.
      * vm_compute in Hp. discriminate.
      * vm_compute in Hload. discriminate.
Defined.

(** The sample run: two of the three entries succeed and leave an artifact;
    the entry that cannot be decoded leaves none. *)
Example CreateSpectrograms_sample_run :
  let w' := (Extractor.CreateSpectrograms Sample.load Sample.mel
               Sample.always_writable "audio" "out" Sample.disk).2 in
  tensors w' !! "out/000002.pt" = Some (NdArray 1 2 [[4 # 2; 4 # 2]]%Q)
  ∧ tensors w' !! "out/000005.pt" = Some (NdArray 1 3 [[1; 3; 5]]%Q)
  ∧ size (tensors w') = 2.
Proof. by vm_compute. Qed.

Section DefaultLoad.

Variable decode : string -> result (list (list Q) * Z).
Variable resample : list Q -> Z -> Z -> list Q.
Variable melspectrogram : Extractor.audio -> Z -> nat -> nat -> result ndarray.
Variable writable : string -> bool.

Lemma fmap_zip_with_div (k : Q) left right :
  (fun x => (x / k)%Q) <$> zip_with Qplus left right
  = zip_with (fun a b => ((a + b) / k)%Q) left right.
Proof.
  revert right. induction left as [|a left IH]; intros [|b right]; try done.
  cbn [zip_with fmap list_fmap]. f_equal. apply IH.
Qed.

(** The mean of two channels. *)
Lemma to_mono_two left right :
  Extractor.to_mono [left; right]
  = zip_with (fun a b => ((a + b) / 2)%Q) left right.
Proof. exact (fmap_zip_with_div 2 left right). Qed.

(** With the default loader the array handed to [torch.save] is the
    spectrogram of the mono mix, resampled. *)
Lemma compute_spec_default file channels sr_native :
  decode file = Returns (channels, sr_native) ->
  Extractor.compute_spec (Extractor.librosa_load_default decode resample)
    melspectrogram file
  = melspectrogram
      (Extractor.Audio1
         (resample (Extractor.to_mono channels) sr_native 22050))
      22050%Z 2048 512.
Proof.
  intros Hdec.
  apply (compute_spec_of_loaded_waveform _ _ _ _ _
           (length (resample (Extractor.to_mono channels) sr_native 22050))).
  - unfold Extractor.librosa_load_default. by rewrite Hdec.
  - reflexivity.
Qed.

(** C1: for a file that holds two channels, the artifact that
    [CreateSpectrograms] leaves under the file's identifier is the Mel
    spectrogram, with window 2048 and hop length 512, of the average of the
    two channels (resampled to 22050 Hz): [librosa.load], called with its
    default [mono=True], has mixed the channels before the spectrogram is
    computed. The file is decoded, transformed and saved without error, and
    no later file of the directory has the same identifier. *)
Theorem CreateSpectrograms_saves_mono_spectrogram
    load_path save_path pre name post left right sr_native spec w :
  dirs w !! load_path = Some (pre ++ name :: post) ->
  decode (join_path load_path name) = Returns ([left; right], sr_native) ->
  melspectrogram
    (Extractor.Audio1
       (resample (zip_with (fun a b => ((a + b) / 2)%Q) left right)
          sr_native 22050))
    22050%Z 2048 512 = Returns spec ->
  Extractor.savable writable w
    (Extractor.target save_path (join_path load_path name)) = true ->
  (forall name', name' ∈ post ->
     Extractor.target save_path (join_path load_path name')
     ≠ Extractor.target save_path (join_path load_path name)) ->
  tensors (Extractor.CreateSpectrograms
             (Extractor.librosa_load_default decode resample) melspectrogram
             writable load_path save_path w).2
    !! Extractor.target save_path (join_path load_path name)
  = Some spec.
Proof.
  intros Hdir Hdec Hmel Hsave Hpost.
  unfold Extractor.CreateSpectrograms, bind, emit, iterdir. simpl.
  rewrite Hdir, extract_all_foldl. simpl.
  rewrite fmap_app, fmap_cons, foldl_app. simpl.
  set (w0 := {| dirs := dirs w; tensors := tensors w; trace := _ |}).
  set (w1 := foldl (Extractor.step _ melspectrogram writable save_path) w0
               (join_path load_path <$> pre)).
  assert (Hc : Extractor.compute_spec
                 (Extractor.librosa_load_default decode resample)
                 melspectrogram (join_path load_path name) = Returns spec).
  { rewrite (compute_spec_default _ _ _ Hdec), to_mono_two. exact Hmel. }
  assert (Hs1 : Extractor.savable writable w1
                  (Extractor.target save_path (join_path load_path name))
                = true).
  { subst w1. rewrite foldl_step_savable. exact Hsave. }
  rewrite foldl_step_other.
  - unfold Extractor.step at 1. rewrite Hc, Hs1.
    by rewrite saved_tensors, lookup_insert_eq.
  - intros file spec' Hin _.
    apply list_elem_of_fmap in Hin as (name' & -> & Hname').
    by apply Hpost.
Qed.

End DefaultLoad.

Lemma CreateSpectrograms_saves_mono_spectrogram_witness :
  tensors (Extractor.CreateSpectrograms Sample.load Sample.mel
             Sample.always_writable "audio" "out" Sample.disk).2
    !! "out/000002.pt"
  = Some (NdArray 1 2 [[4 # 2; 4 # 2]]%Q).
Proof.
  refine (CreateSpectrograms_saves_mono_spectrogram Sample.decode
            Sample.resample Sample.mel Sample.always_writable "audio" "out"
            [] "000002.mp3" ["000005.mp3"; "broken.mp3"]
            [1; 1]%Q [3; 3]%Q 44100%Z (NdArray 1 2 [[4 # 2; 4 # 2]]%Q)
            Sample.disk eq_refl eq_refl eq_refl eq_refl _).
  intros name' Hin.
  repeat (apply elem_of_cons in Hin as [->|Hin]);
    [| |by apply elem_of_nil in Hin]; by vm_compute.
Defined.

(** ** The extraction guard of the pipeline *)

Section PipelineFacts.

Variable py_int : string -> result Z.
Variable librosa_load : string -> result (Extractor.audio * Z).
Variable melspectrogram : Extractor.audio -> Z -> nat -> nat -> result ndarray.
Variable writable : string -> bool.
Variable power_to_db : ndarray -> ndarray.

Lemma calls_app t1 t2 : calls (t1 ++ t2) = calls t1 ++ calls t2.
Proof. unfold calls. apply omap_app. Qed.

Lemma print_spec line w :
  print line w
  = (Returns tt, {| dirs := dirs w; tensors := tensors w;
                    trace := trace w ++ [Printed line] |}).
Proof. reflexivity. Qed.

Lemma same_files_and_calls_refl w : same_files_and_calls w w.
Proof. by repeat split. Qed.

Lemma same_files_and_calls_trans w1 w2 w3 :
  same_files_and_calls w1 w2 -> same_files_and_calls w2 w3 ->
  same_files_and_calls w1 w3.
Proof.
  intros (Hd & Ht & Hc) (Hd' & Ht' & Hc'). repeat split; congruence.
Qed.

Lemma print_same line w : same_files_and_calls w (print line w).2.
Proof.
  repeat split. simpl. rewrite calls_app. simpl. apply app_nil_r.
Qed.

Lemma GetGenres_world path dict_genre tracks w :
  (Resolver.GetGenres py_int path dict_genre tracks w).2 = w.
Proof.
  unfold Resolver.GetGenres, bind, iterdir. by destruct (dirs w !! path).
Qed.

(** [GetGenres] reads the directories only. *)
Lemma GetGenres_dirs path dict_genre tracks w w' :
  dirs w' = dirs w ->
  (Resolver.GetGenres py_int path dict_genre tracks w').1
  = (Resolver.GetGenres py_int path dict_genre tracks w).1.
Proof.
  intros Hd. unfold Resolver.GetGenres, bind, iterdir. rewrite Hd.
  destruct (dirs w !! path) as [names|]; [|done]. simpl.
  induction (join_path path <$> names) as [|d rest IH]; [done|]. simpl.
  rewrite IH. unfold Resolver.resolve_one, is_file. by rewrite Hd.
Qed.

Lemma charge_all_world id_list genre_list entries : forall w,
  (Loader.charge_all power_to_db id_list genre_list entries w).2 = w.
Proof.
  induction entries as [|spec rest IH]; intros w; [done|].
  simpl. unfold bind, lift.
  destruct (Loader.genre_of id_list genre_list _); [|done].
  unfold torch_load. destruct (tensors w !! spec); [|done].
  specialize (IH w).
  destruct (Loader.charge_all power_to_db id_list genre_list rest w)
    as [[[images labels]|e] w']; simpl in *; by subst.
Qed.

Lemma ChargeDataset_world path id_list genre_list w :
  (Loader.ChargeDataset power_to_db path id_list genre_list w).2 = w.
Proof.
  unfold Loader.ChargeDataset, bind, iterdir.
  destruct (dirs w !! path); [|done]. apply charge_all_world.
Qed.

Lemma CreateSpectrograms_trace load_path save_path w :
  trace (Extractor.CreateSpectrograms librosa_load melspectrogram writable
           load_path save_path w).2
  = trace w ++ [Entered_CreateSpectrograms load_path save_path].
Proof.
  unfold Extractor.CreateSpectrograms, bind, emit, iterdir. simpl.
  destruct (dirs w !! load_path) as [names|]; [|done].
  rewrite extract_all_foldl. simpl. by rewrite foldl_step_trace.
Qed.

(** The guard itself: with 7994 entries in the destination the stage does
    nothing; with any other number it is the call of [CreateSpectrograms]. *)
Lemma extraction_stage_guard path save_path names w :
  dirs w !! save_path = Some names ->
  Pipeline.extraction_stage librosa_load melspectrogram writable
    path save_path w
  = if decide (length names = Pipeline.expected_artifacts) then (Returns tt, w)
    else Extractor.CreateSpectrograms librosa_load melspectrogram writable
           path save_path w.
Proof.
  intros Hd. unfold Pipeline.extraction_stage, bind, iterdir. rewrite Hd.
  rewrite length_fmap.
  destruct (decide (length names = Pipeline.expected_artifacts)) as [->|Hne].
  - by rewrite decide_False by auto.
  - by rewrite decide_True.
Qed.

End PipelineFacts.

Section PipelineTheorems.

Variable py_int : string -> result Z.
Variable librosa_load : string -> result (Extractor.audio * Z).
Variable melspectrogram : Extractor.audio -> Z -> nat -> nat -> result ndarray.
Variable writable : string -> bool.
Variable power_to_db : ndarray -> ndarray.

Lemma quiet_ret {A : Type} (a : A) : quiet (ret a).
Proof. intros w. apply same_files_and_calls_refl. Qed.

Lemma quiet_lift {A : Type} (r : result A) : quiet (lift r).
Proof. intros w. apply same_files_and_calls_refl. Qed.

Lemma quiet_print line : quiet (print line).
Proof. intros w. apply print_same. Qed.

Lemma quiet_bind {A B : Type} (m : M world A) (k : A -> M world B) :
  quiet m -> (forall a, quiet (k a)) -> quiet (bind m k).
Proof.
  intros Hm Hk w. unfold bind. specialize (Hm w).
  destruct (m w) as [[a|e] w1]; simpl in *; [|done].
  eapply same_files_and_calls_trans; [exact Hm | apply Hk].
Qed.

Lemma quiet_ChargeDataset path id_list genre_list :
  quiet (Loader.ChargeDataset power_to_db path id_list genre_list).
Proof.
  intros w. rewrite ChargeDataset_world. apply same_files_and_calls_refl.
Qed.

Lemma quiet_GetGenres path dict_genre tracks :
  quiet (Resolver.GetGenres py_int path dict_genre tracks).
Proof.
  intros w. rewrite GetGenres_world. apply same_files_and_calls_refl.
Qed.

(** C9: in a run of [LoadDataPipeline] that reaches the guard (the genres
    have been resolved and the destination directory exists), extraction is
    skipped, leaving the files untouched and entering [CreateSpectrograms]
    not at all, exactly when the destination holds 7994 entries; with any
    other number of entries [CreateSpectrograms] is entered once, on the
    audio directory and the destination. *)
Theorem LoadDataPipeline_extraction_guard tracks w names id_list genre_list :
  dirs w !! "data/Spectrograms" = Some names ->
  (Resolver.GetGenres py_int "data/audio" Pipeline.genre_dict tracks w).1
  = Returns (id_list, genre_list) ->
  let w' := (Pipeline.LoadDataPipeline py_int librosa_load melspectrogram
               writable power_to_db tracks w).2 in
  (calls (trace w') = calls (trace w) <-> length names = 7994)
  ∧ (length names = 7994 -> dirs w' = dirs w ∧ tensors w' = tensors w)
  ∧ (length names ≠ 7994 ->
       calls (trace w')
       = calls (trace w) ++ [("data/audio", "data/Spectrograms")]).
Proof.
  intros Hd Hg w'.
  set (w1 := {| dirs := dirs w; tensors := tensors w;
                trace := trace w ++ [Printed "Tracks and Genres loaded"] |}).
  assert (Hw1 : same_files_and_calls w w1) by apply (print_same _ w).
  assert (Hg1 : Resolver.GetGenres py_int "data/audio" Pipeline.genre_dict
                  tracks w1 = (Returns (id_list, genre_list), w1)).
  { rewrite (surjective_pairing (Resolver.GetGenres _ _ _ _ w1)).
    rewrite GetGenres_world, (GetGenres_dirs _ _ _ _ w) by done.
    by rewrite Hg. }
  (* the part of the pipeline after the guard *)
  assert (Htail : exists tail : M world (list ndarray * list Z),
             quiet tail
             ∧ w' = (bind (Pipeline.extraction_stage librosa_load
                             melspectrogram writable "data/audio"
                             "data/Spectrograms") (fun _ => tail) w1).2).
  { eexists. split; [|subst w'; unfold Pipeline.LoadDataPipeline;
                      unfold bind at 1; rewrite print_spec; fold w1;
                      unfold bind at 1; rewrite Hg1; reflexivity].
    apply quiet_bind; [apply quiet_print|]. intros _.
    apply quiet_bind; [apply quiet_ChargeDataset|]. intros [specs gs].
    apply quiet_bind; [apply quiet_print|]. intros _.
    apply quiet_bind; [apply quiet_lift|]. intros [specs' gs'].
    apply quiet_bind; [apply quiet_print | intros _; apply quiet_ret]. }
  destruct Htail as (tail & Hq & ->).
  unfold bind. rewrite (extraction_stage_guard _ _ _ _ _ names) by exact Hd.
  change Pipeline.expected_artifacts with 7994.
  destruct Hw1 as (Hd1 & Ht1 & Hc1).
  destruct (decide (length names = 7994)) as [Heq|Hne].
  - destruct (Hq w1) as (Hd2 & Ht2 & Hc2).
    split; [split; [done | congruence]|]. split; [|done].
    intros _. split; congruence.
  - pose proof (CreateSpectrograms_trace librosa_load melspectrogram writable
                  "data/audio" "data/Spectrograms" w1) as Htr.
    destruct (Extractor.CreateSpectrograms librosa_load melspectrogram
                writable "data/audio" "data/Spectrograms" w1)
      as [[[]|e] w2]; simpl in Htr.
    + destruct (Hq w2) as (Hd2 & Ht2 & Hc2).
      assert (Hcalls : calls (trace (tail w2).2)
                       = calls (trace w) ++ [("data/audio", "data/Spectrograms")]).
      { rewrite Hc2, Htr. simpl. rewrite !calls_app. simpl.
        by rewrite app_nil_r. }
      split; [split; [|done]|split; [done|done]].
      intros Hsame. rewrite Hcalls in Hsame.
      apply (f_equal length) in Hsame. rewrite length_app in Hsame.
      simpl in Hsame. lia.
    + simpl.
      assert (Hcalls : calls (trace w2)
                       = calls (trace w) ++ [("data/audio", "data/Spectrograms")]).
      { rewrite Htr. simpl. rewrite !calls_app. simpl.
        by rewrite app_nil_r. }
      split; [split; [|done]|split; [done|done]].
      intros Hsame. rewrite Hcalls in Hsame.
      apply (f_equal length) in Hsame. rewrite length_app in Hsame.
      simpl in Hsame. lia.
Qed.

End PipelineTheorems.

(** ** Loading the artifacts *)

Section LoaderFacts.

Variable power_to_db : ndarray -> ndarray.

Lemma argwhere_from_bounds id_list id_track : forall i,
  Forall (fun j => i <= j < i + length id_list)
    (Loader.argwhere_from i id_list id_track).
Proof.
  induction id_list as [|x rest IH]; intros i; simpl; [constructor|].
  specialize (IH (S i)).
  assert (Hrest : Forall (fun j => i <= j < i + S (length rest))
                    (Loader.argwhere_from (S i) rest id_track)).
  { eapply Forall_impl; [exact IH|]. simpl. intros j Hj. lia. }
  destruct (decide (x = id_track)); [constructor; [lia|]|]; exact Hrest.
Qed.

Lemma argwhere_from_absent id_list id_track : forall i,
  id_track ∉ id_list -> Loader.argwhere_from i id_list id_track = [].
Proof.
  induction id_list as [|x rest IH]; intros i Hnot; simpl; [done|].
  apply not_elem_of_cons in Hnot as [Hne Hnot].
  rewrite decide_False by congruence. by apply IH.
Qed.

(** The first position that [argwhere] reports is the first occurrence. *)
Lemma argwhere_from_present id_list id_track : forall i,
  id_track ∈ id_list ->
  exists j rest,
    Loader.argwhere_from i id_list id_track = (i + j) :: rest
    ∧ id_list !! j = Some id_track
    ∧ (forall j', j' < j -> id_list !! j' ≠ Some id_track).
Proof.
  induction id_list as [|x l IH]; intros i Hin; [by apply elem_of_nil in Hin|].
  simpl. destruct (decide (x = id_track)) as [->|Hne].
  - exists 0, (Loader.argwhere_from (S i) l id_track).
    rewrite Nat.add_0_r. split; [done|]. split; [done|]. intros j' Hj'. lia.
  - apply elem_of_cons in Hin as [->|Hin]; [done|].
    destruct (IH (S i) Hin) as (j & rest & Heq & Hj & Hfirst).
    exists (S j), rest. rewrite Heq. split; [f_equal; lia|]. split; [done|].
    intros [|j'] Hj'; simpl; [congruence|]. apply Hfirst. lia.
Qed.

(** Indexing by positions that are all in range returns the whole column. *)
Lemma column_in_range (genre_list : list Z) (idxs : list nat) :
  Forall (fun j => j < length genre_list) idxs ->
  mapM (fun i => g ← getitem genre_list i; mret [g]) idxs
  = Returns ((fun i => [genre_list !!! i]) <$> idxs).
Proof.
  induction 1 as [|i idxs Hi _ IH]; [done|].
  simpl. rewrite IH.
  destruct (lookup_lt_is_Some_2 genre_list i Hi) as [g Hg].
  rewrite (getitem_Some _ _ _ Hg). simpl.
  by rewrite (list_lookup_total_correct _ _ _ Hg).
Qed.

Lemma genre_of_absent id_list genre_list id_track :
  id_track ∉ id_list ->
  Loader.genre_of id_list genre_list id_track = Raises IndexError.
Proof.
  intros Hnot. unfold Loader.genre_of, Loader.argwhere.
  by rewrite argwhere_from_absent.
Qed.

Lemma genre_of_present id_list genre_list id_track :
  length id_list = length genre_list ->
  id_track ∈ id_list ->
  exists j g,
    Loader.genre_of id_list genre_list id_track = Returns g
    ∧ id_list !! j = Some id_track
    ∧ (forall j', j' < j -> id_list !! j' ≠ Some id_track)
    ∧ genre_list !! j = Some g.
Proof.
  intros Hlen Hin. unfold Loader.genre_of, Loader.argwhere.
  pose proof (argwhere_from_bounds id_list id_track 0) as Hb.
  destruct (argwhere_from_present id_list id_track 0 Hin)
    as (j & rest & Heq & Hj & Hfirst).
  rewrite column_in_range
    by (eapply Forall_impl; [exact Hb|]; simpl; intros; lia).
  rewrite Heq. simpl.
  assert (Hjlt : j < length genre_list).
  { rewrite <- Hlen. by apply lookup_lt_Some in Hj. }
  destruct (lookup_lt_is_Some_2 genre_list j Hjlt) as [g Hg].
  exists j, g. by rewrite (list_lookup_total_correct _ _ _ Hg).
Qed.

Lemma charge_all_raises id_list genre_list entries file : forall w,
  file ∈ entries -> str_slice file 18 (-3) ∉ id_list ->
  exists e,
    Loader.charge_all power_to_db id_list genre_list entries w = (Raises e, w).
Proof.
  induction entries as [|spec rest IH]; intros w Hin Hnot;
    [by apply elem_of_nil in Hin|].
  simpl. unfold bind at 1, lift.
  destruct (Loader.genre_of id_list genre_list (str_slice spec 18 (-3)))
    as [g|e] eqn:Hg; [|eauto].
  apply elem_of_cons in Hin as [->|Hin].
  { rewrite genre_of_absent in Hg by done. discriminate. }
  unfold bind at 1, torch_load.
  destruct (tensors w !! spec) as [t|]; [|eauto].
  unfold bind. destruct (IH w Hin Hnot) as [e ->]. eauto.
Qed.

Lemma charge_all_returns id_list genre_list entries : forall w,
  length id_list = length genre_list ->
  (forall file, file ∈ entries ->
     str_slice file 18 (-3) ∈ id_list ∧ is_Some (tensors w !! file)) ->
  exists images labels,
    Loader.charge_all power_to_db id_list genre_list entries w
    = (Returns (images, labels), w)
    ∧ length images = length entries
    ∧ length labels = length entries
    ∧ (forall k file, entries !! k = Some file ->
         exists j t g,
           id_list !! j = Some (str_slice file 18 (-3))
           ∧ (forall j', j' < j ->
                id_list !! j' ≠ Some (str_slice file 18 (-3)))
           ∧ genre_list !! j = Some g
           ∧ tensors w !! file = Some t
           ∧ images !! k = Some (power_to_db t)
           ∧ labels !! k = Some g).
Proof.
  intros w Hlen.
  induction entries as [|spec rest IH]; intros Hall.
  - exists [], []. by repeat split.
  - destruct (Hall spec) as [Hin [t Ht]]; [apply list_elem_of_here|].
    destruct (genre_of_present id_list genre_list _ Hlen Hin)
      as (j & g & Hg & Hj & Hfirst & Hgj).
    destruct IH as (images & labels & Hrun & Hli & Hll & Hrest).
    { intros file Hfile. apply Hall. by apply list_elem_of_further. }
    exists (power_to_db t :: images), (g :: labels).
    split; [|split; [simpl; lia|split; [simpl; lia|]]].
    + simpl. unfold bind at 1, lift. rewrite Hg.
      unfold bind at 1, torch_load. rewrite Ht.
      unfold bind at 1. rewrite Hrun. reflexivity.
    + intros [|k] file Hk; simpl in Hk.
      * injection Hk as <-. exists j, t, g. by repeat split.
      * apply (Hrest k file Hk).
Qed.

(** C8: when some artifact's identifier is not in the identifier sequence,
    [ChargeDataset] raises and returns no data; when every identifier is
    there (and every artifact loads), it returns, for each artifact in
    order, the loaded array after [power_to_db] paired with the genre at the
    position of the first occurrence of the identifier. *)
Theorem ChargeDataset_lookup_policy path names id_list genre_list w :
  dirs w !! path = Some names ->
  length id_list = length genre_list ->
  (forall name, name ∈ names ->
     str_slice (join_path path name) 18 (-3) ∉ id_list ->
     exists e,
       Loader.ChargeDataset power_to_db path id_list genre_list w
       = (Raises e, w))
  ∧ ((forall name, name ∈ names ->
        str_slice (join_path path name) 18 (-3) ∈ id_list
        ∧ is_Some (tensors w !! join_path path name)) ->
     exists images labels,
       Loader.ChargeDataset power_to_db path id_list genre_list w
       = (Returns (images, labels), w)
       ∧ length images = length names
       ∧ length labels = length names
       ∧ (forall k name, names !! k = Some name ->
            exists j t g,
              id_list !! j = Some (str_slice (join_path path name) 18 (-3))
              ∧ (forall j', j' < j ->
                   id_list !! j'
                   ≠ Some (str_slice (join_path path name) 18 (-3)))
              ∧ genre_list !! j = Some g
              ∧ tensors w !! join_path path name = Some t
              ∧ images !! k = Some (power_to_db t)
              ∧ labels !! k = Some g)).
Proof.
  intros Hdir Hlen. unfold Loader.ChargeDataset, bind, iterdir. rewrite Hdir.
  split.
  - intros name Hin Hnot.
    apply (charge_all_raises _ _ _ (join_path path name)); [|done].
    apply list_elem_of_fmap. eauto.
  - intros Hall.
    destruct (charge_all_returns id_list genre_list
                (join_path path <$> names) w Hlen)
      as (images & labels & Hrun & Hli & Hll & Hrest).
    { intros file Hfile.
      apply list_elem_of_fmap in Hfile as (name & -> & Hname). by apply Hall. }
    exists images, labels. rewrite length_fmap in Hli, Hll.
    split; [done|]. split; [done|]. split; [done|].
    intros k name Hk. apply Hrest. by rewrite list_lookup_fmap, Hk.
Qed.

End LoaderFacts.

(** ** Augmentation *)

Section AugmenterFacts.

Import Augmenter.

Lemma deref_store l a s : l < length (heap s) -> deref (store l a s) l = a.
Proof.
  intros Hl. unfold deref, store. simpl.
  apply list_lookup_total_correct. by apply list_lookup_insert_eq.
Qed.

(** One round as a single update of the heap cell [l]. *)
Lemma mask_round_eq fmax tmax l s :
  l < length (heap s) ->
  mask_round fmax tmax l s
  = (let b := band_of fmax tmax (deref s l)
                (draws (py_random s) (pos (py_random s)))
                (draws (np_random s) (pos (np_random s)))
                (draws (py_random s) (S (pos (py_random s))))
                (draws (np_random s) (S (pos (np_random s)))) in
     (b, {| heap := <[l := apply_band b (deref s l)]> (heap s);
            py_random := advance 2 (py_random s);
            np_random := advance 2 (np_random s) |})).
Proof.
  intros Hl.
  unfold mask_round, random_uniform, np_random_uniform, next_draw, store,
    deref, band_of, apply_band, advance.
  simpl. rewrite list_lookup_total_insert_eq by done.
  by rewrite list_insert_insert_eq.
Qed.

Lemma zero_columns_shape lo hi a : shape (zero_columns lo hi a) = shape a.
Proof. reflexivity. Qed.

Lemma zero_rows_shape lo hi a : shape (zero_rows lo hi a) = shape a.
Proof. reflexivity. Qed.

Lemma apply_band_shape b a : shape (apply_band b a) = shape a.
Proof. reflexivity. Qed.

Lemma mask_rounds_S n fmax tmax l s :
  mask_rounds (S n) fmax tmax l s
  = (let '(b, s1) := mask_round fmax tmax l s in
     let '(bs, s2) := mask_rounds n fmax tmax l s1 in (b :: bs, s2)).
Proof. reflexivity. Qed.

(** The rounds only ever write the heap cell they are given. *)
Lemma mask_rounds_heap num_mask fmax tmax l : forall s,
  l < length (heap s) ->
  exists a,
    heap (mask_rounds num_mask fmax tmax l s).2 = <[l := a]> (heap s)
    ∧ shape a = shape (deref s l)
    ∧ length (mask_rounds num_mask fmax tmax l s).1 = num_mask.
Proof.
  induction num_mask as [|n IH]; intros s Hl.
  - exists (deref s l). split; [|done].
    symmetry. apply list_insert_id. unfold deref.
    apply list_lookup_lookup_total_lt. exact Hl.
  - rewrite mask_rounds_S, mask_round_eq by done. cbv zeta.
    set (b := band_of _ _ _ _ _ _ _).
    set (s1 := {| heap := _; py_random := _; np_random := _ |}).
    assert (Hl1 : l < length (heap s1))
      by (subst s1; simpl; by rewrite length_insert).
    destruct (IH s1 Hl1) as (a & Hheap & Hshape & Hlen).
    destruct (mask_rounds n fmax tmax l s1) as [bs s2]. simpl in *.
    exists a. split; [|split].
    + rewrite Hheap. subst s1. simpl. apply list_insert_insert_eq.
    + rewrite Hshape. subst s1. unfold deref. simpl.
      rewrite (list_lookup_total_correct _ _ (apply_band b (deref s l)));
        [done|]. by apply list_lookup_insert_eq.
    + by rewrite Hlen.
Qed.

(** [spec_augment] allocates one array, of the shape of its argument, and
    leaves every array that existed before as it was. *)
Lemma spec_augment_fresh spec num_mask fmax tmax s :
  exists a,
    spec_augment spec num_mask fmax tmax s
    = (length (heap s), (spec_augment spec num_mask fmax tmax s).2)
    ∧ heap (spec_augment spec num_mask fmax tmax s).2 = heap s ++ [a]
    ∧ shape a = shape (deref s spec).
Proof.
  unfold spec_augment, spec_augment_bands, copy.
  set (s1 := {| heap := heap s ++ [deref s spec]; py_random := _;
                np_random := _ |}).
  assert (Hl : length (heap s) < length (heap s1)).
  { subst s1. simpl. rewrite length_app. simpl. lia. }
  destruct (mask_rounds_heap num_mask fmax tmax (length (heap s)) s1 Hl)
    as (a & Hheap & Hshape & _).
  destruct (mask_rounds num_mask fmax tmax (length (heap s)) s1) as [bs s2].
  simpl in *. exists a. split; [done|]. split.
  - rewrite Hheap. subst s1. simpl.
    rewrite insert_app_r_alt by lia. by rewrite Nat.sub_diag.
  - rewrite Hshape. subst s1. unfold deref. simpl.
    rewrite lookup_total_app_r by lia. by rewrite Nat.sub_diag.
Qed.

End AugmenterFacts.

Section AugmentationLists.

Import Augmenter.

Context {L : Type}.
Implicit Types (genres_list : list L) (spec_list : list loc).

Lemma augmented_cons spec rest s :
  augmented (spec :: rest) s
  = (let '(l, s1) := spec_augment spec default_num_mask
                       default_freq_masking_max_percentage
                       default_time_masking_max_percentage s in
     let '(ls, s2) := augmented rest s1 in (l :: ls, s2)).
Proof. reflexivity. Qed.

Lemma augment_from_cons genres_list i spec rest :
  augment_from genres_list i (spec :: rest)
  = bind (fun s =>
            let '(l, s) := spec_augment spec default_num_mask
                             default_freq_masking_max_percentage
                             default_time_masking_max_percentage s in
            (Returns l, s))
      (fun spec =>
         bind (lift (getitem genres_list i))
           (fun g =>
              bind (augment_from genres_list (S i) rest)
                (fun '(new_spec, genre_augment) =>
                   ret (spec :: new_spec, g :: genre_augment)))).
Proof. reflexivity. Qed.

(** With a label for every array the loop of [DataSpecAugmentation] returns
    the augmented copies in order, and the labels it has read. *)
Lemma augment_from_eq genres_list spec_list : forall i s,
  i + length spec_list <= length genres_list ->
  augment_from genres_list i spec_list s
  = (Returns ((augmented spec_list s).1,
              take (length spec_list) (drop i genres_list)),
     (augmented spec_list s).2).
Proof.
  induction spec_list as [|spec rest IH]; intros i s Hlen; [done|].
  simpl in Hlen. rewrite augmented_cons, augment_from_cons. unfold bind at 1.
  destruct (spec_augment spec default_num_mask
              default_freq_masking_max_percentage
              default_time_masking_max_percentage s) as [l s1].
  unfold bind at 1, lift.
  destruct (lookup_lt_is_Some_2 genres_list i) as [g Hg]; [lia|].
  rewrite (getitem_Some _ _ _ Hg). unfold bind.
  rewrite (IH (S i) s1) by lia.
  destruct (augmented rest s1) as [ls s2]. simpl. unfold ret.
  by rewrite (drop_S _ _ _ Hg).
Qed.

(** The loop only ever appends to the heap, also when it raises. *)
Lemma augment_from_heap genres_list spec_list : forall i s,
  exists news,
    heap (augment_from genres_list i spec_list s).2 = heap s ++ news.
Proof.
  induction spec_list as [|spec rest IH]; intros i s.
  - exists []. simpl. by rewrite app_nil_r.
  - rewrite augment_from_cons. unfold bind at 1.
    destruct (spec_augment_fresh spec default_num_mask
                default_freq_masking_max_percentage
                default_time_masking_max_percentage s) as (a & _ & Ha & _).
    destruct (spec_augment spec default_num_mask
                default_freq_masking_max_percentage
                default_time_masking_max_percentage s) as [l s1].
    simpl in Ha. unfold bind at 1, lift.
    destruct (getitem genres_list i) as [g|e].
    + unfold bind. destruct (IH (S i) s1) as [news Hnews].
      destruct (augment_from genres_list (S i) rest s1)
        as [[[new_spec genre_augment]|e] s2]; simpl in *;
        exists (a :: news); rewrite Hnews, Ha, <- app_assoc; done.
    + exists [a]. exact Ha.
Qed.

(** The augmented copies are new arrays at consecutive new addresses, each of
    the shape of its source. *)
Lemma augmented_fresh spec_list : forall s,
  exists news,
    heap (augmented spec_list s).2 = heap s ++ news
    ∧ (augmented spec_list s).1 = seq (length (heap s)) (length spec_list)
    ∧ Forall2 (fun spec a =>
                 spec < length (heap s) -> shape a = shape (deref s spec))
        spec_list news.
Proof.
  induction spec_list as [|spec rest IH]; intros s.
  - exists []. simpl. by rewrite app_nil_r.
  - rewrite augmented_cons.
    destruct (spec_augment_fresh spec default_num_mask
                default_freq_masking_max_percentage
                default_time_masking_max_percentage s)
      as (a & Hl & Ha & Hshape).
    destruct (spec_augment spec default_num_mask
                default_freq_masking_max_percentage
                default_time_masking_max_percentage s) as [l s1].
    simpl in Ha. injection Hl as ->.
    destruct (IH s1) as (news & Hnews & Hseq & Hall).
    destruct (augmented rest s1) as [ls s2]. simpl in *.
    exists (a :: news). split; [|split].
    + by rewrite Hnews, Ha, <- app_assoc.
    + rewrite Hseq, Ha, length_app. simpl. f_equal. f_equal. lia.
    + constructor; [done|].
      eapply Forall2_impl; [exact Hall|]. simpl. intros spec' a' Himp Hlt.
      rewrite Ha, length_app in Himp. rewrite Himp by lia.
      unfold deref. rewrite Ha. by rewrite lookup_total_app_l.
Qed.

(** C5: on lists of equal lengths [DataSpecAugmentation] returns; the list
    of spectrograms becomes the originals followed by their augmented copies
    in the same order, twice as long; the list of labels becomes the labels
    followed by the same labels again; so the copy of the i-th original sits
    at position [len + i], is a new array of the same shape, and carries the
    i-th label. *)
Theorem DataSpecAugmentation_doubles spec_list genres_list s :
  length spec_list = length genres_list ->
  exists new_spec s',
    DataSpecAugmentation spec_list genres_list s
    = (Returns (spec_list ++ new_spec, genres_list ++ genres_list), s')
    ∧ (new_spec, s') = augmented spec_list s
    ∧ length (spec_list ++ new_spec) = 2 * length spec_list
    ∧ length (genres_list ++ genres_list) = 2 * length genres_list
    ∧ take (length spec_list) (spec_list ++ new_spec) = spec_list
    ∧ (forall i spec, spec_list !! i = Some spec ->
         (spec_list ++ new_spec) !! (length spec_list + i)
         = Some (length (heap s) + i)
         ∧ (spec < length (heap s) ->
              shape (deref s' (length (heap s) + i)) = shape (deref s spec))
         ∧ (genres_list ++ genres_list) !! (length spec_list + i)
           = genres_list !! i).
Proof.
  intros Hlen.
  destruct (augmented_fresh spec_list s) as (news & Hheap & Hseq & Hall).
  exists (augmented spec_list s).1, (augmented spec_list s).2.
  assert (Hn : length (augmented spec_list s).1 = length spec_list)
    by (by rewrite Hseq, length_seq).
  split; [|split; [|split; [|split; [|split]]]].
  - unfold DataSpecAugmentation, bind.
    rewrite augment_from_eq by (simpl; lia). unfold ret.
    by rewrite drop_0, Hlen, firstn_all.
  - by destruct (augmented spec_list s).
  - rewrite length_app, Hn. lia.
  - rewrite length_app. lia.
  - by rewrite take_app_length.
  - intros i spec Hi.
    pose proof (lookup_lt_Some _ _ _ Hi) as Hlt.
    split; [|split].
    + rewrite lookup_app_r by lia.
      replace (length spec_list + i - length spec_list) with i by lia.
      rewrite Hseq. by apply lookup_seq_lt.
    + intros Hspec.
      destruct (Forall2_lookup_l _ _ _ _ _ Hall Hi) as (a & Ha & Hshape).
      rewrite <- Hshape by done. f_equal.
      unfold deref. rewrite Hheap.
      rewrite lookup_total_app_r by lia.
      replace (length (heap s) + i - length (heap s)) with i by lia.
      by apply list_lookup_total_correct.
    + rewrite lookup_app_r by lia. f_equal. lia.
Qed.

(** C10: [spec_augment] works on a copy -- it returns a new address and
    leaves every array of the heap as it was -- so [DataSpecAugmentation]
    changes no array that existed before it ran, whether it returns or
    raises; when it returns, the first [len] elements of the list are the
    original arrays, with their values, and every later element is an array
    that did not exist before. *)
Theorem DataSpecAugmentation_keeps_originals spec_list genres_list s :
  (forall spec num_mask fmax tmax s0,
     (spec_augment spec num_mask fmax tmax s0).1 = length (heap s0)
     ∧ take (length (heap s0))
         (heap (spec_augment spec num_mask fmax tmax s0).2) = heap s0)
  ∧ take (length (heap s))
      (heap (DataSpecAugmentation spec_list genres_list s).2) = heap s
  ∧ (forall out_specs out_genres,
       (DataSpecAugmentation spec_list genres_list s).1
       = Returns (out_specs, out_genres) ->
       take (length spec_list) out_specs = spec_list
       ∧ (forall i l, spec_list !! i = Some l -> l < length (heap s) ->
            out_specs !! i = Some l
            ∧ deref (DataSpecAugmentation spec_list genres_list s).2 l
              = deref s l)
       ∧ (forall k l, length spec_list <= k -> out_specs !! k = Some l ->
            length (heap s) <= l)).
Proof.
  assert (Hheap : exists news,
             heap (DataSpecAugmentation spec_list genres_list s).2
             = heap s ++ news).
  { unfold DataSpecAugmentation, bind.
    destruct (augment_from_heap genres_list spec_list 0 s) as [news Hnews].
    destruct (augment_from genres_list 0 spec_list s)
      as [[[new_spec genre_augment]|e] s1]; simpl in *; eauto. }
  destruct Hheap as [news Hnews].
  split; [|split].
  - intros spec num_mask fmax tmax s0.
    destruct (spec_augment_fresh spec num_mask fmax tmax s0)
      as (a & Hl & Ha & _).
    rewrite Ha, take_app_length. split; [|done]. by rewrite Hl.
  - by rewrite Hnews, take_app_length.
  - intros out_specs out_genres Hret.
    unfold DataSpecAugmentation, bind in Hret, Hnews |- *.
    pose proof (augment_from_heap genres_list spec_list 0 s) as [news' Hn'].
    destruct (augment_from genres_list 0 spec_list s)
      as [[[new_spec genre_augment]|e] s1] eqn:Hrun; simpl in *;
      [|discriminate].
    injection Hret as <- <-.
    split; [by rewrite take_app_length|]. split.
    + intros i l Hi Hl. split; [by apply lookup_app_l_Some|].
      unfold deref. rewrite Hnews. by rewrite lookup_total_app_l.
    + intros k l Hk Hout. rewrite lookup_app_r in Hout by done.
      (* the appended addresses are those of the copies *)
      assert (Hfresh : forall spec_list' i' s0 new' ga' s0',
                 augment_from genres_list i' spec_list' s0
                 = (Returns (new', ga'), s0') ->
                 Forall (fun l => length (heap s0) <= l) new').
      { clear. induction spec_list' as [|spec rest IH];
          intros i' s0 new' ga' s0' Heq.
        - injection Heq as <- _ _. constructor.
        - rewrite augment_from_cons in Heq. unfold bind at 1 in Heq.
          destruct (spec_augment_fresh spec default_num_mask
                      default_freq_masking_max_percentage
                      default_time_masking_max_percentage s0)
            as (a & Hl & Ha & _).
          destruct (spec_augment spec default_num_mask
                      default_freq_masking_max_percentage
                      default_time_masking_max_percentage s0) as [l1 s1].
          simpl in Ha. injection Hl as ->.
          unfold bind at 1, lift in Heq.
          destruct (getitem genres_list i') as [g|e]; [|discriminate].
          unfold bind in Heq.
          destruct (augment_from genres_list (S i') rest s1)
            as [[[new1 ga1]|e] s2] eqn:Hrest; [|discriminate].
          injection Heq as <- _ _.
          constructor; [done|].
          eapply Forall_impl; [exact (IH _ _ _ _ _ Hrest)|].
          simpl. intros l' Hl'. rewrite Ha, length_app in Hl'. lia. }
      specialize (Hfresh _ _ _ _ _ _ Hrun).
      rewrite Forall_forall in Hfresh. apply Hfresh.
      apply list_elem_of_lookup. eauto.
Qed.

End AugmentationLists.

(** ** The bands of [spec_augment] *)

Section BandFacts.

Import Augmenter.

Lemma int_of_Q_bounds q :
  (0 <= q)%Q -> (0 <= int_of_Q q)%Z ∧ (inject_Z (int_of_Q q) <= q)%Q.
Proof.
  destruct q as [n d]. unfold Qle, int_of_Q. simpl. intros Hq.
  assert (Hn : (0 <= n)%Z) by lia.
  pose proof (Z.mul_quot_le n (Z.pos d) Hn ltac:(lia)) as [H0 H1].
  split; [|lia].
  apply Z.quot_pos; lia.
Qed.

Lemma scale_bounds high u :
  (0 <= high)%Q -> (0 <= u)%Q -> (u <= 1)%Q ->
  (0 <= scale 0 high u)%Q ∧ (scale 0 high u <= high)%Q.
Proof.
  intros Hh H0 H1.
  assert (Heq : (scale 0 high u == u * high)%Q) by (unfold scale; ring).
  rewrite Heq. split.
  - by apply Qmult_le_0_compat.
  - rewrite <- (Qmult_1_l high) at 2. by apply Qmult_le_compat_r.
Qed.

(** What one axis contributes to a band: a width of at most [pmax] of the
    axis length [n], and a start that leaves the run inside the axis. *)
Lemma axis_band_bounds pmax (n : nat) u v :
  (0 <= pmax)%Q -> (pmax <= 1)%Q ->
  (0 <= u)%Q -> (u <= 1)%Q -> (0 <= v)%Q -> (v <= 1)%Q ->
  let num := int_of_Q (scale 0 pmax u * inject_Z (Z.of_nat n)) in
  let start := int_of_Q (scale 0 (inject_Z (Z.of_nat n - num)) v) in
  (0 <= num)%Z
  ∧ (inject_Z num <= pmax * inject_Z (Z.of_nat n))%Q
  ∧ (0 <= start)%Z
  ∧ (start + num <= Z.of_nat n)%Z.
Proof.
  intros Hp0 Hp1 Hu0 Hu1 Hv0 Hv1 num start.
  assert (Hn : (0 <= inject_Z (Z.of_nat n))%Q).
  { change 0%Q with (inject_Z 0). rewrite <- Zle_Qle. lia. }
  destruct (scale_bounds pmax u Hp0 Hu0 Hu1) as [Hs0 Hs1].
  destruct (int_of_Q_bounds (scale 0 pmax u * inject_Z (Z.of_nat n)))
    as [Hnum0 Hnum1]; [by apply Qmult_le_0_compat|].
  fold num in Hnum0, Hnum1.
  assert (Hnum2 : (inject_Z num <= pmax * inject_Z (Z.of_nat n))%Q).
  { eapply Qle_trans; [exact Hnum1|]. by apply Qmult_le_compat_r. }
  assert (Hnum3 : (num <= Z.of_nat n)%Z).
  { rewrite Zle_Qle. eapply Qle_trans; [exact Hnum2|].
    rewrite <- (Qmult_1_l (inject_Z (Z.of_nat n))) at 2.
    by apply Qmult_le_compat_r. }
  assert (Hrest : (0 <= inject_Z (Z.of_nat n - num))%Q).
  { change 0%Q with (inject_Z 0). rewrite <- Zle_Qle. lia. }
  destruct (scale_bounds _ v Hrest Hv0 Hv1) as [Hf0 Hf1].
  destruct (int_of_Q_bounds _ Hf0) as [Hst0 Hst1]. fold start in Hst0, Hst1.
  assert (Hst2 : (start <= Z.of_nat n - num)%Z).
  { rewrite Zle_Qle. eapply Qle_trans; [exact Hst1 | exact Hf1]. }
  repeat split; [done | done | done | lia].
Qed.

Lemma band_of_within fmax tmax a uf vf ut vt :
  (0 <= fmax)%Q -> (fmax <= 1)%Q -> (0 <= tmax)%Q -> (tmax <= 1)%Q ->
  (0 <= uf)%Q -> (uf <= 1)%Q -> (0 <= vf)%Q -> (vf <= 1)%Q ->
  (0 <= ut)%Q -> (ut <= 1)%Q -> (0 <= vt)%Q -> (vt <= 1)%Q ->
  band_within fmax tmax (shape0 a) (shape1 a)
    (band_of fmax tmax a uf vf ut vt).
Proof.
  intros. unfold band_within, band_of. simpl.
  destruct (axis_band_bounds fmax (shape1 a) uf vf) as (? & ? & ? & ?);
    try done.
  destruct (axis_band_bounds tmax (shape0 a) ut vt) as (? & ? & ? & ?);
    try done.
Qed.

Lemma cell_zero_columns lo hi a r c :
  (slice_index (shape1 a) lo <= c < slice_index (shape1 a) hi ->
   cell (zero_columns lo hi a) r c = (fun _ => 0%Q) <$> cell a r c)
  ∧ (¬ (slice_index (shape1 a) lo <= c < slice_index (shape1 a) hi) ->
     cell (zero_columns lo hi a) r c = cell a r c).
Proof.
  unfold cell, zero_columns, zero_range. simpl.
  rewrite list_lookup_fmap.
  destruct (rows a !! r) as [row|]; simpl; [|done].
  rewrite list_lookup_imap.
  split; intros Hc.
  - destruct (row !! c); simpl; [|done]. by rewrite decide_True.
  - destruct (row !! c); simpl; [|done]. by rewrite decide_False.
Qed.

Lemma cell_zero_rows lo hi a r c :
  (slice_index (shape0 a) lo <= r < slice_index (shape0 a) hi ->
   cell (zero_rows lo hi a) r c = (fun _ => 0%Q) <$> cell a r c)
  ∧ (¬ (slice_index (shape0 a) lo <= r < slice_index (shape0 a) hi) ->
     cell (zero_rows lo hi a) r c = cell a r c).
Proof.
  unfold cell, zero_rows. simpl.
  rewrite list_lookup_imap.
  destruct (rows a !! r) as [row|]; simpl; [|done].
  split; intros Hr.
  - rewrite decide_True by done. by rewrite list_lookup_fmap.
  - by rewrite decide_False by done.
Qed.

(** One round zeroes the cells of its two runs and no other. *)
Lemma cell_apply_band b a r c :
  (in_columns b (shape1 a) c ∨ in_rows b (shape0 a) r ->
   cell (apply_band b a) r c = (fun _ => 0%Q) <$> cell a r c)
  ∧ (¬ (in_columns b (shape1 a) c ∨ in_rows b (shape0 a) r) ->
     cell (apply_band b a) r c = cell a r c).
Proof.
  unfold apply_band, in_columns, in_rows.
  set (a1 := zero_columns (f0 b) (f0 b + num_freqs_to_mask b) a).
  destruct (cell_zero_columns (f0 b) (f0 b + num_freqs_to_mask b) a r c)
    as [Hc1 Hc0].
  destruct (cell_zero_rows (t0 b) (t0 b + num_frames_to_mask b) a1 r c)
    as [Hr1 Hr0].
  fold a1 in Hc1, Hc0. change (shape0 a1) with (shape0 a) in Hr1, Hr0.
  destruct (decide (slice_index (shape1 a) (f0 b) <= c
                    < slice_index (shape1 a) (f0 b + num_freqs_to_mask b)))
    as [Hc|Hc];
  destruct (decide (slice_index (shape0 a) (t0 b) <= r
                    < slice_index (shape0 a) (t0 b + num_frames_to_mask b)))
    as [Hr|Hr].
  - split; [intros _|tauto]. rewrite Hr1, Hc1 by done.
    by destruct (cell a r c).
  - split; [intros _|tauto]. by rewrite Hr0, Hc1.
  - split; [intros _|tauto]. by rewrite Hr1, Hc0.
  - split; [tauto|intros _]. by rewrite Hr0, Hc0.
Qed.

Lemma valid_rng_advance n g : valid_rng g -> valid_rng (advance n g).
Proof. intros H k. apply H. Qed.

(** The rounds on the array at [l]: every band lies within its bounds, and a
    cell of the result is zero when it lies in a band and is the cell of the
    array the rounds started from when it does not. *)
Lemma mask_rounds_cells num_mask fmax tmax l : forall s,
  (0 <= fmax)%Q -> (fmax <= 1)%Q -> (0 <= tmax)%Q -> (tmax <= 1)%Q ->
  l < length (heap s) ->
  valid_rng (py_random s) -> valid_rng (np_random s) ->
  let src := deref s l in
  let bs := (mask_rounds num_mask fmax tmax l s).1 in
  let out := deref (mask_rounds num_mask fmax tmax l s).2 l in
  length bs = num_mask
  ∧ Forall (band_within fmax tmax (shape0 src) (shape1 src)) bs
  ∧ shape out = shape src
  ∧ (forall r c,
       (masked bs (shape0 src) (shape1 src) r c ->
        cell out r c = (fun _ => 0%Q) <$> cell src r c)
       ∧ (¬ masked bs (shape0 src) (shape1 src) r c ->
          cell out r c = cell src r c)).
Proof.
  induction num_mask as [|n IH]; intros s Hf0 Hf1 Ht0 Ht1 Hl Hpy Hnp.
  - simpl. split; [done|]. split; [constructor|]. split; [done|].
    intros r c. split; [|done]. intros Hm. by apply Exists_nil in Hm.
  - cbv zeta. rewrite mask_rounds_S, mask_round_eq by done.
    cbv beta iota zeta.
    set (src := deref s l).
    set (b := band_of fmax tmax src _ _ _ _).
    match goal with
    | |- context [mask_rounds n fmax tmax l ?st] =>
        remember st as s1 eqn:Hs1
    end.
    assert (Hl1 : l < length (heap s1))
      by (rewrite Hs1; simpl; by rewrite length_insert).
    assert (Hsrc1 : deref s1 l = apply_band b src).
    { rewrite Hs1. unfold deref. simpl.
      by rewrite list_lookup_total_insert_eq. }
    assert (Hpy1 : valid_rng (py_random s1))
      by (rewrite Hs1; apply valid_rng_advance, Hpy).
    assert (Hnp1 : valid_rng (np_random s1))
      by (rewrite Hs1; apply valid_rng_advance, Hnp).
    specialize (IH s1 Hf0 Hf1 Ht0 Ht1 Hl1 Hpy1 Hnp1).
    cbv zeta in IH. rewrite Hsrc1 in IH.
    change (shape0 (apply_band b src)) with (shape0 src) in IH.
    change (shape1 (apply_band b src)) with (shape1 src) in IH.
    clear Hs1.
    destruct (mask_rounds n fmax tmax l s1) as [bs s2].
    simpl in IH |- *. destruct IH as (Hlen & Hall & Hshape & Hcells).
    split; [by f_equal|]. split; [|split].
    + constructor; [|done]. subst b.
      apply band_of_within; try done; apply Hpy || apply Hnp.
    + by rewrite Hshape.
    + intros r c. destruct (Hcells r c) as [Hin Hout].
      destruct (cell_apply_band b src r c) as [Hb1 Hb0].
      split.
      * intros Hm. apply Exists_cons in Hm.
        destruct (decide (masked bs (shape0 src) (shape1 src) r c))
          as [Hbs|Hbs].
        -- rewrite Hin by done.
           destruct (decide (in_columns b (shape1 src) c
                             ∨ in_rows b (shape0 src) r)) as [Hb|Hb].
           ++ rewrite Hb1 by done. by destruct (cell src r c).
           ++ by rewrite Hb0.
        -- rewrite Hout by done. destruct Hm as [Hb|Hm]; [|done].
           by apply Hb1.
      * intros Hm. rewrite Hout, Hb0; [done| |].
        -- intros Hb. apply Hm. by apply Exists_cons_hd.
        -- intros Hbs. apply Hm. by apply Exists_cons_tl.
Qed.

End BandFacts.

Section SpecAugmentTheorems.

Import Augmenter.

(** What [spec_augment] does, axis by axis: it returns a new array of the
    shape of its argument; each of the [num_mask] rounds picks a run of
    columns (axis 1) no wider than [fmax] of the column count and a run of
    rows (axis 0) no wider than [tmax] of the row count, both inside the
    array; the result is zero on those runs and equal to the source
    everywhere else. The runs are those of exact arithmetic. *)
Lemma spec_augment_zeroes_bands spec num_mask fmax tmax s :
  (0 <= fmax)%Q -> (fmax <= 1)%Q -> (0 <= tmax)%Q -> (tmax <= 1)%Q ->
  valid_rng (py_random s) -> valid_rng (np_random s) ->
  let src := deref s spec in
  let res := spec_augment_bands spec num_mask fmax tmax s in
  let out := deref res.2 res.1.1 in
  let bs := res.1.2 in
  res.1.1 = length (heap s)
  ∧ length bs = num_mask
  ∧ Forall (band_within fmax tmax (shape0 src) (shape1 src)) bs
  ∧ shape out = shape src
  ∧ (forall r c,
       (masked bs (shape0 src) (shape1 src) r c ->
        cell out r c = (fun _ => 0%Q) <$> cell src r c)
       ∧ (¬ masked bs (shape0 src) (shape1 src) r c ->
          cell out r c = cell src r c)).
Proof.
  intros Hf0 Hf1 Ht0 Ht1 Hpy Hnp. cbv zeta.
  unfold spec_augment_bands, copy. cbv beta iota zeta.
  match goal with
  | |- context [mask_rounds num_mask fmax tmax _ ?st] =>
      remember st as s1 eqn:Hs1
  end.
  assert (Hl : length (heap s) < length (heap s1)).
  { rewrite Hs1. simpl. rewrite length_app. simpl. lia. }
  assert (Hsrc : deref s1 (length (heap s)) = deref s spec).
  { rewrite Hs1. unfold deref. simpl.
    rewrite lookup_total_app_r by lia. by rewrite Nat.sub_diag. }
  assert (Hpy1 : valid_rng (py_random s1)) by (by rewrite Hs1).
  assert (Hnp1 : valid_rng (np_random s1)) by (by rewrite Hs1).
  pose proof (mask_rounds_cells num_mask fmax tmax (length (heap s)) s1
                Hf0 Hf1 Ht0 Ht1 Hl Hpy1 Hnp1) as H.
  cbv zeta in H. rewrite Hsrc in H. clear Hs1.
  destruct (mask_rounds num_mask fmax tmax (length (heap s)) s1) as [bs s2].
  simpl in H |- *. by split.
Qed.

(** With the default percentages a run of columns is at most 15% of the
    columns and a run of rows at most 25% of the rows. *)
Lemma default_band_percentages nrows ncols b :
  band_within default_freq_masking_max_percentage
    default_time_masking_max_percentage nrows ncols b ->
  (100 * num_freqs_to_mask b <= 15 * Z.of_nat ncols)%Z
  ∧ (100 * num_frames_to_mask b <= 25 * Z.of_nat nrows)%Z.
Proof.
  intros (_ & Hf & _ & _ & _ & Ht & _ & _).
  unfold default_freq_masking_max_percentage,
    default_time_masking_max_percentage, Qle in *.
  simpl in Hf, Ht. lia.
Qed.

End SpecAugmentTheorems.

(** C2: on a spectrogram of 10 frequency bins (rows) by 2 time frames
    (columns) whose draws give a time percentage of 0.225, [spec_augment]
    zeroes the rows 0 and 1, that is 2 of the 10 frequency bins, which is
    more than 15% of them; the run that the 15% bounds lies along the
    columns, the time frames. *)
Theorem spec_augment_masks_rows_by_time_percentage :
  let res := Augmenter.spec_augment_bands 0 2 (15 # 100) (25 # 100)
               Sample.tall_state in
  res.1.2 = [Augmenter.Band 0 0 2 0; Augmenter.Band 0 0 0 0]
  ∧ Augmenter.deref res.2 res.1.1
    = NdArray 10 2 (replicate 2 [0; 0]%Q ++ replicate 8 [1; 1]%Q)
  ∧ shape Sample.tall = (10, 2)
  ∧ (15 * 10 < 100 * 2)%Z
  ∧ Augmenter.valid_rng (Augmenter.py_random Sample.tall_state)
  ∧ Augmenter.valid_rng (Augmenter.np_random Sample.tall_state).
Proof.
  split; [by vm_compute|]. split; [by vm_compute|]. split; [done|].
  split; [lia|]. split; intros n; simpl; [|done].
  destruct (decide (n = 1)); done.
Qed.

Lemma DataSpecAugmentation_doubles_witness :
  exists new_spec s',
    Augmenter.DataSpecAugmentation [0] [6%Z] Sample.one_array
    = (Returns ([0] ++ new_spec, [6%Z] ++ [6%Z]), s')
    ∧ (new_spec, s') = Augmenter.augmented [0] Sample.one_array
    ∧ length ([0] ++ new_spec) = 2 * length [0]
    ∧ length ([6%Z] ++ [6%Z]) = 2 * length [6%Z]
    ∧ take (length [0]) ([0] ++ new_spec) = [0]
    ∧ (forall i spec, [0] !! i = Some spec ->
         ([0] ++ new_spec) !! (length [0] + i)
         = Some (length (Augmenter.heap Sample.one_array) + i)
         ∧ (spec < length (Augmenter.heap Sample.one_array) ->
              shape (Augmenter.deref s'
                       (length (Augmenter.heap Sample.one_array) + i))
              = shape (Augmenter.deref Sample.one_array spec))
         ∧ ([6%Z] ++ [6%Z]) !! (length [0] + i) = [6%Z] !! i).
Proof.
  exact (DataSpecAugmentation_doubles [0] [6%Z] Sample.one_array eq_refl).
Defined.

Lemma ChargeDataset_lookup_policy_witness :
  (forall name, name ∈ ["000002.pt"; "000005.pt"] ->
     str_slice (join_path "data/Spectrograms" name) 18 (-3)
     ∉ Sample.id_list ->
     exists e,
       Loader.ChargeDataset Sample.to_db "data/Spectrograms" Sample.id_list
         Sample.genre_list Sample.library
       = (Raises e, Sample.library))
  ∧ ((forall name, name ∈ ["000002.pt"; "000005.pt"] ->
        str_slice (join_path "data/Spectrograms" name) 18 (-3)
        ∈ Sample.id_list
        ∧ is_Some (tensors Sample.library
                     !! join_path "data/Spectrograms" name)) ->
     exists images labels,
       Loader.ChargeDataset Sample.to_db "data/Spectrograms" Sample.id_list
         Sample.genre_list Sample.library
       = (Returns (images, labels), Sample.library)
       ∧ length images = length ["000002.pt"; "000005.pt"]
       ∧ length labels = length ["000002.pt"; "000005.pt"]
       ∧ (forall k name, ["000002.pt"; "000005.pt"] !! k = Some name ->
            exists j t g,
              Sample.id_list !! j
              = Some (str_slice (join_path "data/Spectrograms" name) 18 (-3))
              ∧ (forall j', j' < j ->
                   Sample.id_list !! j'
                   ≠ Some (str_slice (join_path "data/Spectrograms" name)
                             18 (-3)))
              ∧ Sample.genre_list !! j = Some g
              ∧ tensors Sample.library
                  !! join_path "data/Spectrograms" name = Some t
              ∧ images !! k = Some (Sample.to_db t)
              ∧ labels !! k = Some g)).
Proof.
  exact (ChargeDataset_lookup_policy Sample.to_db "data/Spectrograms"
           ["000002.pt"; "000005.pt"] Sample.id_list Sample.genre_list
           Sample.library eq_refl eq_refl).
Defined.

(** The sample library loads into the two arrays with the genres of their
    own tracks, although the identifier sequence lists them the other way
    round. *)
Example ChargeDataset_sample_run :
  Loader.ChargeDataset Sample.to_db "data/Spectrograms" Sample.id_list
    Sample.genre_list Sample.library
  = (Returns ([NdArray 2 2 [[1; 1]; [3; 3]]%Q; NdArray 1 3 [[1; 3; 5]]%Q],
              [7%Z; 6%Z]),
     Sample.library).
Proof. by vm_compute. Qed.

Lemma LoadDataPipeline_extraction_guard_witness :
  let w' := (Pipeline.LoadDataPipeline Sample.no_int Sample.load Sample.mel
               Sample.always_writable Sample.to_db [] Sample.empty_disk).2 in
  (calls (trace w') = calls (trace Sample.empty_disk)
   <-> length ([] : list string) = 7994)
  ∧ (length ([] : list string) = 7994 ->
     dirs w' = dirs Sample.empty_disk
     ∧ tensors w' = tensors Sample.empty_disk)
  ∧ (length ([] : list string) ≠ 7994 ->
       calls (trace w')
       = calls (trace Sample.empty_disk)
         ++ [("data/audio", "data/Spectrograms")]).
Proof.
  exact (LoadDataPipeline_extraction_guard Sample.no_int Sample.load
           Sample.mel Sample.always_writable Sample.to_db [] Sample.empty_disk
           [] [] [] eq_refl eq_refl).
Defined.

(** * Further properties *)

(** ** Shape normalisation: edges *)

Section NormalizerEdges.

Context {L : Type}.
Implicit Types (genres : list L) (spectrograms : list ndarray).

Lemma fix_one_no_label genres shapes s0 s1 i a :
  shapes !! 0 = Some s0 -> shapes !! 1 = Some s1 -> genres !! i = None ->
  Normalizer.fix_one genres shapes i a = Raises IndexError.
Proof.
  intros H0 H1 Hg. unfold Normalizer.fix_one.
  rewrite (getitem_Some _ _ _ H0), (getitem_Some _ _ _ H1). simpl.
  destruct (decide (shape a ≠ (s0, s1))); simpl;
    by rewrite (getitem_None _ _ Hg).
Qed.

Lemma fix_from_too_few_labels genres shapes s0 s1 spectrograms : forall i,
  shapes !! 0 = Some s0 -> shapes !! 1 = Some s1 ->
  i <= length genres -> length genres < i + length spectrograms ->
  Normalizer.fix_from genres shapes i spectrograms = Raises IndexError.
Proof.
  induction spectrograms as [|a rest IH]; intros i H0 H1 Hi Hlen; simpl in *.
  - lia.
  - destruct (decide (i < length genres)) as [Hlt|Hge].
    + destruct (lookup_lt_is_Some_2 genres i Hlt) as [g Hg].
      rewrite (fix_one_returns _ _ _ _ _ _ _ H0 H1 Hg). simpl.
      rewrite (IH (S i)) by (auto; lia). reflexivity.
    + rewrite (fix_one_no_label _ _ s0 s1); [done | done | done |].
      apply lookup_ge_None. lia.
Qed.

(** The crop never pads: every output array has, along each axis, the smaller
    of the target length and the length it had. *)
Theorem FixSizeSpectrogram_never_pads spectrograms genres shapes s0 s1 :
  shapes !! 0 = Some s0 -> shapes !! 1 = Some s1 ->
  length spectrograms <= length genres ->
  Forall wf_ndarray spectrograms ->
  exists out labels,
    Normalizer.FixSizeSpectrogram spectrograms genres shapes
    = Returns (out, labels)
    ∧ Forall2 (fun a b =>
                 shape b = (Nat.min s0 (shape0 a), Nat.min s1 (shape1 a))
                 ∧ wf_ndarray b) spectrograms out.
Proof.
  intros H0 H1 Hlen Hall. unfold Normalizer.FixSizeSpectrogram.
  rewrite (fix_from_returns _ _ s0 s1) by (auto; simpl; lia).
  eexists _, _. split; [reflexivity|].
  apply Forall2_fmap_r, Forall_Forall2_diag.
  eapply Forall_impl; [exact Hall|]. intros a Hwf. simpl.
  rewrite normalized_is_slice by done. split; [done|].
  by apply slice_prefix_wf.
Qed.

(** With fewer labels than arrays the function raises [IndexError]. *)
Theorem FixSizeSpectrogram_too_few_labels spectrograms genres shapes s0 s1 :
  shapes !! 0 = Some s0 -> shapes !! 1 = Some s1 ->
  length genres < length spectrograms ->
  Normalizer.FixSizeSpectrogram spectrograms genres shapes = Raises IndexError.
Proof.
  intros H0 H1 Hlen. unfold Normalizer.FixSizeSpectrogram.
  apply (fix_from_too_few_labels _ _ s0 s1); auto; simpl; lia.
Qed.

Lemma slice_prefix_idem a n m :
  slice_prefix (slice_prefix a n m) n m = slice_prefix a n m.
Proof.
  unfold slice_prefix. simpl. f_equal; [lia | lia |].
  rewrite <- fmap_take, take_take, Nat.min_id.
  rewrite <- list_fmap_compose. apply list_fmap_ext.
  intros i row _. simpl. by rewrite take_take, Nat.min_id.
Qed.

(** Normalising an already normalised set changes nothing. *)
Theorem FixSizeSpectrogram_idempotent spectrograms genres shapes s0 s1 :
  shapes !! 0 = Some s0 -> shapes !! 1 = Some s1 ->
  length genres = length spectrograms ->
  Forall wf_ndarray spectrograms ->
  exists out,
    Normalizer.FixSizeSpectrogram spectrograms genres shapes
    = Returns (out, genres)
    ∧ Normalizer.FixSizeSpectrogram out genres shapes = Returns (out, genres).
Proof.
  intros H0 H1 Hlen Hall. unfold Normalizer.FixSizeSpectrogram.
  exists (Normalizer.normalized s0 s1 <$> spectrograms). split.
  - rewrite (fix_from_returns _ _ s0 s1) by (auto; simpl; lia).
    by rewrite drop_0, take_ge by lia.
  - rewrite (fix_from_returns _ _ s0 s1)
      by (auto; simpl; rewrite length_fmap; lia).
    rewrite length_fmap, drop_0, take_ge by lia.
    f_equal. f_equal.
    rewrite <- list_fmap_compose.
    apply Forall_fmap_ext_1.
    eapply Forall_impl; [exact Hall|]. intros a Hwf. simpl.
    rewrite (normalized_is_slice s0 s1 a) by done.
    rewrite normalized_is_slice by (by apply slice_prefix_wf).
    apply slice_prefix_idem.
Qed.

End NormalizerEdges.

(** ** The target shape that the pipeline computes *)

Section TargetShape.

Import Pipeline.

Lemma insert_unique_elem x y l :
  y ∈ insert_unique x l <-> y = x ∨ y ∈ l.
Proof.
  induction l as [|z l IH]; simpl.
  - rewrite list_elem_of_singleton, elem_of_nil. tauto.
  - destruct (decide (x < z)); [by rewrite !elem_of_cons|].
    destruct (decide (x = z)) as [->|].
    + rewrite !elem_of_cons. tauto.
    + rewrite !elem_of_cons, IH. tauto.
Qed.

Lemma insert_unique_sorted x l :
  StronglySorted lt l -> StronglySorted lt (insert_unique x l).
Proof.
  induction 1 as [|z l Hs IH Hz]; simpl.
  - repeat constructor.
  - destruct (decide (x < z)) as [Hlt|Hge].
    + constructor; [by constructor|]. constructor; [done|].
      eapply Forall_impl; [exact Hz|]. simpl. lia.
    + destruct (decide (x = z)) as [->|Hne]; [by constructor|].
      constructor; [done|]. apply Forall_forall. intros y Hy.
      apply insert_unique_elem in Hy as [->|Hy]; [lia|].
      rewrite Forall_forall in Hz. by apply Hz.
Qed.

Lemma np_unique_elem y l : y ∈ np_unique l <-> y ∈ l.
Proof.
  induction l as [|x l IH]; simpl; [done|].
  rewrite insert_unique_elem, elem_of_cons, IH. tauto.
Qed.

Lemma np_unique_sorted l : StronglySorted lt (np_unique l).
Proof.
  induction l as [|x l IH]; simpl; [constructor|].
  by apply insert_unique_sorted.
Qed.

(** Two ascending lists without repetitions that hold the same values are
    the same list. *)
Lemma sorted_lt_unique (l1 l2 : list nat) :
  StronglySorted lt l1 -> StronglySorted lt l2 ->
  (forall x, x ∈ l1 <-> x ∈ l2) -> l1 = l2.
Proof.
  intros H1. revert l2.
  induction H1 as [|a l1 Hs1 IH Ha]; intros l2 H2 Heq.
  - destruct l2 as [|b l2]; [done|].
    exfalso. apply (not_elem_of_nil b). apply Heq. apply list_elem_of_here.
  - destruct H2 as [|b l2 Hs2 Hb].
    + exfalso. apply (not_elem_of_nil a). apply Heq. apply list_elem_of_here.
    + rewrite Forall_forall in Ha, Hb.
      assert (a = b) as ->.
      { pose proof (proj1 (Heq a) (list_elem_of_here _ _)) as Hab.
        pose proof (proj2 (Heq b) (list_elem_of_here _ _)) as Hba.
        apply elem_of_cons in Hab as [?|Hab]; [done|].
        apply elem_of_cons in Hba as [?|Hba]; [done|].
        specialize (Ha _ Hba). specialize (Hb _ Hab). lia. }
      f_equal. apply IH; [done|]. intros x. split; intros Hx.
      * pose proof (proj1 (Heq x) (list_elem_of_further _ _ _ Hx)) as Hx'.
        apply elem_of_cons in Hx' as [->|]; [|done].
        specialize (Ha _ Hx). lia.
      * pose proof (proj2 (Heq x) (list_elem_of_further _ _ _ Hx)) as Hx'.
        apply elem_of_cons in Hx' as [->|]; [|done].
        specialize (Hb _ Hx). lia.
Qed.

(** The values that the pipeline hands to [np.unique]. *)
Lemma shape_values_elem x (spectrograms : list ndarray) :
  x ∈ mjoin ((fun i => [shape0 i; shape1 i]) <$> spectrograms)
  <-> exists a, a ∈ spectrograms ∧ (x = shape0 a ∨ x = shape1 a).
Proof.
  rewrite list_elem_of_join. split.
  - intros (l & Hx & Hl). apply list_elem_of_fmap in Hl as (a & -> & Ha).
    exists a. split; [done|].
    rewrite !elem_of_cons, elem_of_nil in Hx. tauto.
  - intros (a & Ha & Hx). exists [shape0 a; shape1 a]. split.
    + rewrite !elem_of_cons, elem_of_nil. tauto.
    + apply list_elem_of_fmap. eauto.
Qed.

Lemma uniform_shapes_unique (spectrograms : list ndarray) H W :
  spectrograms ≠ [] ->
  Forall (fun a => shape a = (H, W)) spectrograms ->
  np_unique (mjoin ((fun i => [shape0 i; shape1 i]) <$> spectrograms))
  = if decide (H < W) then [H; W]
    else if decide (H = W) then [H] else [W; H].
Proof.
  intros Hne Hall. rewrite Forall_forall in Hall.
  apply sorted_lt_unique; [apply np_unique_sorted | |].
  - repeat case_decide; repeat constructor; lia.
  - intros x. rewrite np_unique_elem, shape_values_elem.
    destruct spectrograms as [|a0 rest]; [done|].
    assert (Ha0 : shape a0 = (H, W)) by (apply Hall, list_elem_of_here).
    unfold shape in Ha0. injection Ha0 as Ha0 Ha1.
    split.
    + intros (a & Ha & Hx). specialize (Hall a Ha). unfold shape in Hall.
      injection Hall as Hr Hc.
      repeat case_decide; rewrite !elem_of_cons, elem_of_nil; lia.
    + intros Hx. exists a0. split; [apply list_elem_of_here|].
      rewrite Ha0, Ha1.
      repeat case_decide; rewrite !elem_of_cons, elem_of_nil in Hx; lia.
Qed.

(** When all loaded spectrograms already have one shape [(H, W)], the target
    shape read off [np.unique] is right only for [H < W]: for [W < H] every
    array is cropped to [(W, W)], and for [H = W] the normalisation raises
    [IndexError]. *)
Theorem uniform_spectrograms_normalisation (spectrograms : list ndarray)
    (genres : list Z) H W :
  spectrograms ≠ [] ->
  Forall (fun a => wf_ndarray a ∧ shape a = (H, W)) spectrograms ->
  length genres = length spectrograms ->
  let shapes :=
    np_unique (mjoin ((fun i => [shape0 i; shape1 i]) <$> spectrograms)) in
  (H < W ->
   Normalizer.FixSizeSpectrogram spectrograms genres shapes
   = Returns (spectrograms, genres))
  ∧ (W < H ->
     exists out,
       Normalizer.FixSizeSpectrogram spectrograms genres shapes
       = Returns (out, genres)
       ∧ length out = length spectrograms
       ∧ Forall (fun b => shape b = (W, W)) out)
  ∧ (H = W ->
     Normalizer.FixSizeSpectrogram spectrograms genres shapes
     = Raises IndexError).
Proof.
  intros Hne Hall Hlen shapes.
  assert (Hshape : Forall (fun a => shape a = (H, W)) spectrograms)
    by (eapply Forall_impl; [exact Hall|]; by intros a [_ ?]).
  subst shapes. rewrite (uniform_shapes_unique _ H W Hne Hshape).
  unfold Normalizer.FixSizeSpectrogram. split; [|split].
  - intros Hlt. rewrite decide_True by done.
    rewrite (fix_from_returns _ _ H W) by (auto; simpl; lia).
    rewrite drop_0, take_ge by lia. f_equal. f_equal.
    rewrite <- (list_fmap_id spectrograms) at 2.
    apply Forall_fmap_ext_1. eapply Forall_impl; [exact Hshape|].
    intros a Ha. simpl. unfold Normalizer.normalized.
    by rewrite decide_False by auto.
  - intros Hlt. rewrite decide_False, decide_False by lia.
    rewrite (fix_from_returns _ _ W H) by (auto; simpl; lia).
    rewrite drop_0, take_ge by lia.
    eexists. split; [reflexivity|]. split; [by rewrite length_fmap|].
    apply Forall_fmap. eapply Forall_impl; [exact Hall|].
    intros a [Hwf Ha]. simpl. rewrite normalized_is_slice by done.
    unfold shape in *. injection Ha as Hr Hc. simpl. f_equal; lia.
  - intros ->. rewrite decide_False, decide_True by lia.
    destruct spectrograms as [|a rest]; [done|]. reflexivity.
Qed.

(** When all loaded spectrograms have [H] rows and more than [H] columns,
    the target shape is [H] rows by the smallest column count, and every
    normalised array has exactly that shape. *)
Theorem pipeline_target_shape (spectrograms : list ndarray)
    (genres : list Z) H :
  spectrograms ≠ [] ->
  Forall (fun a => wf_ndarray a ∧ shape0 a = H ∧ H < shape1 a) spectrograms ->
  length genres = length spectrograms ->
  let shapes :=
    np_unique (mjoin ((fun i => [shape0 i; shape1 i]) <$> spectrograms)) in
  exists Wmin out,
    (exists a, a ∈ spectrograms ∧ shape1 a = Wmin)
    ∧ (forall a, a ∈ spectrograms -> Wmin <= shape1 a)
    ∧ shapes !! 0 = Some H ∧ shapes !! 1 = Some Wmin
    ∧ Normalizer.FixSizeSpectrogram spectrograms genres shapes
      = Returns (out, genres)
    ∧ length out = length spectrograms
    ∧ Forall (fun b => shape b = (H, Wmin) ∧ wf_ndarray b) out.
Proof.
  intros Hne Hall Hlen shapes. rewrite Forall_forall in Hall.
  pose proof (np_unique_sorted
                (mjoin ((fun i => [shape0 i; shape1 i]) <$> spectrograms)))
    as Hsorted.
  assert (Helem : forall x, x ∈ shapes <->
             exists a, a ∈ spectrograms ∧ (x = shape0 a ∨ x = shape1 a)).
  { intros x. subst shapes. by rewrite np_unique_elem, shape_values_elem. }
  fold shapes in Hsorted.
  destruct spectrograms as [|a0 rest] eqn:Hspecs; [done|].
  rewrite <- Hspecs in *.
  assert (Ha0 : a0 ∈ spectrograms) by (rewrite Hspecs; apply list_elem_of_here).
  destruct (Hall a0 Ha0) as (Hwf0 & Hr0 & Hc0).
  assert (HH : H ∈ shapes) by (apply Helem; exists a0; auto).
  assert (Hge : forall x, x ∈ shapes -> H <= x).
  { intros x Hx. apply Helem in Hx as (a & Ha & [->| ->]);
      destruct (Hall a Ha) as (_ & ? & ?); lia. }
  destruct shapes as [|h t] eqn:Hshapes; [by apply elem_of_nil in HH|].
  apply StronglySorted_inv in Hsorted as [Hst Hht].
  rewrite Forall_forall in Hht.
  assert (h = H) as ->.
  { apply elem_of_cons in HH as [->|HH]; [done|].
    specialize (Hht _ HH). specialize (Hge h (list_elem_of_here _ _)). lia. }
  assert (Hwidth : forall a, a ∈ spectrograms -> shape1 a ∈ t).
  { intros a Ha. destruct (Hall a Ha) as (_ & ? & ?).
    assert (Hin : shape1 a ∈ H :: t) by (apply Helem; exists a; auto).
    apply elem_of_cons in Hin as [?|?]; [lia|done]. }
  destruct t as [|w0 t'];
    [exfalso; exact (proj1 (elem_of_nil _) (Hwidth a0 Ha0))|].
  apply StronglySorted_inv in Hst as [_ Hw0]. rewrite Forall_forall in Hw0.
  assert (Hw0in : exists a, a ∈ spectrograms ∧ shape1 a = w0).
  { assert (Hin : w0 ∈ H :: w0 :: t')
      by apply list_elem_of_further, list_elem_of_here.
    apply Helem in Hin as (a & Ha & [Hx|Hx]); [|by eauto].
    destruct (Hall a Ha) as (_ & ? & ?).
    specialize (Hht w0 (list_elem_of_here _ _)). lia. }
  assert (Hmin : forall a, a ∈ spectrograms -> w0 <= shape1 a).
  { intros a Ha. specialize (Hwidth a Ha).
    apply elem_of_cons in Hwidth as [->|Hin]; [done|].
    specialize (Hw0 _ Hin). lia. }
  exists w0, (Normalizer.normalized H w0 <$> spectrograms).
  split; [done|]. split; [done|]. split; [done|]. split; [done|].
  split; [|split].
  - unfold Normalizer.FixSizeSpectrogram.
    rewrite (fix_from_returns _ _ H w0) by (auto; simpl; lia).
    by rewrite drop_0, take_ge by lia.
  - by rewrite length_fmap.
  - apply Forall_fmap, Forall_forall. intros a Ha. simpl.
    destruct (Hall a Ha) as (Hwf & Hr & Hc). specialize (Hmin a Ha).
    rewrite normalized_is_slice by done. split; [|by apply slice_prefix_wf].
    unfold shape, slice_prefix. simpl. f_equal; lia.
Qed.

End TargetShape.

Lemma FixSizeSpectrogram_never_pads_witness :
  exists out labels,
    Normalizer.FixSizeSpectrogram
      [NdArray 2 3 [[1; 2; 3]; [4; 5; 6]]%Q; NdArray 1 2 [[7; 8]]%Q]
      [6%Z; 7%Z] [2; 2]
    = Returns (out, labels)
    ∧ Forall2 (fun a b =>
                 shape b = (Nat.min 2 (shape0 a), Nat.min 2 (shape1 a))
                 ∧ wf_ndarray b)
        [NdArray 2 3 [[1; 2; 3]; [4; 5; 6]]%Q; NdArray 1 2 [[7; 8]]%Q] out.
Proof.
  exact (FixSizeSpectrogram_never_pads
           [NdArray 2 3 [[1; 2; 3]; [4; 5; 6]]%Q; NdArray 1 2 [[7; 8]]%Q]
           [6%Z; 7%Z] [2; 2] 2 2 eq_refl eq_refl ltac:(simpl; lia)
           ltac:(repeat constructor)).
Defined.

Lemma FixSizeSpectrogram_too_few_labels_witness :
  Normalizer.FixSizeSpectrogram
    [NdArray 2 3 [[1; 2; 3]; [4; 5; 6]]%Q; NdArray 1 2 [[7; 8]]%Q]
    [6%Z] [2; 2]
  = Raises IndexError.
Proof.
  exact (FixSizeSpectrogram_too_few_labels
           [NdArray 2 3 [[1; 2; 3]; [4; 5; 6]]%Q; NdArray 1 2 [[7; 8]]%Q]
           [6%Z] [2; 2] 2 2 eq_refl eq_refl ltac:(simpl; lia)).
Defined.

Lemma FixSizeSpectrogram_idempotent_witness :
  exists out,
    Normalizer.FixSizeSpectrogram
      [NdArray 2 3 [[1; 2; 3]; [4; 5; 6]]%Q; NdArray 1 2 [[7; 8]]%Q]
      [6%Z; 7%Z] [1; 2]
    = Returns (out, [6%Z; 7%Z])
    ∧ Normalizer.FixSizeSpectrogram out [6%Z; 7%Z] [1; 2]
      = Returns (out, [6%Z; 7%Z]).
Proof.
  exact (FixSizeSpectrogram_idempotent
           [NdArray 2 3 [[1; 2; 3]; [4; 5; 6]]%Q; NdArray 1 2 [[7; 8]]%Q]
           [6%Z; 7%Z] [1; 2] 1 2 eq_refl eq_refl eq_refl
           ltac:(repeat constructor)).
Defined.

Lemma uniform_spectrograms_normalisation_witness :
  let spectrograms := [NdArray 3 2 [[1; 2]; [3; 4]; [5; 6]]%Q] in
  let shapes :=
    Pipeline.np_unique
      (mjoin ((fun i => [shape0 i; shape1 i]) <$> spectrograms)) in
  (3 < 2 ->
   Normalizer.FixSizeSpectrogram spectrograms [6%Z] shapes
   = Returns (spectrograms, [6%Z]))
  ∧ (2 < 3 ->
     exists out,
       Normalizer.FixSizeSpectrogram spectrograms [6%Z] shapes
       = Returns (out, [6%Z])
       ∧ length out = length spectrograms
       ∧ Forall (fun b => shape b = (2, 2)) out)
  ∧ (3 = 2 ->
     Normalizer.FixSizeSpectrogram spectrograms [6%Z] shapes
     = Raises IndexError).
Proof.
  exact (uniform_spectrograms_normalisation
           [NdArray 3 2 [[1; 2]; [3; 4]; [5; 6]]%Q] [6%Z] 3 2
           ltac:(done) ltac:(repeat constructor) eq_refl).
Defined.

Lemma pipeline_target_shape_witness :
  let spectrograms :=
    [NdArray 2 4 [[1; 2; 3; 4]; [5; 6; 7; 8]]%Q;
     NdArray 2 3 [[1; 2; 3]; [4; 5; 6]]%Q] in
  let shapes :=
    Pipeline.np_unique
      (mjoin ((fun i => [shape0 i; shape1 i]) <$> spectrograms)) in
  exists Wmin out,
    (exists a, a ∈ spectrograms ∧ shape1 a = Wmin)
    ∧ (forall a, a ∈ spectrograms -> Wmin <= shape1 a)
    ∧ shapes !! 0 = Some 2 ∧ shapes !! 1 = Some Wmin
    ∧ Normalizer.FixSizeSpectrogram spectrograms [6%Z; 7%Z] shapes
      = Returns (out, [6%Z; 7%Z])
    ∧ length out = length spectrograms
    ∧ Forall (fun b => shape b = (2, Wmin) ∧ wf_ndarray b) out.
Proof.
  exact (pipeline_target_shape
           [NdArray 2 4 [[1; 2; 3; 4]; [5; 6; 7; 8]]%Q;
            NdArray 2 3 [[1; 2; 3]; [4; 5; 6]]%Q] [6%Z; 7%Z] 2
           ltac:(done) ltac:(repeat constructor; simpl; lia) eq_refl).
Defined.

(** ** Augmentation: edges and bookkeeping *)

Section AugmenterEdges.

Import Augmenter.

Lemma zero_range_empty lo hi row : hi <= lo -> zero_range lo hi row = row.
Proof.
  intros Hle. unfold zero_range.
  rewrite (imap_ext _ (fun _ x => x)).
  - rewrite (imap_const id). apply list_fmap_id.
  - intros i x _. simpl. rewrite decide_False; [done | lia].
Qed.

Lemma apply_band_empty b a :
  num_freqs_to_mask b = 0%Z -> num_frames_to_mask b = 0%Z ->
  apply_band b a = a.
Proof.
  intros Hf Ht. unfold apply_band, zero_rows, zero_columns.
  rewrite Hf, Ht, !Z.add_0_r. destruct a as [n m rs]. simpl. f_equal.
  rewrite (imap_ext _ (fun _ row => row)).
  - rewrite (imap_const id), list_fmap_id.
    rewrite (list_fmap_ext _ id); [apply list_fmap_id|].
    intros i row _. by apply zero_range_empty.
  - intros i row _. simpl. rewrite decide_False; [done | lia].
Qed.

Lemma advance_advance n m g : advance n (advance m g) = advance (n + m) g.
Proof. unfold advance. simpl. f_equal. lia. Qed.

Lemma advance_0 g : advance 0 g = g.
Proof. by destruct g. Qed.

(** The rounds take two draws from each generator per round. *)
Lemma mask_rounds_rng num_mask fmax tmax l : forall s,
  l < length (heap s) ->
  py_random (mask_rounds num_mask fmax tmax l s).2
  = advance (2 * num_mask) (py_random s)
  ∧ np_random (mask_rounds num_mask fmax tmax l s).2
    = advance (2 * num_mask) (np_random s).
Proof.
  induction num_mask as [|n IH]; intros s Hl.
  - simpl. by rewrite !advance_0.
  - rewrite mask_rounds_S, mask_round_eq by done. cbv beta iota zeta.
    match goal with
    | |- context [mask_rounds n fmax tmax l ?st] =>
        remember st as s1 eqn:Hs1
    end.
    assert (Hl1 : l < length (heap s1))
      by (rewrite Hs1; simpl; by rewrite length_insert).
    destruct (IH s1 Hl1) as [Hpy Hnp].
    destruct (mask_rounds n fmax tmax l s1) as [bs s2]. simpl in *.
    rewrite Hpy, Hnp, Hs1. simpl. rewrite !advance_advance.
    split; f_equal; lia.
Qed.

(** [spec_augment] takes [2 * num_mask] draws from [random] and as many from
    [numpy.random], whatever the array holds. *)
Lemma spec_augment_rng spec num_mask fmax tmax s :
  py_random (spec_augment spec num_mask fmax tmax s).2
  = advance (2 * num_mask) (py_random s)
  ∧ np_random (spec_augment spec num_mask fmax tmax s).2
    = advance (2 * num_mask) (np_random s).
Proof.
  unfold spec_augment, spec_augment_bands, copy. cbv beta iota zeta.
  match goal with
  | |- context [mask_rounds num_mask fmax tmax _ ?st] =>
      remember st as s1 eqn:Hs1
  end.
  assert (Hl : length (heap s) < length (heap s1)).
  { rewrite Hs1. simpl. rewrite length_app. simpl. lia. }
  destruct (mask_rounds_rng num_mask fmax tmax _ s1 Hl) as [Hpy Hnp].
  destruct (mask_rounds num_mask fmax tmax (length (heap s)) s1) as [bs s2].
  simpl in *. by rewrite Hpy, Hnp, Hs1.
Qed.

Lemma augmented_rng spec_list : forall s,
  py_random (augmented spec_list s).2
  = advance (4 * length spec_list) (py_random s)
  ∧ np_random (augmented spec_list s).2
    = advance (4 * length spec_list) (np_random s).
Proof.
  induction spec_list as [|spec rest IH]; intros s.
  - simpl. by rewrite !advance_0.
  - rewrite augmented_cons.
    destruct (spec_augment_rng spec default_num_mask
                default_freq_masking_max_percentage
                default_time_masking_max_percentage s) as [Hpy Hnp].
    destruct (spec_augment spec default_num_mask
                default_freq_masking_max_percentage
                default_time_masking_max_percentage s) as [l s1].
    destruct (IH s1) as [Hpy1 Hnp1].
    destruct (augmented rest s1) as [ls s2]. simpl in *.
    rewrite Hpy1, Hnp1, Hpy, Hnp, !advance_advance.
    unfold default_num_mask. split; f_equal; lia.
Qed.

(** Augmenting [n] arrays takes exactly [4 * n] draws from each of the two
    generators, whatever the arrays hold; the heap gains [n] arrays. *)
Theorem DataSpecAugmentation_draws {L : Type} (spec_list : list loc)
    (genres_list : list L) s :
  length spec_list <= length genres_list ->
  let s' := (DataSpecAugmentation spec_list genres_list s).2 in
  py_random s' = advance (4 * length spec_list) (py_random s)
  ∧ np_random s' = advance (4 * length spec_list) (np_random s)
  ∧ length (heap s') = length (heap s) + length spec_list.
Proof.
  intros Hlen s'. subst s'. unfold DataSpecAugmentation, bind.
  rewrite augment_from_eq by (simpl; lia).
  destruct (augmented_rng spec_list s) as [Hpy Hnp].
  destruct (augmented_fresh spec_list s) as (news & Hheap & _ & Hall).
  simpl. split; [done|]. split; [done|].
  rewrite Hheap, length_app. f_equal.
  symmetry. by eapply Forall2_length.
Qed.

(** The loop started at position [i] with too few labels left stops at the
    first array without a label, after copying it. *)
Lemma augment_from_too_few_labels {L : Type} (genres_list : list L)
    spec_list : forall i s,
  i <= length genres_list ->
  length genres_list < i + length spec_list ->
  exists s',
    augment_from genres_list i spec_list s = (Raises IndexError, s')
    ∧ length (heap s') = length (heap s) + (length genres_list - i) + 1.
Proof.
  induction spec_list as [|spec rest IH]; intros i s Hi Hlen; simpl in Hlen.
  - lia.
  - rewrite augment_from_cons. unfold bind at 1.
    destruct (spec_augment_fresh spec default_num_mask
                default_freq_masking_max_percentage
                default_time_masking_max_percentage s) as (a & _ & Ha & _).
    destruct (spec_augment spec default_num_mask
                default_freq_masking_max_percentage
                default_time_masking_max_percentage s) as [l s1].
    simpl in Ha. unfold bind at 1, lift.
    destruct (decide (i < length genres_list)) as [Hlt|Hge].
    + destruct (lookup_lt_is_Some_2 genres_list i Hlt) as [g Hg].
      rewrite (getitem_Some _ _ _ Hg). unfold bind.
      destruct (IH (S i) s1) as (s2 & -> & Hh); [lia | lia |].
      exists s2. split; [done|].
      rewrite Hh, Ha, length_app. simpl. lia.
    + rewrite getitem_None by (apply lookup_ge_None; lia).
      exists s1. split; [done|]. rewrite Ha, length_app. simpl. lia.
Qed.

(** With fewer labels than arrays [DataSpecAugmentation] raises
    [IndexError] before either list is extended; by then it has made a copy of
    each array that has a label, and of the first one that has none. *)
Theorem DataSpecAugmentation_too_few_labels {L : Type}
    (spec_list : list loc) (genres_list : list L) s :
  length genres_list < length spec_list ->
  exists s',
    DataSpecAugmentation spec_list genres_list s = (Raises IndexError, s')
    ∧ length (heap s') = length (heap s) + length genres_list + 1.
Proof.
  intros Hlen. unfold DataSpecAugmentation, bind.
  destruct (augment_from_too_few_labels genres_list spec_list 0 s)
    as (s' & -> & Hh); [lia | simpl; lia |].
  exists s'. split; [done|]. rewrite Hh. lia.
Qed.

(** With more labels than arrays [DataSpecAugmentation] returns, and the two
    lists no longer match: the spectrograms number twice the arrays, the
    labels all the labels plus one per array. *)
Theorem DataSpecAugmentation_surplus_labels {L : Type}
    (spec_list : list loc) (genres_list : list L) s :
  length spec_list < length genres_list ->
  exists out_specs out_genres,
    (DataSpecAugmentation spec_list genres_list s).1
    = Returns (out_specs, out_genres)
    ∧ out_genres = genres_list ++ take (length spec_list) genres_list
    ∧ length out_specs = 2 * length spec_list
    ∧ length out_genres = length genres_list + length spec_list
    ∧ length out_specs < length out_genres.
Proof.
  intros Hlen. unfold DataSpecAugmentation, bind.
  rewrite augment_from_eq by (simpl; lia).
  destruct (augmented_fresh spec_list s) as (news & _ & Hseq & _).
  simpl. eexists _, _. split; [reflexivity|].
  rewrite drop_0. split; [done|].
  rewrite !length_app, Hseq, length_seq, length_take. lia.
Qed.

End AugmenterEdges.

Section AugmenterInvariants.

Import Augmenter.

Lemma default_percentages_in_range :
  (0 <= default_freq_masking_max_percentage)%Q
  ∧ (default_freq_masking_max_percentage <= 1)%Q
  ∧ (0 <= default_time_masking_max_percentage)%Q
  ∧ (default_time_masking_max_percentage <= 1)%Q.
Proof.
  unfold default_freq_masking_max_percentage,
    default_time_masking_max_percentage, Qle. simpl. lia.
Qed.

(** On an array of at most 3 rows and 6 columns every run that the default
    percentages allow is empty, so the rounds leave the heap as it is. *)
Lemma mask_rounds_small num_mask l : forall s,
  l < length (heap s) ->
  valid_rng (py_random s) -> valid_rng (np_random s) ->
  shape0 (deref s l) <= 3 -> shape1 (deref s l) <= 6 ->
  heap (mask_rounds num_mask default_freq_masking_max_percentage
          default_time_masking_max_percentage l s).2 = heap s.
Proof.
  destruct default_percentages_in_range as (Hf0 & Hf1 & Ht0 & Ht1).
  induction num_mask as [|n IH]; intros s Hl Hpy Hnp Hr Hc; [done|].
  rewrite mask_rounds_S, mask_round_eq by done. cbv beta iota zeta.
  set (b := band_of _ _ _ _ _ _ _).
  assert (Hb : band_within default_freq_masking_max_percentage
                 default_time_masking_max_percentage
                 (shape0 (deref s l)) (shape1 (deref s l)) b).
  { subst b. apply band_of_within; try done; apply Hpy || apply Hnp. }
  destruct (default_band_percentages _ _ _ Hb) as [Hnf Hnt].
  destruct Hb as (Hnf0 & _ & _ & _ & Hnt0 & _ & _ & _).
  rewrite apply_band_empty by lia.
  rewrite (list_insert_id (heap s) l (deref s l))
    by (unfold deref; by apply list_lookup_lookup_total_lt).
  match goal with
  | |- context [mask_rounds n _ _ l ?st] => remember st as s1 eqn:Hs1
  end.
  assert (Hh1 : heap s1 = heap s) by (by rewrite Hs1).
  assert (Hd1 : deref s1 l = deref s l) by (unfold deref; by rewrite Hh1).
  specialize (IH s1). rewrite Hh1, Hd1 in IH.
  assert (Hpy1 : valid_rng (py_random s1))
    by (rewrite Hs1; apply valid_rng_advance, Hpy).
  assert (Hnp1 : valid_rng (np_random s1))
    by (rewrite Hs1; apply valid_rng_advance, Hnp).
  specialize (IH Hl Hpy1 Hnp1 Hr Hc).
  destruct (mask_rounds n _ _ l s1) as [bs s2]. exact IH.
Qed.

(** With the default percentages [spec_augment] masks nothing of an array of
    at most 3 rows and 6 columns: [int] truncates every width to 0, and the
    result is an exact copy. *)
Theorem spec_augment_small_array_is_copy spec num_mask s :
  valid_rng (py_random s) -> valid_rng (np_random s) ->
  shape0 (deref s spec) <= 3 -> shape1 (deref s spec) <= 6 ->
  let res := spec_augment spec num_mask default_freq_masking_max_percentage
               default_time_masking_max_percentage s in
  res.1 = length (heap s)
  ∧ heap res.2 = heap s ++ [deref s spec]
  ∧ deref res.2 res.1 = deref s spec.
Proof.
  intros Hpy Hnp Hr Hc. cbv zeta.
  unfold spec_augment, spec_augment_bands, copy. cbv beta iota zeta.
  match goal with
  | |- context [mask_rounds num_mask _ _ _ ?st] => remember st as s1 eqn:Hs1
  end.
  assert (Hl : length (heap s) < length (heap s1)).
  { rewrite Hs1. simpl. rewrite length_app. simpl. lia. }
  assert (Hsrc : deref s1 (length (heap s)) = deref s spec).
  { rewrite Hs1. unfold deref. simpl.
    rewrite lookup_total_app_r by lia. by rewrite Nat.sub_diag. }
  pose proof (mask_rounds_small num_mask (length (heap s)) s1 Hl) as H.
  rewrite Hsrc in H.
  assert (Hpy1 : valid_rng (py_random s1)) by (by rewrite Hs1).
  assert (Hnp1 : valid_rng (np_random s1)) by (by rewrite Hs1).
  specialize (H Hpy1 Hnp1 Hr Hc).
  destruct (mask_rounds num_mask _ _ (length (heap s)) s1) as [bs s2].
  simpl in *. split; [done|].
  assert (Hheap : heap s2 = heap s ++ [deref s spec]) by (by rewrite H, Hs1).
  split; [done|]. unfold deref at 1. rewrite Hheap.
  rewrite lookup_total_app_r by lia. by rewrite Nat.sub_diag.
Qed.

Lemma apply_band_wf b a : wf_ndarray a -> wf_ndarray (apply_band b a).
Proof.
  intros [Hr Hc]. unfold apply_band, zero_rows, zero_columns. split; simpl.
  - by rewrite length_imap, length_fmap.
  - rewrite Forall_forall. intros row Hrow.
    apply list_elem_of_lookup in Hrow as [i Hi].
    rewrite list_lookup_imap, list_lookup_fmap in Hi.
    destruct (rows a !! i) as [r|] eqn:Hri; [|done]. simpl in Hi.
    rewrite Forall_forall in Hc.
    assert (Hlen : length r = shape1 a).
    { apply Hc. apply list_elem_of_lookup. eauto. }
    injection Hi as <-. unfold zero_range.
    case_decide; by rewrite ?length_fmap, length_imap.
Qed.

Lemma mask_rounds_wf num_mask fmax tmax l : forall s,
  l < length (heap s) -> wf_ndarray (deref s l) ->
  wf_ndarray (deref (mask_rounds num_mask fmax tmax l s).2 l).
Proof.
  induction num_mask as [|n IH]; intros s Hl Hwf; [done|].
  rewrite mask_rounds_S, mask_round_eq by done. cbv beta iota zeta.
  set (b := band_of _ _ _ _ _ _ _).
  match goal with
  | |- context [mask_rounds n _ _ l ?st] => remember st as s1 eqn:Hs1
  end.
  assert (Hl1 : l < length (heap s1))
    by (rewrite Hs1; simpl; by rewrite length_insert).
  assert (Hd1 : deref s1 l = apply_band b (deref s l)).
  { rewrite Hs1. unfold deref. simpl.
    by rewrite list_lookup_total_insert_eq. }
  specialize (IH s1 Hl1). rewrite Hd1 in IH.
  specialize (IH (apply_band_wf b _ Hwf)).
  destruct (mask_rounds n _ _ l s1) as [bs s2]. exact IH.
Qed.

(** Whatever the parameters and the draws, the array that [spec_augment]
    returns is a well-formed 2-D array when its argument is one. *)
Theorem spec_augment_wf spec num_mask fmax tmax s :
  wf_ndarray (deref s spec) ->
  let res := spec_augment spec num_mask fmax tmax s in
  wf_ndarray (deref res.2 res.1) ∧ shape (deref res.2 res.1) = shape (deref s spec).
Proof.
  intros Hwf. cbv zeta.
  destruct (spec_augment_fresh spec num_mask fmax tmax s)
    as (a & Hres & Hheap & Hshape).
  unfold spec_augment, spec_augment_bands, copy in *. cbv beta iota zeta in *.
  match goal with
  | |- context [mask_rounds num_mask _ _ _ ?st] => remember st as s1 eqn:Hs1
  end.
  assert (Hl : length (heap s) < length (heap s1)).
  { rewrite Hs1. simpl. rewrite length_app. simpl. lia. }
  assert (Hsrc : deref s1 (length (heap s)) = deref s spec).
  { rewrite Hs1. unfold deref. simpl.
    rewrite lookup_total_app_r by lia. by rewrite Nat.sub_diag. }
  pose proof (mask_rounds_wf num_mask fmax tmax (length (heap s)) s1 Hl) as H.
  rewrite Hsrc in H. specialize (H Hwf).
  destruct (mask_rounds num_mask _ _ (length (heap s)) s1) as [bs s2].
  simpl in *. split; [done|].
  rewrite <- Hshape. f_equal. unfold deref. rewrite Hheap.
  rewrite lookup_total_app_r by lia. by rewrite Nat.sub_diag.
Qed.

(** A cell after an assignment of 0 to a slice: what it held, or 0. *)
Abbreviation kept_or_zero x y :=
  (y = x ∨ y = (fun _ : Q => 0%Q) <$> x).

Lemma kept_or_zero_trans (x y z : option Q) :
  kept_or_zero x y -> kept_or_zero y z -> kept_or_zero x z.
Proof.
  intros [->| ->] [->| ->]; auto.
  right. by destruct x.
Qed.

Lemma zero_range_cell lo hi row c :
  kept_or_zero (row !! c) (zero_range lo hi row !! c).
Proof.
  unfold zero_range. rewrite list_lookup_imap.
  destruct (row !! c) as [x|]; simpl; [|by left].
  case_decide; auto.
Qed.

Lemma zero_columns_cell lo hi a r c :
  kept_or_zero (cell a r c) (cell (zero_columns lo hi a) r c).
Proof.
  unfold cell, zero_columns. simpl. rewrite list_lookup_fmap.
  destruct (rows a !! r) as [row|]; simpl; [|by left].
  apply zero_range_cell.
Qed.

Lemma zero_rows_cell lo hi a r c :
  kept_or_zero (cell a r c) (cell (zero_rows lo hi a) r c).
Proof.
  unfold cell, zero_rows. simpl. rewrite list_lookup_imap.
  destruct (rows a !! r) as [row|]; simpl; [|by left].
  case_decide; [|by left]. right. by rewrite list_lookup_fmap.
Qed.

Lemma apply_band_cell b a r c :
  kept_or_zero (cell a r c) (cell (apply_band b a) r c).
Proof.
  unfold apply_band.
  eapply kept_or_zero_trans; [apply zero_columns_cell | apply zero_rows_cell].
Qed.

Lemma mask_rounds_cell num_mask fmax tmax l r c : forall s,
  l < length (heap s) ->
  kept_or_zero (cell (deref s l) r c)
    (cell (deref (mask_rounds num_mask fmax tmax l s).2 l) r c).
Proof.
  induction num_mask as [|n IH]; intros s Hl; [by left|].
  rewrite mask_rounds_S, mask_round_eq by done. cbv beta iota zeta.
  set (b := band_of _ _ _ _ _ _ _).
  match goal with
  | |- context [mask_rounds n _ _ l ?st] => remember st as s1 eqn:Hs1
  end.
  assert (Hl1 : l < length (heap s1))
    by (rewrite Hs1; simpl; by rewrite length_insert).
  assert (Hd1 : deref s1 l = apply_band b (deref s l)).
  { rewrite Hs1. unfold deref. simpl.
    by rewrite list_lookup_total_insert_eq. }
  specialize (IH s1 Hl1). rewrite Hd1 in IH.
  destruct (mask_rounds n _ _ l s1) as [bs s2].
  eapply kept_or_zero_trans; [apply (apply_band_cell b)|exact IH].
Qed.

(** [spec_augment] only ever writes zeros: whatever the parameters and the
    draws, every cell of the array it returns holds what the same cell of
    its argument holds, or 0, and the result has a cell exactly where the
    argument has one. *)
Theorem spec_augment_only_zeroes spec num_mask fmax tmax s r c :
  let res := spec_augment spec num_mask fmax tmax s in
  let old := cell (deref s spec) r c in
  let new := cell (deref res.2 res.1) r c in
  (new = old ∨ new = Some 0%Q) ∧ (is_Some new <-> is_Some old).
Proof.
  cbv zeta.
  unfold spec_augment, spec_augment_bands, copy. cbv beta iota zeta.
  match goal with
  | |- context [mask_rounds num_mask _ _ _ ?st] => remember st as s1 eqn:Hs1
  end.
  assert (Hl : length (heap s) < length (heap s1)).
  { rewrite Hs1. simpl. rewrite length_app. simpl. lia. }
  assert (Hsrc : deref s1 (length (heap s)) = deref s spec).
  { rewrite Hs1. unfold deref. simpl.
    rewrite lookup_total_app_r by lia. by rewrite Nat.sub_diag. }
  pose proof (mask_rounds_cell num_mask fmax tmax (length (heap s)) r c s1 Hl)
    as H.
  rewrite Hsrc in H.
  destruct (mask_rounds num_mask _ _ (length (heap s)) s1) as [bs s2].
  simpl in *.
  destruct H as [->| ->]; [by split; [left|]|].
  destruct (cell (deref s spec) r c) as [x|]; simpl.
  - split; [by right|]. split; eauto.
  - split; [by left|]. done.
Qed.

End AugmenterInvariants.

Lemma half_valid : Augmenter.valid_rng Sample.half.
Proof. intros n. split; unfold Qle; simpl; lia. Qed.

Lemma DataSpecAugmentation_draws_witness :
  let s' := (Augmenter.DataSpecAugmentation [0] [6%Z] Sample.one_array).2 in
  Augmenter.py_random s'
  = Augmenter.advance (4 * length [0])
      (Augmenter.py_random Sample.one_array)
  ∧ Augmenter.np_random s'
    = Augmenter.advance (4 * length [0])
        (Augmenter.np_random Sample.one_array)
  ∧ length (Augmenter.heap s')
    = length (Augmenter.heap Sample.one_array) + length [0].
Proof.
  exact (DataSpecAugmentation_draws [0] [6%Z] Sample.one_array
           ltac:(simpl; lia)).
Defined.

Lemma DataSpecAugmentation_too_few_labels_witness :
  exists s',
    Augmenter.DataSpecAugmentation [0; 0] [6%Z] Sample.one_array
    = (Raises IndexError, s')
    ∧ length (Augmenter.heap s')
      = length (Augmenter.heap Sample.one_array) + length [6%Z] + 1.
Proof.
  exact (DataSpecAugmentation_too_few_labels [0; 0] [6%Z] Sample.one_array
           ltac:(simpl; lia)).
Defined.

Lemma DataSpecAugmentation_surplus_labels_witness :
  exists out_specs out_genres,
    (Augmenter.DataSpecAugmentation [0] [6%Z; 7%Z] Sample.one_array).1
    = Returns (out_specs, out_genres)
    ∧ out_genres = [6%Z; 7%Z] ++ take (length [0]) [6%Z; 7%Z]
    ∧ length out_specs = 2 * length [0]
    ∧ length out_genres = length [6%Z; 7%Z] + length [0]
    ∧ length out_specs < length out_genres.
Proof.
  exact (DataSpecAugmentation_surplus_labels [0] [6%Z; 7%Z] Sample.one_array
           ltac:(simpl; lia)).
Defined.

Lemma spec_augment_small_array_is_copy_witness :
  let res := Augmenter.spec_augment 0 2
               Augmenter.default_freq_masking_max_percentage
               Augmenter.default_time_masking_max_percentage
               Sample.one_array in
  res.1 = length (Augmenter.heap Sample.one_array)
  ∧ Augmenter.heap res.2
    = Augmenter.heap Sample.one_array
      ++ [Augmenter.deref Sample.one_array 0]
  ∧ Augmenter.deref res.2 res.1 = Augmenter.deref Sample.one_array 0.
Proof.
  exact (spec_augment_small_array_is_copy 0 2 Sample.one_array
           half_valid half_valid ltac:(simpl; lia) ltac:(simpl; lia)).
Defined.

Lemma spec_augment_wf_witness :
  let res := Augmenter.spec_augment 0 2 (15 # 100) (25 # 100)
               Sample.one_array in
  wf_ndarray (Augmenter.deref res.2 res.1)
  ∧ shape (Augmenter.deref res.2 res.1)
    = shape (Augmenter.deref Sample.one_array 0).
Proof.
  exact (spec_augment_wf 0 2 (15 # 100) (25 # 100) Sample.one_array
           ltac:(repeat constructor)).
Defined.

(** ** Genre resolution: results and failures *)

Section ResolverEdges.

Variable py_int : string -> result Z.

(** The label of an identifier: the code of the top genre of the first row
    of the tracks table that carries the identifier as a number. *)
Lemma resolve_all_returns dict_genre tracks w entries :
  (forall p, p ∈ entries -> is_file p w = true ->
     exists k s g,
       py_int (str_slice p (-10) (-4)) = Returns k
       ∧ Resolver.genre_top_of tracks k = Returns (Resolver.Str s)
       ∧ dict_genre !! s = Some g) ->
  exists id_list genre_list,
    Resolver.resolve_all py_int dict_genre tracks entries w
    = Returns (id_list, genre_list)
    ∧ id_list = (fun p => str_slice p (-10) (-4))
                <$> filter (fun p => is_file p w = true) entries
    ∧ Forall2 (fun id g =>
                 exists k s,
                   py_int id = Returns k
                   ∧ Resolver.genre_top_of tracks k
                     = Returns (Resolver.Str s)
                   ∧ dict_genre !! s = Some g) id_list genre_list.
Proof.
  induction entries as [|p rest IH]; intros Hall.
  - exists [], []. split; [done|]. split; [done|]. constructor.
  - destruct IH as (ids & gs & Hrun & Hids & Hrel).
    { intros q Hq. apply Hall. by apply list_elem_of_further. }
    simpl. unfold Resolver.resolve_one. rewrite filter_cons.
    destruct (is_file p w) eqn:Hf.
    + destruct (Hall p (list_elem_of_here _ _) Hf) as (k & s & g & Hk & Ht & Hg).
      rewrite Hk. simpl. rewrite Ht. simpl.
      unfold Resolver.dict_getitem. rewrite Hg. simpl. rewrite Hrun. simpl.
      eexists _, _. split; [reflexivity|].
      split; [by rewrite Hids|]. constructor; [|done]. eauto.
    + simpl. rewrite Hrun. simpl. eexists _, _. split; [reflexivity|].
      by split.
Qed.

(** When every file of the directory has a numeric identifier, a row in the
    tracks table and a genre in the dictionary, [GetGenres] returns one
    identifier and one label per file, in directory order and skipping
    sub-directories; each label is the code of the top genre of the track
    with that identifier; the file system is left as it was. *)
Theorem GetGenres_returns dict_genre tracks path names w :
  dirs w !! path = Some names ->
  (forall name, name ∈ names -> is_file (join_path path name) w = true ->
     exists k s g,
       py_int (str_slice (join_path path name) (-10) (-4)) = Returns k
       ∧ Resolver.genre_top_of tracks k = Returns (Resolver.Str s)
       ∧ dict_genre !! s = Some g) ->
  exists id_list genre_list,
    Resolver.GetGenres py_int path dict_genre tracks w
    = (Returns (id_list, genre_list), w)
    ∧ id_list = (fun p => str_slice p (-10) (-4))
                <$> filter (fun p => is_file p w = true)
                      (join_path path <$> names)
    ∧ length genre_list = length id_list
    ∧ Forall2 (fun id g =>
                 exists k s,
                   py_int id = Returns k
                   ∧ Resolver.genre_top_of tracks k
                     = Returns (Resolver.Str s)
                   ∧ dict_genre !! s = Some g) id_list genre_list.
Proof.
  intros Hdir Hall. unfold Resolver.GetGenres, bind, iterdir. rewrite Hdir.
  destruct (resolve_all_returns dict_genre tracks w (join_path path <$> names))
    as (ids & gs & Hrun & Hids & Hrel).
  { intros p Hp Hf. apply list_elem_of_fmap in Hp as (name & -> & Hname).
    by apply Hall. }
  exists ids, gs. rewrite Hrun. split; [done|]. split; [done|].
  split; [|done]. symmetry. by eapply Forall2_length.
Qed.

Lemma genre_top_of_unknown tracks k :
  Forall (fun t => Resolver.track_id t ≠ k) tracks ->
  Resolver.genre_top_of tracks k = Raises IndexError.
Proof.
  intros Hall. unfold Resolver.genre_top_of.
  assert (Hnil : filter (fun t => Resolver.track_id t = k) tracks = []).
  { induction Hall as [|t rest Ht _ IH]; [done|].
    rewrite filter_cons, decide_False by done. exact IH. }
  by rewrite Hnil.
Qed.

(** A file whose identifier is not a number, or has no row in the tracks
    table, or whose track has no top genre, makes [GetGenres] raise; no file
    is skipped at this stage. *)
Theorem GetGenres_fatal_lookup dict_genre tracks path names name w :
  dirs w !! path = Some names -> name ∈ names ->
  is_file (join_path path name) w = true ->
  (exists e0, py_int (str_slice (join_path path name) (-10) (-4)) = Raises e0)
  ∨ (exists k,
       py_int (str_slice (join_path path name) (-10) (-4)) = Returns k
       ∧ Forall (fun t => Resolver.track_id t ≠ k) tracks)
  ∨ (exists k,
       py_int (str_slice (join_path path name) (-10) (-4)) = Returns k
       ∧ Resolver.genre_top_of tracks k = Returns Resolver.NaN) ->
  exists e,
    Resolver.GetGenres py_int path dict_genre tracks w = (Raises e, w).
Proof.
  intros Hdir Hin Hfile Hcause.
  unfold Resolver.GetGenres, bind, iterdir. rewrite Hdir.
  assert (Hone : exists e,
             Resolver.resolve_one py_int dict_genre tracks
               (join_path path name) w = Raises e).
  { unfold Resolver.resolve_one. rewrite Hfile.
    destruct Hcause as [[e0 He0]|[(k & Hk & Hnone)|(k & Hk & Hnan)]].
    - rewrite He0. simpl. eauto.
    - rewrite Hk. simpl. rewrite genre_top_of_unknown by done. simpl. eauto.
    - rewrite Hk. simpl. rewrite Hnan. simpl. eauto. }
  destruct Hone as [e1 He1].
  destruct (resolve_all_raises py_int dict_genre tracks w
              (join_path path <$> names) (join_path path name) e1)
    as [e He]; [apply list_elem_of_fmap; eauto | done |].
  exists e. by rewrite He.
Qed.

End ResolverEdges.

(** ** Spectrogram extraction: what is written and what is not *)

Section ExtractorEdges.

Variable librosa_load : string -> result (Extractor.audio * Z).
Variable melspectrogram : Extractor.audio -> Z -> nat -> nat -> result ndarray.
Variable writable : string -> bool.

Abbreviation step' :=
  (Extractor.step librosa_load melspectrogram writable).
Abbreviation succeeds' :=
  (Extractor.succeeds librosa_load melspectrogram writable).

(** A save appends at most one name to one directory listing and replaces
    none. *)
Lemma saved_dirs_grow w p spec d l :
  dirs w !! d = Some l ->
  exists l', dirs (Extractor.saved w p spec) !! d = Some (l ++ l')
             ∧ length l' <= 1.
Proof.
  intros Hd. unfold Extractor.saved.
  destruct (split_path p) as [d0 n]. simpl.
  destruct (decide (d0 = d)) as [->|Hne].
  - rewrite lookup_insert_eq, Hd. simpl.
    destruct (decide (n ∈ l)).
    + exists []. rewrite app_nil_r. split; [done | simpl; lia].
    + exists [n]. split; [done | simpl; lia].
  - rewrite lookup_insert_ne by done. exists []. rewrite app_nil_r.
    split; [done | simpl; lia].
Qed.

Lemma step_dirs_grow save_path w file d l :
  dirs w !! d = Some l ->
  exists l', dirs (step' save_path w file) !! d = Some (l ++ l')
             ∧ length l' <= 1.
Proof.
  intros Hd. unfold Extractor.step.
  destruct (Extractor.compute_spec _ _ file) as [spec|];
    [|exists []; rewrite app_nil_r; split; [done | simpl; lia]].
  destruct (Extractor.savable _ _ _);
    [|exists []; rewrite app_nil_r; split; [done | simpl; lia]].
  by apply saved_dirs_grow.
Qed.

Lemma foldl_step_dirs_grow save_path files : forall w d l,
  dirs w !! d = Some l ->
  exists l', dirs (foldl (step' save_path) w files) !! d = Some (l ++ l')
             ∧ length l' <= length files.
Proof.
  induction files as [|f rest IH]; intros w d l Hd; simpl.
  - exists []. rewrite app_nil_r. split; [done | simpl; lia].
  - destruct (step_dirs_grow save_path w f d l Hd) as (l1 & H1 & Hlen1).
    destruct (IH _ _ _ H1) as (l2 & H2 & Hlen2).
    exists (l1 ++ l2). rewrite app_assoc. split; [done|].
    rewrite length_app. lia.
Qed.

Lemma step_dirs_is_Some save_path w file d :
  is_Some (dirs (step' save_path w file) !! d) <-> is_Some (dirs w !! d).
Proof.
  unfold Extractor.step.
  destruct (Extractor.compute_spec _ _ file) as [spec|]; [|done].
  destruct (Extractor.savable _ _ _) eqn:Hs; [|done].
  by apply (saved_dirs_lookup writable).
Qed.

Lemma foldl_step_dirs_is_Some save_path files : forall w d,
  is_Some (dirs (foldl (step' save_path) w files) !! d)
  <-> is_Some (dirs w !! d).
Proof.
  induction files as [|f rest IH]; intros w d; simpl; [done|].
  by rewrite IH, step_dirs_is_Some.
Qed.

Ltac same_listing :=
  split; [done|]; split; [auto|]; split; [intros; by left | lia].

(** A save keeps the names of every listing and adds at most its own. *)
Lemma saved_dirs_names w p spec d l :
  dirs w !! d = Some l ->
  exists l', dirs (Extractor.saved w p spec) !! d = Some l'
    ∧ (forall n, n ∈ l -> n ∈ l')
    ∧ (forall n, n ∈ l' -> n ∈ l ∨ split_path p = (d, n))
    ∧ length l' <= length l + 1.
Proof.
  intros Hd. unfold Extractor.saved.
  destruct (split_path p) as [d0 n0]. simpl.
  destruct (decide (d0 = d)) as [->|Hne].
  - rewrite lookup_insert_eq, Hd. simpl.
    destruct (decide (n0 ∈ l)) as [Hold|Hfresh].
    + exists l. same_listing.
    + exists (l ++ [n0]). split; [done|]. split; [|split].
      * intros n Hn. apply elem_of_app. by left.
      * intros n Hn. apply elem_of_app in Hn as [Hn|Hn]; [by left|].
        apply list_elem_of_singleton in Hn as ->. by right.
      * rewrite length_app. simpl. lia.
  - rewrite lookup_insert_ne by done.
    exists l. same_listing.
Qed.

Lemma step_dirs_names save_path w file d l :
  dirs w !! d = Some l ->
  exists l', dirs (step' save_path w file) !! d = Some l'
    ∧ (forall n, n ∈ l -> n ∈ l')
    ∧ (forall n, n ∈ l' ->
         n ∈ l ∨ split_path (Extractor.target save_path file) = (d, n))
    ∧ length l' <= length l + 1.
Proof.
  intros Hd. unfold Extractor.step.
  destruct (Extractor.compute_spec _ _ file) as [spec|];
    [|exists l; same_listing].
  destruct (Extractor.savable _ _ _);
    [|exists l; same_listing].
  by apply saved_dirs_names.
Qed.

Lemma foldl_step_dirs_names save_path files : forall w d l,
  dirs w !! d = Some l ->
  exists l', dirs (foldl (step' save_path) w files) !! d = Some l'
    ∧ (forall n, n ∈ l -> n ∈ l')
    ∧ (forall n, n ∈ l' ->
         n ∈ l ∨ exists file, file ∈ files
                  ∧ split_path (Extractor.target save_path file) = (d, n))
    ∧ length l' <= length l + length files.
Proof.
  induction files as [|f rest IH]; intros w d l Hd; simpl.
  - exists l. same_listing.
  - destruct (step_dirs_names save_path w f d l Hd)
      as (l1 & H1 & Hkeep1 & Hnew1 & Hlen1).
    destruct (IH _ _ _ H1) as (l2 & H2 & Hkeep2 & Hnew2 & Hlen2).
    exists l2. split; [done|]. split; [|split].
    + intros n Hn. by apply Hkeep2, Hkeep1.
    + intros n Hn. destruct (Hnew2 n Hn) as [Hn1|(file & Hin & Hsp)].
      * destruct (Hnew1 n Hn1) as [Hold|Hsp]; [by left|].
        right. exists f. split; [apply list_elem_of_here | done].
      * right. exists file. split; [by apply list_elem_of_further | done].
    + lia.
Qed.

(** [CreateSpectrograms] creates and removes no directory; every listing
    keeps its names and gains only names of artifacts of the listed audio
    files, at most one per audio file; every file that is not the target of a
    listed audio file is left as it was; the function is entered once. *)
Theorem CreateSpectrograms_frame load_path save_path names w :
  dirs w !! load_path = Some names ->
  let w' := (Extractor.CreateSpectrograms librosa_load melspectrogram
               writable load_path save_path w).2 in
  (forall d, is_Some (dirs w' !! d) <-> is_Some (dirs w !! d))
  ∧ (forall d l, dirs w !! d = Some l ->
       exists l', dirs w' !! d = Some l'
         ∧ (forall n, n ∈ l -> n ∈ l')
         ∧ (forall n, n ∈ l' ->
              n ∈ l
              ∨ exists name, name ∈ names
                  ∧ split_path (Extractor.target save_path
                                  (join_path load_path name)) = (d, n))
         ∧ length l' <= length l + length names)
  ∧ (forall p,
       (forall name, name ∈ names ->
          p ≠ Extractor.target save_path (join_path load_path name)) ->
       tensors w' !! p = tensors w !! p)
  ∧ trace w' = trace w ++ [Entered_CreateSpectrograms load_path save_path].
Proof.
  intros Hdir w'. subst w'.
  unfold Extractor.CreateSpectrograms, bind, emit, iterdir. simpl.
  rewrite Hdir, extract_all_foldl. simpl.
  split; [|split; [|split]].
  - intros d. by rewrite foldl_step_dirs_is_Some.
  - intros d l Hd.
    destruct (foldl_step_dirs_names save_path (join_path load_path <$> names)
                {| dirs := dirs w; tensors := tensors w;
                   trace := trace w ++ [Entered_CreateSpectrograms load_path
                                          save_path] |} d l Hd)
      as (l' & Hl' & Hkeep & Hnew & Hlen).
    exists l'. split; [done|]. split; [done|]. split.
    + intros n Hn. destruct (Hnew n Hn) as [Hold|(file & Hin & Hsp)];
        [by left|].
      apply list_elem_of_fmap in Hin as (name & -> & Hname).
      right. by exists name.
    + by rewrite length_fmap in Hlen.
  - intros p Hp. rewrite foldl_step_other; [done|].
    intros file spec Hin _ Heq.
    apply list_elem_of_fmap in Hin as (name & -> & Hname).
    by apply (Hp name Hname).
  - by rewrite foldl_step_trace.
Qed.

Lemma saved_listing w p spec :
  Extractor.savable writable w p = true ->
  exists l, dirs (Extractor.saved w p spec) !! (split_path p).1 = Some l
            ∧ (split_path p).2 ∈ l.
Proof.
  unfold Extractor.savable, Extractor.saved.
  destruct (split_path p) as [d n]. simpl. intros H.
  apply andb_prop in H as [H _]. apply andb_prop in H as [Hd _].
  apply bool_decide_eq_true_1 in Hd as [names Hd].
  rewrite lookup_insert_eq, Hd. simpl.
  destruct (decide (n ∈ names)); eexists; split; try done.
  apply elem_of_app. right. apply list_elem_of_here.
Qed.

(** When several audio files share an identifier, the artifact is the
    spectrogram of the last of them that succeeds; with distinct identifiers
    each succeeding file finds its own spectrogram under its identifier, and
    the artifact's name in the listing of its directory. *)
Theorem CreateSpectrograms_last_success_wins
    load_path save_path pre name post spec w :
  dirs w !! load_path = Some (pre ++ name :: post) ->
  succeeds' save_path w (join_path load_path name) spec ->
  (forall name' spec', name' ∈ post ->
     succeeds' save_path w (join_path load_path name') spec' ->
     Extractor.target save_path (join_path load_path name')
     ≠ Extractor.target save_path (join_path load_path name)) ->
  let w' := (Extractor.CreateSpectrograms librosa_load melspectrogram
               writable load_path save_path w).2 in
  let p := Extractor.target save_path (join_path load_path name) in
  tensors w' !! p = Some spec
  ∧ exists l, dirs w' !! (split_path p).1 = Some l ∧ (split_path p).2 ∈ l.
Proof.
  intros Hdir Hs Hpost w' p. subst w'.
  unfold Extractor.CreateSpectrograms, bind, emit, iterdir. simpl.
  rewrite Hdir, extract_all_foldl. simpl.
  rewrite fmap_app, fmap_cons, foldl_app. simpl.
  set (w0 := {| dirs := dirs w; tensors := tensors w; trace := _ |}).
  set (w1 := foldl (step' save_path) w0 (join_path load_path <$> pre)).
  assert (Hs1 : succeeds' save_path w1 (join_path load_path name) spec).
  { destruct Hs as [Hc Hsv]. split; [done|].
    subst w1. by rewrite foldl_step_savable. }
  destruct Hs1 as [Hc1 Hsv1].
  assert (Hstep : step' save_path w1 (join_path load_path name)
                  = Extractor.saved w1 p spec).
  { unfold Extractor.step. by rewrite Hc1, Hsv1. }
  rewrite Hstep. split.
  - rewrite foldl_step_other.
    + by rewrite saved_tensors, lookup_insert_eq.
    + intros file spec' Hin [Hc' Hsv'].
      apply list_elem_of_fmap in Hin as (name' & -> & Hname').
      apply (Hpost name' spec' Hname'). split; [done|].
      rewrite saved_savable in Hsv' by done.
      subst w1. by rewrite foldl_step_savable in Hsv'.
  - destruct (saved_listing w1 p spec Hsv1) as (l & Hl & Hin).
    destruct (foldl_step_dirs_grow save_path (join_path load_path <$> post)
                _ _ _ Hl) as (l' & Hl' & _).
    exists (l ++ l'). split; [done|]. apply elem_of_app. by left.
Qed.

End ExtractorEdges.

Section ExtractorRerun.

Variable librosa_load : string -> result (Extractor.audio * Z).
Variable melspectrogram : Extractor.audio -> Z -> nat -> nat -> result ndarray.
Variable writable : string -> bool.

Abbreviation step'' :=
  (Extractor.step librosa_load melspectrogram writable).
Abbreviation succeeds'' :=
  (Extractor.succeeds librosa_load melspectrogram writable).

(** What a run leaves under a path depends on the files only: the last
    write to the path, or else what was there. *)
Lemma foldl_step_last_write save_path (w : world) files :
  exists lw : string -> option ndarray,
    forall u p,
      (forall q, Extractor.savable writable u q
                 = Extractor.savable writable w q) ->
      tensors (foldl (step'' save_path) u files) !! p
      = match lw p with Some s => Some s | None => tensors u !! p end.
Proof.
  induction files as [|f rest IH].
  - exists (fun _ => None). done.
  - destruct IH as [lw Hlw].
    destruct (Extractor.compute_spec librosa_load melspectrogram f)
      as [spec|e] eqn:Hc;
      [destruct (Extractor.savable writable w
                   (Extractor.target save_path f)) eqn:Hs|].
    + exists (fun p => match lw p with
                       | Some s => Some s
                       | None => if decide (Extractor.target save_path f = p)
                                 then Some spec else None
                       end).
      intros u p Hu. simpl.
      assert (Hstep : step'' save_path u f
                      = Extractor.saved u (Extractor.target save_path f) spec).
      { unfold Extractor.step. by rewrite Hc, Hu, Hs. }
      rewrite Hlw.
      * destruct (lw p); [done|]. rewrite Hstep, saved_tensors.
        destruct (decide (Extractor.target save_path f = p)) as [->|Hne].
        -- by rewrite lookup_insert_eq.
        -- by rewrite lookup_insert_ne.
      * intros q. by rewrite step_savable.
    + exists lw. intros u p Hu. simpl.
      assert (Hstep : step'' save_path u f = u).
      { unfold Extractor.step. by rewrite Hc, Hu, Hs. }
      rewrite Hstep. by apply Hlw.
    + exists lw. intros u p Hu. simpl.
      assert (Hstep : step'' save_path u f = u).
      { unfold Extractor.step. by rewrite Hc. }
      rewrite Hstep. by apply Hlw.
Qed.

(** After a run every file that succeeds is listed in its directory. *)
Lemma foldl_step_listed save_path files : forall w file spec,
  file ∈ files -> succeeds'' save_path w file spec ->
  exists l,
    dirs (foldl (step'' save_path) w files)
      !! (split_path (Extractor.target save_path file)).1 = Some l
    ∧ (split_path (Extractor.target save_path file)).2 ∈ l.
Proof.
  induction files as [|f rest IH]; intros w file spec Hin Hs.
  - by apply elem_of_nil in Hin.
  - simpl. apply elem_of_cons in Hin as [<-|Hin].
    + destruct Hs as [Hc Hsv].
      assert (Hstep : step'' save_path w file
                      = Extractor.saved w (Extractor.target save_path file)
                          spec).
      { unfold Extractor.step. by rewrite Hc, Hsv. }
      rewrite Hstep.
      destruct (saved_listing writable w _ spec Hsv) as (l & Hl & Hn).
      destruct (foldl_step_dirs_grow librosa_load melspectrogram writable
                  save_path rest _ _ _ Hl) as (l' & Hl' & _).
      exists (l ++ l'). split; [done|]. apply elem_of_app. by left.
    + apply (IH _ _ spec Hin). destruct Hs as [Hc Hsv]. split; [done|].
      by rewrite step_savable.
Qed.

(** A run over files that are all listed already changes no listing. *)
Lemma foldl_step_dirs_fixed save_path files : forall u,
  (forall file spec, file ∈ files -> succeeds'' save_path u file spec ->
     exists l,
       dirs u !! (split_path (Extractor.target save_path file)).1 = Some l
       ∧ (split_path (Extractor.target save_path file)).2 ∈ l) ->
  dirs (foldl (step'' save_path) u files) = dirs u.
Proof.
  induction files as [|f rest IH]; intros u Hall; simpl; [done|].
  assert (Hstep : dirs (step'' save_path u f) = dirs u).
  { unfold Extractor.step.
    destruct (Extractor.compute_spec _ _ f) as [spec|] eqn:Hc; [|done].
    destruct (Extractor.savable _ _ _) eqn:Hs; [|done].
    destruct (Hall f spec (list_elem_of_here _ _)) as (l & Hl & Hn);
      [by split|].
    unfold Extractor.saved.
    destruct (split_path (Extractor.target save_path f)) as [d n].
    simpl in *. rewrite Hl. simpl. rewrite decide_True by done.
    by apply insert_id. }
  rewrite IH; [done|].
  intros file spec Hin [Hc Hs]. rewrite Hstep.
  apply (Hall file spec); [by apply list_elem_of_further|].
  split; [done|]. by rewrite step_savable in Hs.
Qed.

Lemma foldl_step_dirs_other save_path files d : forall w,
  (forall file, file ∈ files ->
     (split_path (Extractor.target save_path file)).1 ≠ d) ->
  dirs (foldl (step'' save_path) w files) !! d = dirs w !! d.
Proof.
  induction files as [|f rest IH]; intros w Hne; simpl; [done|].
  rewrite IH by (intros file Hin; apply Hne; by apply list_elem_of_further).
  unfold Extractor.step.
  destruct (Extractor.compute_spec _ _ f) as [spec|]; [|done].
  destruct (Extractor.savable _ _ _); [|done].
  unfold Extractor.saved.
  pose proof (Hne f (list_elem_of_here _ _)) as Hf.
  destruct (split_path (Extractor.target save_path f)) as [d0 n].
  simpl in *. by rewrite lookup_insert_ne.
Qed.

(** Running the extraction a second time changes nothing on disk, provided
    no artifact is written into the audio directory itself. *)
Theorem CreateSpectrograms_rerun load_path save_path names w :
  dirs w !! load_path = Some names ->
  (forall name, name ∈ names ->
     (split_path (Extractor.target save_path (join_path load_path name))).1
     ≠ load_path) ->
  let w1 := (Extractor.CreateSpectrograms librosa_load melspectrogram
               writable load_path save_path w).2 in
  let w2 := (Extractor.CreateSpectrograms librosa_load melspectrogram
               writable load_path save_path w1).2 in
  dirs w2 = dirs w1 ∧ tensors w2 = tensors w1.
Proof.
  intros Hdir Hout w1 w2.
  set (files := join_path load_path <$> names).
  set (w0 := {| dirs := dirs w; tensors := tensors w;
                trace := trace w ++ [Entered_CreateSpectrograms load_path
                                       save_path] |}).
  assert (Hw1 : w1 = foldl (step'' save_path) w0 files).
  { subst w1. unfold Extractor.CreateSpectrograms, bind, emit, iterdir.
    simpl. by rewrite Hdir, extract_all_foldl. }
  assert (Hfiles : forall file, file ∈ files ->
             (split_path (Extractor.target save_path file)).1 ≠ load_path).
  { intros file Hin. apply list_elem_of_fmap in Hin as (name & -> & Hn).
    by apply Hout. }
  assert (Hdir1 : dirs w1 !! load_path = Some names).
  { rewrite Hw1, foldl_step_dirs_other by done. exact Hdir. }
  set (w1' := {| dirs := dirs w1; tensors := tensors w1;
                 trace := trace w1 ++ [Entered_CreateSpectrograms load_path
                                         save_path] |}).
  assert (Hw2 : w2 = foldl (step'' save_path) w1' files).
  { subst w2. unfold Extractor.CreateSpectrograms, bind, emit, iterdir.
    simpl. by rewrite Hdir1, extract_all_foldl. }
  assert (Hsav1 : forall q, Extractor.savable writable w1' q
                            = Extractor.savable writable w0 q).
  { intros q. change (Extractor.savable writable w1' q)
      with (Extractor.savable writable w1 q).
    rewrite Hw1. apply foldl_step_savable. }
  split.
  - rewrite Hw2. change (dirs w1) with (dirs w1').
    apply foldl_step_dirs_fixed. intros file spec Hin [Hc Hs].
    change (dirs w1') with (dirs w1). rewrite Hw1.
    apply (foldl_step_listed save_path files w0 file spec Hin).
    split; [done|]. by rewrite <- Hsav1.
  - destruct (foldl_step_last_write save_path w0 files) as [lw Hlw].
    apply map_eq. intros p.
    rewrite Hw2, (Hlw w1' p Hsav1).
    change (tensors w1') with (tensors w1).
    rewrite Hw1, (Hlw w0 p) by done.
    by destruct (lw p).
Qed.

End ExtractorRerun.

(** ** Identifiers in file names *)

Section Identifiers.

Lemma list_ascii_app s1 s2 :
  String.list_ascii_of_string (s1 +:+ s2)
  = String.list_ascii_of_string s1 ++ String.list_ascii_of_string s2.
Proof. induction s1 as [|c s1 IH]; simpl; [done|]. by rewrite IH. Qed.

Lemma list_ascii_length s :
  length (String.list_ascii_of_string s) = String.length s.
Proof. induction s as [|c s IH]; simpl; [done|]. by rewrite IH. Qed.

Lemma str_slice_length s i j :
  String.length (str_slice s i j)
  = slice_index (String.length s) j - slice_index (String.length s) i.
Proof.
  unfold str_slice, py_slice.
  rewrite <- list_ascii_length, String.list_ascii_of_string_of_list_ascii.
  rewrite length_drop, length_take, !list_ascii_length.
  unfold slice_index. repeat case_match; lia.
Qed.

(** The middle of a string, cut out by a slice that starts after the prefix
    and stops before the suffix. *)
Lemma str_slice_middle pre mid suf (i j : Z) :
  slice_index (String.length (pre +:+ mid +:+ suf)) i = String.length pre ->
  slice_index (String.length (pre +:+ mid +:+ suf)) j
  = String.length pre + String.length mid ->
  str_slice (pre +:+ mid +:+ suf) i j = mid.
Proof.
  intros Hi Hj. unfold str_slice, py_slice.
  rewrite list_ascii_length, Hi, Hj, !list_ascii_app, app_assoc.
  rewrite take_app_length'
    by (by rewrite length_app, !list_ascii_length).
  rewrite drop_app_length' by (by rewrite list_ascii_length).
  apply String.string_of_list_ascii_of_string.
Qed.

Lemma string_length_app s1 s2 :
  String.length (s1 +:+ s2) = String.length s1 + String.length s2.
Proof. induction s1 as [|c s1 IH]; simpl; [done|]. by rewrite IH. Qed.

Lemma slice_index_nonneg n k :
  (0 <= k)%Z -> slice_index n k = Nat.min (Z.to_nat k) n.
Proof. intros Hk. unfold slice_index. case_match; [lia|done]. Qed.

Lemma slice_index_neg n k :
  (k < 0)%Z -> slice_index n k = n - Z.to_nat (- k).
Proof. intros Hk. unfold slice_index. case_match; lia. Qed.

Lemma string_app_assoc s1 s2 s3 : (s1 +:+ s2) +:+ s3 = s1 +:+ s2 +:+ s3.
Proof.
  induction s1 as [|c s1 IH]; [done|].
  change (String c ((s1 +:+ s2) +:+ s3) = String c (s1 +:+ s2 +:+ s3)).
  by f_equal.
Qed.

(** For an audio file named by a 6-character identifier and a 4-character
    extension, [str(file)[-10:-4]] is the identifier, whatever directory the
    file is in. *)
Theorem audio_file_identifier prefix id ext :
  String.length id = 6 -> String.length ext = 4 ->
  str_slice (prefix +:+ id +:+ ext) (-10) (-4) = id.
Proof.
  intros Hid Hext. apply str_slice_middle;
    rewrite !string_length_app, Hid, Hext; unfold slice_index; simpl; lia.
Qed.

Lemma target_identifier save_path file :
  String.length save_path = 17 ->
  str_slice (Extractor.target save_path file) 18 (-3)
  = str_slice file (-10) (-4).
Proof.
  intros Hlen. unfold Extractor.target. set (id := str_slice file (-10) (-4)).
  replace (save_path +:+ "/" +:+ id +:+ ".pt")
    with ((save_path +:+ "/") +:+ id +:+ ".pt")
    by apply string_app_assoc.
  apply str_slice_middle; rewrite !string_length_app, Hlen.
  - rewrite slice_index_nonneg by lia.
    change (String.length "/") with 1. lia.
  - rewrite slice_index_neg by lia.
    change (String.length "/") with 1.
    change (String.length ".pt") with 3. lia.
Qed.

(** [ChargeDataset] reads back from an artifact's path the identifier under
    which [CreateSpectrograms] saved it when the destination path has 17
    characters, as [data/Spectrograms] has; with a destination of any other
    length it reads something else (for a non-empty identifier). *)
Theorem artifact_identifier_round_trip save_path file :
  (String.length save_path = 17 ->
   str_slice (Extractor.target save_path file) 18 (-3)
   = str_slice file (-10) (-4))
  ∧ (String.length save_path ≠ 17 ->
     str_slice file (-10) (-4) ≠ "" ->
     str_slice (Extractor.target save_path file) 18 (-3)
     ≠ str_slice file (-10) (-4)).
Proof.
  split; [apply target_identifier|].
  unfold Extractor.target. set (id := str_slice file (-10) (-4)).
  intros Hlen Hid Heq. apply (f_equal String.length) in Heq.
  rewrite str_slice_length, !string_length_app in Heq.
  change (String.length "/") with 1 in Heq.
  change (String.length ".pt") with 3 in Heq.
  assert (Hpos : 0 < String.length id) by (destruct id; [done|simpl; lia]).
  rewrite (slice_index_nonneg _ 18), (slice_index_neg _ (-3)) in Heq by lia.
  lia.
Qed.

End Identifiers.

(** ** Loading: the exact condition for success *)

Section LoaderEdges.

Variable power_to_db : ndarray -> ndarray.

Lemma charge_all_unloadable id_list genre_list entries file : forall w,
  file ∈ entries -> tensors w !! file = None ->
  exists e,
    Loader.charge_all power_to_db id_list genre_list entries w = (Raises e, w).
Proof.
  induction entries as [|spec rest IH]; intros w Hin Hnone;
    [by apply elem_of_nil in Hin|].
  simpl. unfold bind at 1, lift.
  destruct (Loader.genre_of id_list genre_list (str_slice spec 18 (-3)))
    as [g|e]; [|eauto].
  unfold bind at 1, torch_load.
  destruct (tensors w !! spec) as [t|] eqn:Ht; [|eauto].
  apply elem_of_cons in Hin as [->|Hin]; [congruence|].
  unfold bind. destruct (IH w Hin Hnone) as [e ->]. eauto.
Qed.

(** For identifier and genre sequences of one length, [ChargeDataset]
    returns exactly when every entry of the directory holds an array and
    carries an identifier of the sequence; a single stray entry makes the
    whole load fail. It never changes the file system. *)
Theorem ChargeDataset_returns_iff path names id_list genre_list w :
  dirs w !! path = Some names ->
  length id_list = length genre_list ->
  ((exists images labels,
      (Loader.ChargeDataset power_to_db path id_list genre_list w).1
      = Returns (images, labels))
   <-> (forall name, name ∈ names ->
          str_slice (join_path path name) 18 (-3) ∈ id_list
          ∧ is_Some (tensors w !! join_path path name)))
  ∧ (Loader.ChargeDataset power_to_db path id_list genre_list w).2 = w.
Proof.
  intros Hdir Hlen. split; [|apply ChargeDataset_world].
  unfold Loader.ChargeDataset, bind, iterdir. rewrite Hdir. split.
  - intros (images & labels & Hrun) name Hname.
    assert (Hin : join_path path name ∈ join_path path <$> names)
      by (apply list_elem_of_fmap; eauto).
    split.
    + destruct (decide (str_slice (join_path path name) 18 (-3) ∈ id_list))
        as [|Hnot]; [done|].
      destruct (charge_all_raises power_to_db id_list genre_list _ _ w
                  Hin Hnot) as [e He].
      rewrite He in Hrun. discriminate.
    + destruct (tensors w !! join_path path name) as [t|] eqn:Ht; [eauto|].
      destruct (charge_all_unloadable id_list genre_list _ _ w Hin Ht)
        as [e He].
      rewrite He in Hrun. discriminate.
  - intros Hall.
    destruct (charge_all_returns power_to_db id_list genre_list
                (join_path path <$> names) w Hlen)
      as (images & labels & Hrun & _).
    { intros file Hfile.
      apply list_elem_of_fmap in Hfile as (name & -> & Hname). by apply Hall. }
    exists images, labels. by rewrite Hrun.
Qed.

End LoaderEdges.

(** ** From extraction to loading *)

Section ExtractThenLoad.

Variable py_int : string -> result Z.
Variable librosa_load : string -> result (Extractor.audio * Z).
Variable melspectrogram : Extractor.audio -> Z -> nat -> nat -> result ndarray.
Variable writable : string -> bool.
Variable power_to_db : ndarray -> ndarray.

Abbreviation step3 := (Extractor.step librosa_load melspectrogram writable).
Abbreviation succeeds3 :=
  (Extractor.succeeds librosa_load melspectrogram writable).

Lemma split_last_slash_Some l : forall d n,
  split_last_slash l = Some (d, n) -> l = d ++ "/"%char :: n.
Proof.
  induction l as [|c l IH]; intros d n Hs; simpl in Hs; [done|].
  destruct (split_last_slash l) as [[d' n']|] eqn:Hl.
  - injection Hs as <- <-. simpl. f_equal. by apply IH.
  - destruct (decide (c = "/"%char)) as [->|]; [|done].
    by injection Hs as <- <-.
Qed.

Lemma split_last_slash_None l :
  split_last_slash l = None -> "/"%char ∉ l.
Proof.
  induction l as [|c l IH]; intros Hs; simpl in Hs; [apply not_elem_of_nil|].
  destruct (split_last_slash l) as [[d' n']|]; [done|].
  destruct (decide (c = "/"%char)); [done|].
  apply not_elem_of_cons. split; [congruence|]. by apply IH.
Qed.

Lemma string_of_list_ascii_app l1 l2 :
  String.string_of_list_ascii (l1 ++ l2)
  = String.string_of_list_ascii l1 +:+ String.string_of_list_ascii l2.
Proof.
  induction l1 as [|c l1 IH]; [done|].
  change (String c (String.string_of_list_ascii (l1 ++ l2))
          = String c (String.string_of_list_ascii l1
                      +:+ String.string_of_list_ascii l2)).
  by f_equal.
Qed.

(** The path of an artifact is its directory, a slash and its name. *)
Lemma target_split save_path file :
  Extractor.target save_path file
  = join_path (split_path (Extractor.target save_path file)).1
      (split_path (Extractor.target save_path file)).2.
Proof.
  set (p := Extractor.target save_path file).
  unfold split_path.
  destruct (split_last_slash (String.list_ascii_of_string p))
    as [[d n]|] eqn:Hs.
  - apply split_last_slash_Some in Hs. simpl. unfold join_path.
    rewrite <- (String.string_of_list_ascii_of_string p) at 1.
    rewrite Hs, string_of_list_ascii_app. done.
  - apply split_last_slash_None in Hs. exfalso. apply Hs.
    subst p. unfold Extractor.target. rewrite list_ascii_app.
    apply elem_of_app. right. rewrite list_ascii_app.
    apply elem_of_app. left. apply list_elem_of_here.
Qed.

(** Every name that a run adds to a listing is the name of the artifact of
    a file that succeeded. *)
Lemma saved_dirs_new w p spec d l :
  dirs w !! d = Some l ->
  exists l', dirs (Extractor.saved w p spec) !! d = Some (l ++ l')
             ∧ forall n, n ∈ l' -> split_path p = (d, n).
Proof.
  intros Hd. unfold Extractor.saved.
  destruct (split_path p) as [d0 n0]. simpl.
  destruct (decide (d0 = d)) as [->|Hne].
  - rewrite lookup_insert_eq, Hd. simpl.
    destruct (decide (n0 ∈ l)) as [Hold|Hfresh].
    + exists []. rewrite app_nil_r. split; [done|].
      intros n Hn. by apply elem_of_nil in Hn.
    + exists [n0]. split; [done|].
      intros n Hn. by apply list_elem_of_singleton in Hn as ->.
  - rewrite lookup_insert_ne by done. exists []. rewrite app_nil_r.
    split; [done|]. intros n Hn. by apply elem_of_nil in Hn.
Qed.

Lemma foldl_step_dirs_new save_path files : forall w d l,
  dirs w !! d = Some l ->
  exists l',
    dirs (foldl (step3 save_path) w files) !! d = Some (l ++ l')
    ∧ forall n, n ∈ l' ->
        exists file spec,
          file ∈ files ∧ succeeds3 save_path w file spec
          ∧ split_path (Extractor.target save_path file) = (d, n).
Proof.
  induction files as [|f rest IH]; intros w d l Hd; simpl.
  - exists []. rewrite app_nil_r. split; [done|].
    intros n Hn. by apply elem_of_nil in Hn.
  - assert (Hstep : exists l1,
               dirs (step3 save_path w f) !! d = Some (l ++ l1)
               ∧ forall n, n ∈ l1 ->
                   exists spec, succeeds3 save_path w f spec
                     ∧ split_path (Extractor.target save_path f) = (d, n)).
    { unfold Extractor.step.
      destruct (Extractor.compute_spec _ _ f) as [spec|] eqn:Hc.
      - destruct (Extractor.savable _ _ _) eqn:Hs.
        + destruct (saved_dirs_new w (Extractor.target save_path f) spec d l
                      Hd) as (l1 & Hl1 & Hnew).
          exists l1. split; [done|]. intros n Hn. exists spec.
          split; [by split|]. by apply Hnew.
        + exists []. rewrite app_nil_r. split; [done|].
          intros n Hn. by apply elem_of_nil in Hn.
      - exists []. rewrite app_nil_r. split; [done|].
        intros n Hn. by apply elem_of_nil in Hn. }
    destruct Hstep as (l1 & Hl1 & Hnew1).
    destruct (IH _ _ _ Hl1) as (l2 & Hl2 & Hnew2).
    exists (l1 ++ l2). rewrite app_assoc. split; [done|].
    intros n Hn. apply elem_of_app in Hn as [Hn|Hn].
    + destruct (Hnew1 n Hn) as (spec & Hs & Hsplit).
      exists f, spec. split; [apply list_elem_of_here|]. by split.
    + destruct (Hnew2 n Hn) as (file & spec & Hin & [Hc Hs] & Hsplit).
      exists file, spec. split; [by apply list_elem_of_further|].
      split; [|done]. split; [done|]. by rewrite step_savable in Hs.
Qed.

(** What [GetGenres] returned, read back from its result. *)
Lemma resolve_all_inv dict_genre tracks w entries : forall id_list genre_list,
  Resolver.resolve_all py_int dict_genre tracks entries w
  = Returns (id_list, genre_list) ->
  id_list = (fun p => str_slice p (-10) (-4))
            <$> filter (fun p => is_file p w = true) entries
  ∧ length genre_list = length id_list.
Proof.
  induction entries as [|p rest IH]; intros ids gs Hrun; simpl in Hrun.
  - by injection Hrun as <- <-.
  - destruct (Resolver.resolve_one py_int dict_genre tracks p w)
      as [[ids1 gs1]|] eqn:Hone; [|done]. simpl in Hrun.
    destruct (Resolver.resolve_all py_int dict_genre tracks rest w)
      as [[ids2 gs2]|] eqn:Hrest; [|done]. simpl in Hrun.
    injection Hrun as <- <-.
    destruct (IH _ _ eq_refl) as [-> Hlen].
    rewrite filter_cons. unfold Resolver.resolve_one in Hone.
    destruct (is_file p w) eqn:Hf.
    + destruct (py_int (str_slice p (-10) (-4))) as [k|]; [|done].
      simpl in Hone.
      destruct (Resolver.genre_top_of tracks k) as [top|]; [|done].
      simpl in Hone.
      destruct (Resolver.dict_getitem dict_genre top) as [g|]; [|done].
      injection Hone as <- <-. simpl. split; [done|]. by rewrite Hlen.
    + injection Hone as <- <-. simpl. by split.
Qed.

(** After [GetGenres] has resolved the audio directory and
    [CreateSpectrograms] has filled an empty destination whose path has 17
    characters, [ChargeDataset] does not hit its fatal lookup: it returns one
    array and one label per artifact; each artifact is the spectrogram saved
    for an audio file of the directory, and its label is the genre recorded
    at the first position of that file's identifier. *)
Theorem extract_then_load dict_genre tracks load_path save_path names
    id_list genre_list w :
  String.length save_path = 17 ->
  dirs w !! load_path = Some names ->
  dirs w !! save_path = Some [] ->
  (forall name, name ∈ names ->
     is_file (join_path load_path name) w = false ->
     exists e, librosa_load (join_path load_path name) = Raises e) ->
  Resolver.GetGenres py_int load_path dict_genre tracks w
  = (Returns (id_list, genre_list), w) ->
  let w1 := (Extractor.CreateSpectrograms librosa_load melspectrogram
               writable load_path save_path w).2 in
  exists arts images labels,
    dirs w1 !! save_path = Some arts
    ∧ Loader.ChargeDataset power_to_db save_path id_list genre_list w1
      = (Returns (images, labels), w1)
    ∧ length images = length arts
    ∧ length labels = length arts
    ∧ (forall k art, arts !! k = Some art ->
         exists name t j g,
           name ∈ names
           ∧ join_path save_path art
             = Extractor.target save_path (join_path load_path name)
           ∧ tensors w1 !! join_path save_path art = Some t
           ∧ images !! k = Some (power_to_db t)
           ∧ id_list !! j
             = Some (str_slice (join_path load_path name) (-10) (-4))
           ∧ (forall j', j' < j ->
                id_list !! j'
                ≠ Some (str_slice (join_path load_path name) (-10) (-4)))
           ∧ genre_list !! j = Some g
           ∧ labels !! k = Some g).
Proof.
  intros Hlen17 Hload Hsave Hdirs Hgen w1.
  set (files := join_path load_path <$> names).
  set (w0 := {| dirs := dirs w; tensors := tensors w;
                trace := trace w ++ [Entered_CreateSpectrograms load_path
                                       save_path] |}).
  assert (Hw1 : w1 = foldl (step3 save_path) w0 files).
  { subst w1. unfold Extractor.CreateSpectrograms, bind, emit, iterdir.
    simpl. by rewrite Hload, extract_all_foldl. }
  (* the identifiers and the lengths of what the resolver returned *)
  unfold Resolver.GetGenres, bind, iterdir in Hgen. rewrite Hload in Hgen.
  assert (Hres : Resolver.resolve_all py_int dict_genre tracks files w
                 = Returns (id_list, genre_list)).
  { injection Hgen as Heq. exact Heq. }
  apply resolve_all_inv in Hres as [Hids Hlens].
  (* the listing of the destination after the run *)
  destruct (foldl_step_dirs_new save_path files w0 save_path [] Hsave)
    as (arts & Harts & Hnew).
  simpl in Harts. rewrite <- Hw1 in Harts.
  (* every artifact comes from a file of the audio directory *)
  assert (Hart : forall art, art ∈ arts ->
             exists name,
               name ∈ names
               ∧ join_path save_path art
                 = Extractor.target save_path (join_path load_path name)
               ∧ str_slice (join_path save_path art) 18 (-3)
                 = str_slice (join_path load_path name) (-10) (-4)
               ∧ str_slice (join_path load_path name) (-10) (-4) ∈ id_list
               ∧ is_Some (tensors w1 !! join_path save_path art)).
  { intros art Hin.
    destruct (Hnew art Hin) as (file & spec & Hfile & Hs & Hsplit).
    apply list_elem_of_fmap in Hfile as (name & -> & Hname).
    assert (Hpath : join_path save_path art
                    = Extractor.target save_path (join_path load_path name)).
    { rewrite (target_split save_path (join_path load_path name)).
      by rewrite Hsplit. }
    exists name. split; [done|]. split; [done|]. split; [|split].
    - rewrite Hpath. by apply target_identifier.
    - rewrite Hids. apply list_elem_of_fmap.
      exists (join_path load_path name). split; [done|].
      apply list_elem_of_filter. split; [|apply list_elem_of_fmap; eauto].
      destruct (is_file (join_path load_path name) w) eqn:Hf; [done|].
      destruct (Hdirs name Hname Hf) as [e He].
      destruct Hs as [Hc _]. unfold Extractor.compute_spec in Hc.
      rewrite He in Hc. discriminate.
    - rewrite Hpath, Hw1.
      apply (foldl_step_writes librosa_load melspectrogram writable
               save_path files w0 _ spec); [|done].
      apply list_elem_of_fmap. eauto. }
  destruct (charge_all_returns power_to_db id_list genre_list
              (join_path save_path <$> arts) w1 (eq_sym Hlens))
    as (images & labels & Hrun & Hli & Hll & Hrest).
  { intros entry Hentry.
    apply list_elem_of_fmap in Hentry as (art & -> & Hin).
    destruct (Hart art Hin) as (name & _ & _ & Hid & Hidin & Ht).
    split; [by rewrite Hid | done]. }
  exists arts, images, labels. rewrite length_fmap in Hli, Hll.
  split; [done|]. split.
  { unfold Loader.ChargeDataset, bind, iterdir. by rewrite Harts. }
  split; [done|]. split; [done|].
  intros k art Hk.
  destruct (Hart art) as (name & Hname & Hpath & Hid & _ & _).
  { apply list_elem_of_lookup. eauto. }
  destruct (Hrest k (join_path save_path art)) as (j & t & g & Hj & Hfirst
                                                   & Hg & Ht & Him & Hlab).
  { by rewrite list_lookup_fmap, Hk. }
  rewrite Hid in Hj, Hfirst.
  exists name, t, j, g. by repeat split.
Qed.

End ExtractThenLoad.

(** ** The dataset class *)

Section DatasetFacts.

Import Dataset.

Context {A L : Type}.

Lemma py_index_nonneg {T : Type} (l : list T) (i : nat) (a : T) :
  l !! i = Some a -> py_index l (Z.of_nat i) = Returns a.
Proof.
  intros Hi. unfold py_index.
  assert ((Z.of_nat i <? 0)%Z = false) as -> by (apply Z.ltb_ge; lia).
  rewrite Nat2Z.id. by apply getitem_Some.
Qed.

Lemma py_index_out_of_range {T : Type} (l : list T) (idx : Z) :
  (Z.of_nat (length l) <= idx)%Z ∨ (idx < - Z.of_nat (length l))%Z ->
  py_index l idx = Raises IndexError.
Proof.
  intros Hidx. unfold py_index.
  destruct (idx <? 0)%Z eqn:Hneg.
  - apply Z.ltb_lt in Hneg.
    assert ((idx + Z.of_nat (length l) <? 0)%Z = true) as -> by (apply Z.ltb_lt; lia). done.
  - apply Z.ltb_ge in Hneg. apply getitem_None, lookup_ge_None. lia.
Qed.

Lemma py_index_negative {T : Type} (l : list T) (idx : Z) :
  (- Z.of_nat (length l) <= idx < 0)%Z ->
  py_index l idx = py_index l (idx + Z.of_nat (length l)).
Proof.
  intros Hidx. unfold py_index.
  assert ((idx <? 0)%Z = true) as -> by (apply Z.ltb_lt; lia).
  assert ((idx + Z.of_nat (length l) <? 0)%Z = false) as -> by (apply Z.ltb_ge; lia).
  done.
Qed.

(** For a dataset built without a transform from lists of one length, the
    indices [0 .. len-1] give the pairs of the two lists in order, a negative
    index counts from the end, and any other index raises [IndexError]. *)
Theorem CustomSpectrogramDataset_getitem (xs : list A) (ys : list L) :
  length xs = length ys ->
  let self := Build xs ys None in
  len self = length xs
  ∧ (forall i a b, xs !! i = Some a -> ys !! i = Some b ->
       getitem_ self (Z.of_nat i) = Returns (a, b))
  ∧ (forall idx, (- Z.of_nat (len self) <= idx < 0)%Z ->
       getitem_ self idx = getitem_ self (idx + Z.of_nat (len self)))
  ∧ (forall idx,
       (Z.of_nat (len self) <= idx)%Z ∨ (idx < - Z.of_nat (len self))%Z ->
       getitem_ self idx = Raises IndexError).
Proof.
  intros Hlen self. unfold len, getitem_. simpl.
  split; [done|]. split; [|split].
  - intros i a b Ha Hb.
    by rewrite (py_index_nonneg _ _ _ Ha), (py_index_nonneg _ _ _ Hb).
  - intros idx Hidx.
    rewrite (py_index_negative xs), (py_index_negative ys) by lia.
    by rewrite Hlen.
  - intros idx Hidx. rewrite (py_index_out_of_range xs) by lia. done.
Qed.

(** The length of a dataset is the number of labels: with fewer arrays than
    labels an index below the length raises [IndexError], and with more
    arrays than labels the surplus arrays are never served. *)
Theorem CustomSpectrogramDataset_length_is_labels (xs : list A) (ys : list L)
    (f : option (A -> result A)) :
  let self := Build xs ys f in
  len self = length ys
  ∧ (length xs < length ys ->
     getitem_ self (Z.of_nat (length xs)) = Raises IndexError)
  ∧ (forall idx, (Z.of_nat (length ys) <= idx)%Z ->
       exists e, getitem_ self idx = Raises e).
Proof.
  intros self. unfold len, getitem_. simpl. split; [done|]. split.
  - intros _. rewrite (py_index_out_of_range xs) by lia. done.
  - intros idx Hidx.
    destruct (py_index xs idx) as [a|e]; simpl; [|eauto].
    rewrite (py_index_out_of_range ys) by lia. simpl. eauto.
Qed.

End DatasetFacts.

Lemma CustomSpectrogramDataset_getitem_witness :
  let self := Dataset.Build [10; 20] [6%Z; 7%Z] None in
  Dataset.len self = length [10; 20]
  ∧ (forall i a b, [10; 20] !! i = Some a -> [6%Z; 7%Z] !! i = Some b ->
       Dataset.getitem_ self (Z.of_nat i) = Returns (a, b))
  ∧ (forall idx, (- Z.of_nat (Dataset.len self) <= idx < 0)%Z ->
       Dataset.getitem_ self idx
       = Dataset.getitem_ self (idx + Z.of_nat (Dataset.len self)))
  ∧ (forall idx,
       (Z.of_nat (Dataset.len self) <= idx)%Z
       ∨ (idx < - Z.of_nat (Dataset.len self))%Z ->
       Dataset.getitem_ self idx = Raises IndexError).
Proof.
  exact (CustomSpectrogramDataset_getitem [10; 20] [6%Z; 7%Z] eq_refl).
Defined.

(** ** The loaders *)

Section LoadersFacts.

Import Dataset.

Context {L K : Type}.
Variable np_mean np_std : list ndarray -> result Q.
Variable train_test_split :
  list Augmenter.loc -> list L -> Q ->
  result (list Augmenter.loc * list Augmenter.loc * list L * list L).

(** When the statistics and the split go through, [CreateTrainTestLoaders]
    wraps the two partitions of the split as they are; with [dataaugment]
    only the training partition is extended, by one new array per training
    array and by a copy of its labels, while the validation partition, the
    labels returned for it and every array that existed before are left
    untouched. *)
Theorem CreateTrainTestLoaders_augments_training_only
    spectrograms_list genres_list train_size (train_kwargs test_kwargs : K)
    s m sd X_train X_val y_train y_val :
  np_mean (Augmenter.deref s <$> spectrograms_list) = Returns m ->
  np_std (Augmenter.deref s <$> spectrograms_list) = Returns sd ->
  train_test_split spectrograms_list genres_list train_size
  = Returns (X_train, X_val, y_train, y_val) ->
  length X_train = length y_train ->
  CreateTrainTestLoaders np_mean np_std train_test_split spectrograms_list
    genres_list train_size train_kwargs test_kwargs false s
  = (Returns (Loader (Build X_train y_train None) train_kwargs,
              Loader (Build X_val y_val None) test_kwargs, y_val), s)
  ∧ exists new s',
      CreateTrainTestLoaders np_mean np_std train_test_split
        spectrograms_list genres_list train_size train_kwargs test_kwargs
        true s
      = (Returns (Loader (Build (X_train ++ new) (y_train ++ y_train) None)
                    train_kwargs,
                  Loader (Build X_val y_val None) test_kwargs, y_val), s')
      ∧ length new = length X_train
      ∧ Forall (fun l => length (Augmenter.heap s) <= l) new
      ∧ take (length (Augmenter.heap s)) (Augmenter.heap s')
        = Augmenter.heap s.
Proof.
  intros Hm Hsd Hsplit Hlen. split.
  - unfold CreateTrainTestLoaders, bind, lift, ret.
    by rewrite Hm, Hsd, Hsplit.
  - destruct (augmented_fresh X_train s) as (news & Hheap & Hseq & _).
    exists (Augmenter.augmented X_train s).1,
           (Augmenter.augmented X_train s).2.
    split; [|split; [|split]].
    + unfold CreateTrainTestLoaders, bind, lift.
      rewrite Hm, Hsd, Hsplit.
      unfold Augmenter.DataSpecAugmentation, bind.
      rewrite augment_from_eq by (simpl; lia). unfold ret.
      by rewrite drop_0, Hlen, firstn_all.
    + by rewrite Hseq, length_seq.
    + rewrite Hseq. apply Forall_forall. intros l Hl.
      apply elem_of_seq in Hl. lia.
    + by rewrite Hheap, take_app_length.
Qed.

End LoadersFacts.

Lemma CreateTrainTestLoaders_augments_training_only_witness :
  Dataset.CreateTrainTestLoaders Demo.mean_zero Demo.mean_zero Demo.split
    [0; 1] [6%Z; 7%Z] (1 # 2) tt tt false Demo.two_arrays
  = (Returns (Dataset.Loader (Dataset.Build [0] [6%Z] None) tt,
              Dataset.Loader (Dataset.Build [1] [7%Z] None) tt, [7%Z]),
     Demo.two_arrays)
  ∧ exists new s',
      Dataset.CreateTrainTestLoaders Demo.mean_zero Demo.mean_zero Demo.split
        [0; 1] [6%Z; 7%Z] (1 # 2) tt tt true Demo.two_arrays
      = (Returns (Dataset.Loader
                    (Dataset.Build ([0] ++ new) ([6%Z] ++ [6%Z]) None) tt,
                  Dataset.Loader (Dataset.Build [1] [7%Z] None) tt, [7%Z]),
         s')
      ∧ length new = length [0]
      ∧ Forall (fun l => length (Augmenter.heap Demo.two_arrays) <= l) new
      ∧ take (length (Augmenter.heap Demo.two_arrays)) (Augmenter.heap s')
        = Augmenter.heap Demo.two_arrays.
Proof.
  exact (CreateTrainTestLoaders_augments_training_only
           Demo.mean_zero Demo.mean_zero Demo.split [0; 1] [6%Z; 7%Z]
           (1 # 2) tt tt Demo.two_arrays 0%Q 0%Q [0] [1] [6%Z] [7%Z]
           eq_refl eq_refl eq_refl eq_refl).
Defined.

(** ** What the pipeline prints *)

Section PipelineMessages.

Variable py_int : string -> result Z.
Variable librosa_load : string -> result (Extractor.audio * Z).
Variable melspectrogram : Extractor.audio -> Z -> nat -> nat -> result ndarray.
Variable writable : string -> bool.
Variable power_to_db : ndarray -> ndarray.

Lemma GetGenres_directory path dict_genre tracks w v :
  (Resolver.GetGenres py_int path dict_genre tracks w).1 = Returns v ->
  is_Some (dirs w !! path).
Proof.
  unfold Resolver.GetGenres, bind, iterdir.
  destruct (dirs w !! path); [eauto | done].
Qed.

(** The part of the pipeline after the guard. *)
Lemma pipeline_after_guard id_list genre_list u :
  exists r u' tail,
    (print "Spectrograms created";;;
     let* (spectrograms, genres) :=
       Loader.ChargeDataset power_to_db "data/Spectrograms" id_list
         genre_list in
     print "Spectrograms loaded";;;
     let shape := mjoin ((fun i => [shape0 i; shape1 i]) <$> spectrograms) in
     let shapes := Pipeline.np_unique shape in
     let* (spectrograms_list, genres_list) :=
       lift (Normalizer.FixSizeSpectrogram spectrograms genres shapes) in
     print "Size fixed for Spectrograms";;;
     ret (spectrograms_list, genres_list))%py u = (r, u')
    ∧ trace u' = trace u ++ Printed "Spectrograms created" :: tail
    ∧ ((exists v, r = Returns v) ->
       tail = [Printed "Spectrograms loaded";
               Printed "Size fixed for Spectrograms"])
    ∧ Forall (fun e => exists line, e = Printed line) tail.
Proof.
  unfold bind at 1. rewrite print_spec.
  set (u1 := {| dirs := dirs u; tensors := tensors u;
                trace := trace u ++ [Printed "Spectrograms created"] |}).
  unfold bind at 1.
  pose proof (ChargeDataset_world power_to_db "data/Spectrograms" id_list
                genre_list u1) as Hworld.
  destruct (Loader.ChargeDataset power_to_db "data/Spectrograms" id_list
              genre_list u1) as [[[spectrograms genres]|e] u1'];
    simpl in Hworld; subst u1'.
  - unfold bind at 1. rewrite print_spec. unfold bind at 1, lift.
    destruct (Normalizer.FixSizeSpectrogram spectrograms genres _)
      as [[sl gl]|e].
    + unfold bind, ret. rewrite print_spec.
      eexists _, _, [Printed "Spectrograms loaded";
                     Printed "Size fixed for Spectrograms"].
      split; [reflexivity|]. simpl. rewrite <- !app_assoc.
      split; [done|]. split; [done|]. repeat constructor; eauto.
    + eexists _, _, [Printed "Spectrograms loaded"].
      split; [reflexivity|]. simpl. rewrite <- !app_assoc.
      split; [done|]. split; [by intros [v ?]|]. repeat constructor; eauto.
  - eexists _, _, []. split; [reflexivity|]. simpl.
    split; [done|]. split; [by intros [v ?]|]. constructor.
Qed.

(** In a run that reaches the guard, the pipeline prints [Tracks and Genres
    loaded], enters [CreateSpectrograms] unless the destination has 7994
    entries, and then prints [Spectrograms created] in either case, whether
    or not any artifact was written; a run that returns goes on to print
    [Spectrograms loaded] and [Size fixed for Spectrograms]. *)
Theorem LoadDataPipeline_messages tracks w names id_list genre_list :
  dirs w !! "data/Spectrograms" = Some names ->
  (Resolver.GetGenres py_int "data/audio" Pipeline.genre_dict tracks w).1
  = Returns (id_list, genre_list) ->
  let res := Pipeline.LoadDataPipeline py_int librosa_load melspectrogram
               writable power_to_db tracks w in
  exists tail,
    trace res.2
    = trace w
      ++ Printed "Tracks and Genres loaded"
         :: (if decide (length names = Pipeline.expected_artifacts) then []
             else [Entered_CreateSpectrograms "data/audio"
                     "data/Spectrograms"])
         ++ Printed "Spectrograms created" :: tail
    ∧ ((exists v, res.1 = Returns v) ->
       tail = [Printed "Spectrograms loaded";
               Printed "Size fixed for Spectrograms"])
    ∧ Forall (fun e => exists line, e = Printed line) tail.
Proof.
  intros Hd Hg res.
  destruct (GetGenres_directory _ _ _ _ _ Hg) as [audio Haudio].
  set (w1 := {| dirs := dirs w; tensors := tensors w;
                trace := trace w ++ [Printed "Tracks and Genres loaded"] |}).
  assert (Hg1 : Resolver.GetGenres py_int "data/audio" Pipeline.genre_dict
                  tracks w1 = (Returns (id_list, genre_list), w1)).
  { rewrite (surjective_pairing (Resolver.GetGenres _ _ _ _ w1)).
    rewrite GetGenres_world, (GetGenres_dirs _ _ _ _ w) by done.
    by rewrite Hg. }
  assert (Hmain : exists r u' tail,
             res = (r, u')
             ∧ trace u'
               = trace w
                 ++ Printed "Tracks and Genres loaded"
                    :: (if decide (length names = Pipeline.expected_artifacts)
                        then []
                        else [Entered_CreateSpectrograms "data/audio"
                                "data/Spectrograms"])
                    ++ Printed "Spectrograms created" :: tail
             ∧ ((exists v, r = Returns v) ->
                tail = [Printed "Spectrograms loaded";
                        Printed "Size fixed for Spectrograms"])
             ∧ Forall (fun e => exists line, e = Printed line) tail).
  { subst res. unfold Pipeline.LoadDataPipeline.
    unfold bind at 1. rewrite print_spec. fold w1.
    unfold bind at 1. rewrite Hg1.
    unfold bind at 1.
    rewrite (extraction_stage_guard _ _ _ _ _ names) by exact Hd.
    destruct (decide (length names = Pipeline.expected_artifacts))
      as [Heq|Hne].
    - destruct (pipeline_after_guard id_list genre_list w1)
        as (r & u' & tail & Hrun & Htrace & Hret & Hall).
      exists r, u', tail. split; [exact Hrun|]. split; [|by split].
      rewrite Htrace. simpl. by rewrite <- app_assoc.
    - unfold Extractor.CreateSpectrograms at 1. unfold bind at 1, emit.
      unfold bind at 1, iterdir. simpl. rewrite Haudio, extract_all_foldl.
      match goal with
      | |- context [foldl ?f ?a ?l] => set (w2 := foldl f a l)
      end.
      assert (Htr2 : trace w2
                     = trace w1 ++ [Entered_CreateSpectrograms "data/audio"
                                      "data/Spectrograms"]).
      { subst w2. by rewrite foldl_step_trace. }
      destruct (pipeline_after_guard id_list genre_list w2)
        as (r & u' & tail & Hrun & Htrace & Hret & Hall).
      exists r, u', tail. split; [exact Hrun|]. split; [|by split].
      rewrite Htrace, Htr2. simpl. by rewrite <- !app_assoc. }
  destruct Hmain as (r & u' & tail & Hres & Htrace & Hret & Hall).
  exists tail. rewrite Hres. simpl. by repeat split.
Qed.

End PipelineMessages.

Lemma LoadDataPipeline_messages_witness :
  let res := Pipeline.LoadDataPipeline Sample.no_int Sample.load Sample.mel
               Sample.always_writable Sample.to_db [] Sample.empty_disk in
  exists tail,
    trace res.2
    = trace Sample.empty_disk
      ++ Printed "Tracks and Genres loaded"
         :: (if decide (length ([] : list string)
                        = Pipeline.expected_artifacts) then []
             else [Entered_CreateSpectrograms "data/audio"
                     "data/Spectrograms"])
         ++ Printed "Spectrograms created" :: tail
    ∧ ((exists v, res.1 = Returns v) ->
       tail = [Printed "Spectrograms loaded";
               Printed "Size fixed for Spectrograms"])
    ∧ Forall (fun e => exists line, e = Printed line) tail.
Proof.
  exact (LoadDataPipeline_messages Sample.no_int Sample.load Sample.mel
           Sample.always_writable Sample.to_db [] Sample.empty_disk
           [] [] [] eq_refl eq_refl).
Defined.

Ltac in_list H :=
  repeat (apply elem_of_cons in H as [->|H]);
  [.. | by apply elem_of_nil in H].

Lemma GetGenres_returns_witness :
  exists id_list genre_list,
    Resolver.GetGenres Demo.parse_id "data/audio" Pipeline.genre_dict
      Demo.tracks Demo.disk
    = (Returns (id_list, genre_list), Demo.disk)
    ∧ id_list = (fun p => str_slice p (-10) (-4))
                <$> filter (fun p => is_file p Demo.disk = true)
                      (join_path "data/audio"
                         <$> ["000002.mp3"; "000005.mp3"; "sub"])
    ∧ length genre_list = length id_list
    ∧ Forall2 (fun id g =>
                 exists k s,
                   Demo.parse_id id = Returns k
                   ∧ Resolver.genre_top_of Demo.tracks k
                     = Returns (Resolver.Str s)
                   ∧ Pipeline.genre_dict !! s = Some g) id_list genre_list.
Proof.
  refine (GetGenres_returns Demo.parse_id Pipeline.genre_dict Demo.tracks
            "data/audio" ["000002.mp3"; "000005.mp3"; "sub"] Demo.disk
            eq_refl _).
  intros name Hin Hfile. in_list Hin.
  - exists 2%Z, "Pop", 6%Z. by vm_compute.
  - exists 5%Z, "Rock", 7%Z. by vm_compute.
  - by vm_compute in Hfile.
Defined.

Lemma GetGenres_fatal_lookup_witness :
  exists e,
    Resolver.GetGenres Demo.parse_id "data/audio" Pipeline.genre_dict
      Demo.tracks Demo.disk_with_stranger
    = (Raises e, Demo.disk_with_stranger).
Proof.
  refine (GetGenres_fatal_lookup Demo.parse_id Pipeline.genre_dict
            Demo.tracks "data/audio" ["000002.mp3"; "000009.mp3"]
            "000009.mp3" Demo.disk_with_stranger eq_refl _ eq_refl _).
  - apply list_elem_of_further, list_elem_of_here.
  - right. left. exists 9%Z. split; [reflexivity|].
    repeat constructor; by vm_compute.
Defined.

Lemma audio_file_identifier_witness :
  str_slice ("data/audio/" +:+ "000002" +:+ ".mp3") (-10) (-4) = "000002".
Proof.
  exact (audio_file_identifier "data/audio/" "000002" ".mp3"
           eq_refl eq_refl).
Defined.

Lemma CreateSpectrograms_frame_witness :
  let w' := (Extractor.CreateSpectrograms Sample.load Sample.mel
               Sample.always_writable "audio" "out" Sample.disk).2 in
  (forall d, is_Some (dirs w' !! d) <-> is_Some (dirs Sample.disk !! d))
  ∧ (forall d l, dirs Sample.disk !! d = Some l ->
       exists l', dirs w' !! d = Some l'
         ∧ (forall n, n ∈ l -> n ∈ l')
         ∧ (forall n, n ∈ l' ->
              n ∈ l
              ∨ exists name,
                  name ∈ ["000002.mp3"; "000005.mp3"; "broken.mp3"]
                  ∧ split_path (Extractor.target "out"
                                  (join_path "audio" name)) = (d, n))
         ∧ length l'
           <= length l
              + length ["000002.mp3"; "000005.mp3"; "broken.mp3"])
  ∧ (forall p,
       (forall name,
          name ∈ ["000002.mp3"; "000005.mp3"; "broken.mp3"] ->
          p ≠ Extractor.target "out" (join_path "audio" name)) ->
       tensors w' !! p = tensors Sample.disk !! p)
  ∧ trace w'
    = trace Sample.disk ++ [Entered_CreateSpectrograms "audio" "out"].
Proof.
  exact (CreateSpectrograms_frame Sample.load Sample.mel
           Sample.always_writable "audio" "out"
           ["000002.mp3"; "000005.mp3"; "broken.mp3"] Sample.disk eq_refl).
Defined.

Lemma CreateSpectrograms_last_success_wins_witness :
  let w' := (Extractor.CreateSpectrograms Sample.load Sample.mel
               Sample.always_writable "audio" "out" Sample.disk).2 in
  let p := Extractor.target "out" (join_path "audio" "000002.mp3") in
  tensors w' !! p = Some (NdArray 1 2 [[4 # 2; 4 # 2]]%Q)
  ∧ exists l, dirs w' !! (split_path p).1 = Some l ∧ (split_path p).2 ∈ l.
Proof.
  refine (CreateSpectrograms_last_success_wins Sample.load Sample.mel
            Sample.always_writable "audio" "out" [] "000002.mp3"
            ["000005.mp3"; "broken.mp3"] (NdArray 1 2 [[4 # 2; 4 # 2]]%Q)
            Sample.disk eq_refl _ _).
  - split; by vm_compute.
  - intros name' spec' Hin _. in_list Hin; by vm_compute.
Defined.

Lemma CreateSpectrograms_rerun_witness :
  let w1 := (Extractor.CreateSpectrograms Sample.load Sample.mel
               Sample.always_writable "audio" "out" Sample.disk).2 in
  let w2 := (Extractor.CreateSpectrograms Sample.load Sample.mel
               Sample.always_writable "audio" "out" w1).2 in
  dirs w2 = dirs w1 ∧ tensors w2 = tensors w1.
Proof.
  refine (CreateSpectrograms_rerun Sample.load Sample.mel
            Sample.always_writable "audio" "out"
            ["000002.mp3"; "000005.mp3"; "broken.mp3"] Sample.disk
            eq_refl _).
  intros name Hin. in_list Hin; by vm_compute.
Defined.

Lemma ChargeDataset_returns_iff_witness :
  ((exists images labels,
      (Loader.ChargeDataset Sample.to_db "data/Spectrograms" Sample.id_list
         Sample.genre_list Sample.library).1
      = Returns (images, labels))
   <-> (forall name, name ∈ ["000002.pt"; "000005.pt"] ->
          str_slice (join_path "data/Spectrograms" name) 18 (-3)
          ∈ Sample.id_list
          ∧ is_Some (tensors Sample.library
                       !! join_path "data/Spectrograms" name)))
  ∧ (Loader.ChargeDataset Sample.to_db "data/Spectrograms" Sample.id_list
       Sample.genre_list Sample.library).2 = Sample.library.
Proof.
  exact (ChargeDataset_returns_iff Sample.to_db "data/Spectrograms"
           ["000002.pt"; "000005.pt"] Sample.id_list Sample.genre_list
           Sample.library eq_refl eq_refl).
Defined.

Lemma extract_then_load_witness :
  let w1 := (Extractor.CreateSpectrograms Demo.load Sample.mel
               Sample.always_writable "data/audio" "data/Spectrograms"
               Demo.disk).2 in
  exists arts images labels,
    dirs w1 !! "data/Spectrograms" = Some arts
    ∧ Loader.ChargeDataset Sample.to_db "data/Spectrograms"
        ["000002"; "000005"] [6%Z; 7%Z] w1
      = (Returns (images, labels), w1)
    ∧ length images = length arts
    ∧ length labels = length arts
    ∧ (forall k art, arts !! k = Some art ->
         exists name t j g,
           name ∈ ["000002.mp3"; "000005.mp3"; "sub"]
           ∧ join_path "data/Spectrograms" art
             = Extractor.target "data/Spectrograms"
                 (join_path "data/audio" name)
           ∧ tensors w1 !! join_path "data/Spectrograms" art = Some t
           ∧ images !! k = Some (Sample.to_db t)
           ∧ ["000002"; "000005"] !! j
             = Some (str_slice (join_path "data/audio" name) (-10) (-4))
           ∧ (forall j', j' < j ->
                ["000002"; "000005"] !! j'
                ≠ Some (str_slice (join_path "data/audio" name) (-10) (-4)))
           ∧ [6%Z; 7%Z] !! j = Some g
           ∧ labels !! k = Some g).
Proof.
  refine (extract_then_load Demo.parse_id Demo.load Sample.mel
            Sample.always_writable Sample.to_db Pipeline.genre_dict
            Demo.tracks "data/audio" "data/Spectrograms"
            ["000002.mp3"; "000005.mp3"; "sub"]
            ["000002"; "000005"] [6%Z; 7%Z] Demo.disk
            eq_refl eq_refl eq_refl _ _).
  - intros name Hin Hfile. in_list Hin.
    + by vm_compute in Hfile.
    + by vm_compute in Hfile.
    + exists OSError. by vm_compute.
  - by vm_compute.
Defined.

(** The sample run from audio files to loaded pairs. *)
Example extract_then_load_sample_run :
  let w1 := (Extractor.CreateSpectrograms Demo.load Sample.mel
               Sample.always_writable "data/audio" "data/Spectrograms"
               Demo.disk).2 in
  (Loader.ChargeDataset Sample.to_db "data/Spectrograms"
     ["000002"; "000005"] [6%Z; 7%Z] w1).1
  = Returns ([NdArray 1 2 [[1; 3]]%Q; NdArray 1 3 [[1; 3; 5]]%Q],
             [6%Z; 7%Z]).
Proof. by vm_compute. Qed.
